(** * valtracker: event normalisation, tactical aggregates and report summary

    A shallow embedding of [backend/app/parsers.py] (classes [EventParser]
    and [EndStateParser]), [backend/app/insights.py] (class
    [TacticalInsights]), of the sections of [app/report.py] that print no
    percentage, and of the request handler of [app/main.py] up to the
    aggregation, followed by the properties of these functions.

    Conventions of the embedding.
    - A decoded JSON document is a [value].  JSON numbers are the integers;
      strings are byte strings: [lower] lower-cases the ASCII letters and
      [strip] removes the ASCII white space.
    - A Python [dict] keeps its insertion order, which the code relies on
      ([dict(sorted(...))], [list(d.items())[:1]]), so a dict is an
      association list in insertion order.  Dicts decoded from JSON have
      [string] keys ([pydict]); dicts built by the code are keyed by hashable
      values ([key]).
    - A Python exception is a [Raise] in the [result] type.
    - [round(v / total * 100, 1)] is computed on the exact quotient and held
      as a rational with denominator 10. *)

From Stdlib Require Import ZArith List String Ascii Bool Lia.
From Stdlib Require Import QArith Qabs Qpower Lqa.
From Stdlib Require Import DecimalString Permutation Sorted.
Import ListNotations.

Local Open Scope string_scope.
Local Open Scope Z_scope.
Local Open Scope list_scope.

(** ** Python values *)

#[local] Set Warnings "-register-all".

Inductive value : Type :=
| VNone
| VBool (b : bool)
| VInt (z : Z)
| VStr (s : string)
| VList (l : list value)
| VDict (d : list (string * value)).

(** A [dict] with string keys, as [json.loads] builds them. *)
Definition pydict : Type := list (string * value).

(** The exceptions the modelled code can meet. *)
Inductive exn : Type := JSONDecodeError | AttributeError | TypeError.

Inductive result (A : Type) : Type :=
| Ok (a : A)
| Raise (e : exn).
Arguments Ok {A} a.
Arguments Raise {A} e.

Definition rbind {A B : Type} (r : result A) (f : A -> result B) : result B :=
  match r with
  | Ok a => f a
  | Raise e => Raise e
  end.

Declare Scope result_scope.
Delimit Scope result_scope with result.
Notation "x <- r ;; k" := (rbind r (fun x => k))
  (at level 61, r at next level, right associativity) : result_scope.

(** [for x in l: acc = f(acc, x)], leaving the loop at the first exception. *)
Fixpoint foldM {A B : Type} (f : A -> B -> result A) (l : list B) (acc : A)
  : result A :=
  match l with
  | [] => Ok acc
  | x :: l' => rbind (f acc x) (foldM f l')
  end.

(** Truth value of an object ([if x:], [x or y]). *)
Definition truthy (v : value) : bool :=
  match v with
  | VNone => false
  | VBool b => b
  | VInt z => negb (z =? 0)
  | VStr s => negb (s =? "")%string
  | VList l => match l with [] => false | _ :: _ => true end
  | VDict d => match d with [] => false | _ :: _ => true end
  end.

(** [a or b] *)
Definition py_or (a b : value) : value := if truthy a then a else b.

(** [v == s] for a string literal [s]. *)
Definition eq_str (v : value) (s : string) : bool :=
  match v with
  | VStr t => (t =? s)%string
  | _ => false
  end.

Fixpoint lookup (k : string) (d : pydict) : option value :=
  match d with
  | [] => None
  | (k', v) :: d' => if (k' =? k)%string then Some v else lookup k d'
  end.

(** [d.get(k, default)] *)
Definition get_default (d : pydict) (k : string) (default : value) : value :=
  match lookup k d with
  | Some v => v
  | None => default
  end.

(** [d.get(k)] *)
Definition get (d : pydict) (k : string) : value := get_default d k VNone.

(** [k in d] *)
Definition has_key (d : pydict) (k : string) : bool :=
  match lookup k d with
  | Some _ => true
  | None => false
  end.

(** *** Strings *)

Definition lower_ascii (c : ascii) : ascii :=
  let n := nat_of_ascii c in
  if ((65 <=? n) && (n <=? 90))%nat then ascii_of_nat (n + 32) else c.

(** The byte with code [n]. *)
Definition is_byte (n : nat) (c : ascii) : bool := (nat_of_ascii c =? n)%nat.

(** [s.lower()], as far as a search for an ASCII word can tell.  Three
    kinds of characters have an ASCII letter in their lower case: the letters
    [A] to [Z]; the Kelvin sign U+212A (bytes 226 132 170), whose lower case
    is [k]; and the dotted capital I U+0130 (bytes 196 176), whose lower case
    is [i] followed by the combining dot U+0307 (bytes 204 135).  Every other
    character stays outside ASCII when lower-cased and is left as it is. *)
Fixpoint lower (s : string) : string :=
  match s with
  | EmptyString => EmptyString
  | String c1 s1 =>
      match s1 with
      | EmptyString => String (lower_ascii c1) EmptyString
      | String c2 s2 =>
          if is_byte 196 c1 && is_byte 176 c2
          then String "i" (String (ascii_of_nat 204)
                                  (String (ascii_of_nat 135) (lower s2)))
          else
            match s2 with
            | EmptyString => String (lower_ascii c1) (lower s1)
            | String c3 s3 =>
                if is_byte 226 c1 && is_byte 132 c2 && is_byte 170 c3
                then String "k" (lower s3)
                else String (lower_ascii c1) (lower s1)
            end
      end
  end.

(** [needle in hay] *)
Fixpoint contains (needle hay : string) : bool :=
  prefix needle hay
  || match hay with
     | EmptyString => false
     | String _ hay' => contains needle hay'
     end.

(** [sep.join(l)] *)
Fixpoint join (sep : string) (l : list string) : string :=
  match l with
  | [] => ""
  | [s] => s
  | s :: l' => (s ++ sep ++ join sep l')%string
  end.

(** [str(n)] and [f"{n:+d}"] for an [int]. *)
Definition str_int (z : Z) : string := NilZero.string_of_int (Z.to_int z).

Definition str_int_signed (z : Z) : string :=
  if z <? 0 then str_int z else ("+" ++ str_int z)%string.

(** *** Hashable values and the dicts keyed by them *)

Inductive key : Type :=
| KNone
| KBool (b : bool)
| KInt (z : Z)
| KStr (s : string).

(** Using a value as a dict key, or counting it, hashes it: lists and dicts
    raise [TypeError: unhashable type]. *)
Definition hash_key (v : value) : result key :=
  match v with
  | VNone => Ok KNone
  | VBool b => Ok (KBool b)
  | VInt z => Ok (KInt z)
  | VStr s => Ok (KStr s)
  | VList _ | VDict _ => Raise TypeError
  end.

(** [hash(v)] does not raise. *)
Definition hashable (v : value) : bool :=
  match hash_key v with
  | Ok _ => true
  | Raise _ => false
  end.

(** [True == 1] and [False == 0] also as dict keys. *)
Definition key_norm (k : key) : key :=
  match k with
  | KBool b => KInt (if b then 1 else 0)
  | _ => k
  end.

Definition key_eqb (a b : key) : bool :=
  match key_norm a, key_norm b with
  | KNone, KNone => true
  | KInt x, KInt y => x =? y
  | KStr s, KStr t => (s =? t)%string
  | _, _ => false
  end.

Definition key_truthy (k : key) : bool :=
  match k with
  | KNone => false
  | KBool b => b
  | KInt z => negb (z =? 0)
  | KStr s => negb (s =? "")%string
  end.

(** [str(k)] *)
Definition str_key (k : key) : string :=
  match k with
  | KNone => "None"
  | KBool true => "True"
  | KBool false => "False"
  | KInt z => str_int z
  | KStr s => s
  end.

Definition odict (V : Type) : Type := list (key * V).

Fixpoint od_find {V : Type} (k : key) (d : odict V) : option V :=
  match d with
  | [] => None
  | (k', v) :: d' => if key_eqb k' k then Some v else od_find k d'
  end.

(** [d[k] = v]: an existing key keeps its position, a new one goes last. *)
Fixpoint od_set {V : Type} (k : key) (v : V) (d : odict V) : odict V :=
  match d with
  | [] => [(k, v)]
  | (k', v') :: d' =>
      if key_eqb k' k then (k', v) :: d' else (k', v') :: od_set k v d'
  end.

(** [d[k] = f(d[k])] on a [defaultdict] whose factory gives [dflt]. *)
Fixpoint od_update {V : Type} (dflt : V) (f : V -> V) (k : key) (d : odict V)
  : odict V :=
  match d with
  | [] => [(k, f dflt)]
  | (k', v') :: d' =>
      if key_eqb k' k then (k', f v') :: d'
      else (k', v') :: od_update dflt f k d'
  end.

(** [d[k].append(x)] on a [defaultdict(list)]. *)
Definition od_append {A : Type} (k : key) (x : A) (d : odict (list A))
  : odict (list A) :=
  od_update [] (fun xs => xs ++ [x]) k d.

(** [list(d.keys())] *)
Definition keys {V : Type} (d : odict V) : list key := map fst d.

(** [k in d] *)
Definition has {V : Type} (k : key) (d : odict V) : bool :=
  existsb (fun k' => key_eqb k' k) (keys d).

(** No two keys of the dict are equal. *)
Definition distinct {V : Type} (d : odict V) : Prop :=
  NoDup (map key_norm (keys d)).

(** A [defaultdict(list)] none of whose lists is empty. *)
Definition filled {A : Type} (d : odict (list A)) : Prop :=
  Forall (fun e => snd e <> []) d.

(** ** The data handed from the parsers to the aggregation *)

(** What [EventParser.parse_events] returns: the dict with the keys
    ["spike_plants"], ["kills"], ["events_by_round"], ["schema_preview"]. *)
Record event_facts : Type := {
  spike_plants : list pydict;
  kills : list pydict;
  events_by_round : odict (list value);
  schema_preview : pydict
}.

Definition no_events : event_facts :=
  {| spike_plants := []; kills := []; events_by_round := [];
     schema_preview := [] |}.

(** ** backend/app/parsers.py: class EventParser *)

Module EventParser.

(** One line of a JSONL file, as [line.strip()] and [json.loads(line)] see
    it: blank, not valid JSON, or a decoded value. *)
Inductive line : Type :=
| Blank
| Malformed
| Json (event : value).

(** A file found by [cache_dir.glob]: its name and its lines. *)
Definition jsonl_file : Type := (string * list line)%type.

Definition _is_spike_plant (event : value) : result bool :=
  match event with
  | VDict d =>
      match get_default d "event_type" (VStr "") with
      | VStr s =>
          let event_type := lower s in
          Ok (contains "plant" event_type || eq_str (get d "type") "plant_spike")
      | _ => Raise AttributeError
      end
  | _ => Raise AttributeError
  end.

(** The helper's own [try ... except Exception: return None]. *)
Definition _extract_plant_info (event : value) : option pydict :=
  match event with
  | VDict d =>
      Some [ ("map", py_or (get d "map") (py_or (get d "map_name") (VStr "unknown")));
             ("site", get_default d "site" (VStr "unknown"));
             ("round", get d "round_id");
             ("timestamp", get d "timestamp");
             ("round_time", get d "round_time");
             ("raw_event", event) ]
  | _ => None
  end.

Definition _is_kill (event : value) : result bool :=
  match event with
  | VDict d =>
      match get_default d "event_type" (VStr "") with
      | VStr s =>
          let event_type := lower s in
          Ok (contains "kill" event_type || eq_str (get d "type") "kill")
      | _ => Raise AttributeError
      end
  | _ => Raise AttributeError
  end.

Definition _extract_kill_info (event : value) : option pydict :=
  match event with
  | VDict d =>
      Some [ ("killer", py_or (get d "killer") (get d "killer_name"));
             ("victim", py_or (get d "victim") (get d "victim_name"));
             ("round", get d "round_id");
             ("timestamp", get d "timestamp");
             ("round_time", get d "round_time");
             ("raw_event", event) ]
  | _ => None
  end.

(** The body of the loops mutates the four accumulators and may raise at any
    statement; what was appended before the exception stays appended. *)
Definition M (A : Type) : Type := event_facts -> event_facts * result A.

Definition ret {A : Type} (a : A) : M A := fun st => (st, Ok a).

Definition bind {A B : Type} (m : M A) (f : A -> M B) : M B :=
  fun st =>
    match m st with
    | (st', Ok a) => f a st'
    | (st', Raise e) => (st', Raise e)
    end.

Definition lift {A : Type} (r : result A) : M A := fun st => (st, r).

Definition modify (f : event_facts -> event_facts) : M unit :=
  fun st => (f st, Ok tt).

Declare Scope parse_scope.
Delimit Scope parse_scope with parse.
Notation "x <- m ;; k" := (bind m (fun x => k))
  (at level 61, m at next level, right associativity) : parse_scope.
Notation "m ;; k" := (bind m (fun _ => k))
  (at level 61, right associativity) : parse_scope.

Definition push_plant (plant : pydict) : M unit :=
  modify (fun st =>
    {| spike_plants := spike_plants st ++ [plant]; kills := kills st;
       events_by_round := events_by_round st;
       schema_preview := schema_preview st |}).

Definition push_kill (kill : pydict) : M unit :=
  modify (fun st =>
    {| spike_plants := spike_plants st; kills := kills st ++ [kill];
       events_by_round := events_by_round st;
       schema_preview := schema_preview st |}).

Definition push_round (round_id : key) (event : value) : M unit :=
  modify (fun st =>
    {| spike_plants := spike_plants st; kills := kills st;
       events_by_round := od_append round_id event (events_by_round st);
       schema_preview := schema_preview st |}).

(** [if not schema_preview: schema_preview = {...}] *)
Definition capture_schema (file : string) (event : value) : M unit :=
  fun st =>
    match schema_preview st with
    | [] =>
        match event with
        | VDict d =>
            ({| spike_plants := spike_plants st; kills := kills st;
                events_by_round := events_by_round st;
                schema_preview :=
                  [ ("sample_keys", VList (map VStr (firstn 10 (map fst d))));
                    ("file", VStr file) ] |}, Ok tt)
        | _ => (st, Raise AttributeError)
        end
    | _ :: _ => (st, Ok tt)
    end.

(** [event.get("round_id", "unknown")] *)
Definition round_of (event : value) : result value :=
  match event with
  | VDict d => Ok (get_default d "round_id" (VStr "unknown"))
  | _ => Raise AttributeError
  end.

(** The statements of the inner loop after [event = json.loads(line)]. *)
Definition process_event (file : string) (event : value) : M unit :=
  (capture_schema file event ;;
   is_plant <- lift (_is_spike_plant event) ;;
   (if is_plant
    then match _extract_plant_info event with
         | Some plant => if truthy (VDict plant) then push_plant plant else ret tt
         | None => ret tt
         end
    else ret tt) ;;
   is_kill <- lift (_is_kill event) ;;
   (if is_kill
    then match _extract_kill_info event with
         | Some kill => if truthy (VDict kill) then push_kill kill else ret tt
         | None => ret tt
         end
    else ret tt) ;;
   round_id <- lift (rbind (round_of event) hash_key) ;;
   push_round round_id event)%parse.

Definition process_line (file : string) (l : line) : M unit :=
  match l with
  | Blank => ret tt
  | Malformed => lift (Raise JSONDecodeError)
  | Json event => process_event file event
  end.

(** [for line in f: ...] *)
Fixpoint for_lines (file : string) (lines : list line) : M unit :=
  match lines with
  | [] => ret tt
  | l :: lines' => (process_line file l ;; for_lines file lines')%parse
  end.

(** One turn of [for jsonl_file in jsonl_files]: the [try] encloses the
    whole file and both [except] clauses only log. *)
Definition parse_file (st : event_facts) (f : jsonl_file) : event_facts :=
  fst (for_lines (fst f) (snd f) st).

Definition parse_events (jsonl_files : list jsonl_file) : event_facts :=
  match jsonl_files with
  | [] => no_events
  | _ :: _ => fold_left parse_file jsonl_files no_events
  end.

End EventParser.

(** What [EndStateParser.parse_end_state] hands on, as far as the aggregation
    reads it: ["maps"] (the document's list, elements of any shape) and
    ["comps"] (team -> the list under ["agents"]).  A key that is absent
    reads as the empty default of [.get(k, [])], so absence and the empty
    list are one input. *)
Record end_state_doc : Type := {
  maps : list value;
  comps : odict (list value)
}.

(** One element of [series_data], built in [main.py]. *)
Record series : Type := {
  series_id : string;
  events : event_facts;
  end_state : end_state_doc
}.

(** ** Library functions the aggregation calls *)

(** [sorted(l, key=f, reverse=True)]: descending and stable. *)
Fixpoint insert_desc {A : Type} (f : A -> Z) (x : A) (l : list A) : list A :=
  match l with
  | [] => [x]
  | y :: l' => if f y <=? f x then x :: l else y :: insert_desc f x l'
  end.

Definition sorted_desc {A : Type} (f : A -> Z) (l : list A) : list A :=
  fold_right (insert_desc f) [] l.

(** The order of a result of [sorted_desc]: greater key first, and among
    equal keys the order [R] that the input already had. *)
Definition desc_then {A : Type} (f : A -> Z) (R : A -> A -> Prop) (a b : A)
  : Prop :=
  f b < f a \/ (f a = f b /\ R a b).

(** [sorted(l)] on strings. *)
Fixpoint insert_str (x : string) (l : list string) : list string :=
  match l with
  | [] => [x]
  | y :: l' => if String.leb x y then x :: l else y :: insert_str x l'
  end.

Definition sorted_str (l : list string) : list string :=
  fold_right insert_str [] l.

(** pandas [Series.value_counts().to_dict()]: nulls are dropped
    ([dropna=True]), every other element is hashed, and the counts come in
    descending order (equal counts in order of first appearance).  This is
    what pandas does with a column it keeps as objects, as it does when the
    values are strings, with or without nulls.  A column of numbers it
    converts before it counts (integers that stand beside a null become
    floats), which the model does not follow: the properties that speak of
    the keys or of the sum of a count are stated for values that are strings
    or null. *)
Fixpoint tally (l : list value) (seen : odict nat) : result (odict nat) :=
  match l with
  | [] => Ok seen
  | VNone :: l' => tally l' seen
  | v :: l' => rbind (hash_key v) (fun k => tally l' (od_update 0%nat S k seen))
  end.

Definition value_counts (l : list value) : result (odict nat) :=
  rbind (tally l []) (fun seen =>
  Ok (sorted_desc (fun kv => Z.of_nat (snd kv)) seen)).

(** [n / d] rounded to the nearest integer, ties to the even one ([0 < d]). *)
Definition round_half_even (n d : Z) : Z :=
  let q := n / d in
  let r := n mod d in
  if 2 * r <? d then q
  else if d <? 2 * r then q + 1
  else if Z.even q then q else q + 1.

(** *** Binary floating point

    A finite [float] is held as the rational number it stands for, in lowest
    terms.  Every operation of the code on floats is the exact operation
    followed by [binary64], the rounding of IEEE 754 to the nearest double,
    ties to the even mantissa: 53 bits, least exponent -1074.  The rounding
    is written for magnitudes below 2^1024, where it does not overflow. *)

Definition pow2 (k : Z) : Q := Qpower 2 k.

(** Half the distance from 1 to the next double: the greatest relative
    error of a rounding. *)
Definition u53 : Q := 1 # 9007199254740992.

(** The [k] with [2^k <= q < 2^(k+1)], for [0 < q]. *)
Definition floor_log2 (q : Q) : Z :=
  let k := Z.log2 (Qnum q) - Z.log2 (Zpos (Qden q)) in
  if Qle_bool (pow2 k) q then k else k - 1.

(** The nearest integer, ties to the even one. *)
Definition nearest_even (y : Q) : Z :=
  round_half_even (Qnum y) (Zpos (Qden y)).

Definition binary64_pos (q : Q) : Q :=
  let e := Z.max (floor_log2 q - 52) (-1074) in
  Qred (inject_Z (nearest_even (q / pow2 e)) * pow2 e).

Definition binary64 (q : Q) : Q :=
  match Qnum q with
  | Z0 => 0
  | Zpos _ => binary64_pos q
  | Zneg _ => - binary64_pos (- q)
  end%Q.

(** [round(x, 1)] on a float: the decimal with one digit nearest to the
    exact value of [x], ties to the even digit, and of that decimal the
    nearest double. *)
Definition round1 (x : Q) : Q := binary64 (nearest_even (10 * x) # 10).

(** [round(v / total * 100, 1)] for the integers [v] and [total]: the
    quotient of two integers is rounded once, the product with 100 once
    more.  [total] is the length of a non-empty list. *)
Definition percentage (v total : nat) : Q :=
  round1 (binary64 (binary64 (Z.of_nat v # Pos.of_nat total) * 100)).

(** [max(l, key=f)] on a non-empty [x :: l]: the first item of greatest key. *)
Definition max_by {A : Type} (f : A -> Z) (x : A) (l : list A) : A :=
  fold_left (fun best y => if f best <? f y then y else best) l x.

(** ** backend/app/insights.py: class TacticalInsights *)

Module TacticalInsights.

Local Open Scope result_scope.

Record map_pool : Type := {
  pool_maps : odict nat;
  pool_total : nat
}.

Record site_stats : Type := {
  counts : odict nat;
  percentages : odict Q;
  total : nat
}.

(** The values of [player_stats]. *)
Record counters : Type := {
  cnt_kills : nat;
  cnt_deaths : nat
}.

Record duel_stats : Type := {
  first_kills : nat;
  first_deaths : nat;
  net : Z
}.

Record comp_stats : Type := {
  compositions : odict nat;
  comp_total : nat
}.

Record comp_frequency : Type := {
  by_map : odict comp_stats;
  insufficient_data : bool
}.

(** *** analyze_maps_played *)

Definition map_name_of (map_info : value) : value :=
  match map_info with
  | VDict d => py_or (get d "name") (get d "map_name")
  | VStr _ => map_info
  | _ => VStr "unknown"
  end.

Definition collect_map (maps : list value) (map_info : value) : list value :=
  let map_name := map_name_of map_info in
  if truthy map_name then maps ++ [map_name] else maps.

Definition collect_maps (series_data : list series) : list value :=
  fold_left (fun acc s => fold_left collect_map (maps (end_state s)) acc)
    series_data [].

Definition analyze_maps_played (series_data : list series) : result map_pool :=
  let maps := collect_maps series_data in
  match maps with
  | [] => Ok {| pool_maps := []; pool_total := 0 |}
  | _ :: _ =>
      map_counts <- value_counts maps ;;
      Ok {| pool_maps := map_counts; pool_total := List.length maps |}
  end.

(** *** analyze_plant_sites *)

Definition group_plant (plants_by_map : odict (list value)) (plant : pydict)
  : result (odict (list value)) :=
  let map_name := get_default plant "map" (VStr "unknown") in
  let site := get_default plant "site" (VStr "unknown") in
  k <- hash_key map_name ;;
  Ok (od_append k site plants_by_map).

Definition group_plants (series_data : list series)
  : result (odict (list value)) :=
  foldM (fun plants_by_map s =>
           foldM group_plant (spike_plants (events s)) plants_by_map)
        series_data [].

Definition site_entry (sites : list value) : result site_stats :=
  site_counts <- value_counts sites ;;
  let total := List.length sites in
  Ok {| counts := site_counts;
        percentages := map (fun kv => (fst kv, percentage (snd kv) total))
                           site_counts;
        total := total |}.

Definition add_site_entry (res : odict site_stats) (item : key * list value)
  : result (odict site_stats) :=
  let (map_name, sites) := item in
  match sites with
  | [] => Ok res
  | _ :: _ => e <- site_entry sites ;; Ok (od_set map_name e res)
  end.

Definition analyze_plant_sites (series_data : list series)
  : result (odict site_stats) :=
  plants_by_map <- group_plants series_data ;;
  foldM add_site_entry plants_by_map [].

(** *** analyze_attack_site_preference

    The source repeats the body of [analyze_plant_sites] ("use plant data as
    proxy for attack preference"); so does the embedding. *)

Definition group_attack (plants_by_map : odict (list value)) (plant : pydict)
  : result (odict (list value)) :=
  let map_name := get_default plant "map" (VStr "unknown") in
  let site := get_default plant "site" (VStr "unknown") in
  k <- hash_key map_name ;;
  Ok (od_append k site plants_by_map).

Definition add_attack_entry (res : odict site_stats)
    (item : key * list value) : result (odict site_stats) :=
  let (map_name, sites) := item in
  match sites with
  | [] => Ok res
  | _ :: _ =>
      site_counts <- value_counts sites ;;
      let total := List.length sites in
      let site_percentages :=
        map (fun kv => (fst kv, percentage (snd kv) total)) site_counts in
      Ok (od_set map_name
            {| counts := site_counts; percentages := site_percentages;
               total := total |} res)
  end.

Definition analyze_attack_site_preference (series_data : list series)
  : result (odict site_stats) :=
  plants_by_map <-
    foldM (fun plants_by_map s =>
             foldM group_attack (spike_plants (events s)) plants_by_map)
          series_data [] ;;
  foldM add_attack_entry plants_by_map [].

(** *** analyze_opening_duels *)

Definition new_counters : counters := {| cnt_kills := 0; cnt_deaths := 0 |}.

Definition add_kill (c : counters) : counters :=
  {| cnt_kills := S (cnt_kills c); cnt_deaths := cnt_deaths c |}.

Definition add_death (c : counters) : counters :=
  {| cnt_kills := cnt_kills c; cnt_deaths := S (cnt_deaths c) |}.

(** [if name: player_stats[name][field] += 1] *)
Definition credit (bump : counters -> counters) (name : value)
    (player_stats : odict counters) : result (odict counters) :=
  if truthy name
  then k <- hash_key name ;; Ok (od_update new_counters bump k player_stats)
  else Ok player_stats.

Definition count_kill (player_stats : odict counters) (kill : pydict)
  : result (odict counters) :=
  let killer := get kill "killer" in
  let victim := get kill "victim" in
  player_stats <- credit add_kill killer player_stats ;;
  credit add_death victim player_stats.

Definition count_kills (series_data : list series) : result (odict counters) :=
  foldM (fun player_stats s => foldM count_kill (kills (events s)) player_stats)
        series_data [].

(** [player and player != "unknown"] *)
Definition listed (player : key) : bool :=
  key_truthy player && negb (key_eqb player (KStr "unknown")).

Definition duel_entry (stats : counters) : duel_stats :=
  let net := Z.of_nat (cnt_kills stats) - Z.of_nat (cnt_deaths stats) in
  {| first_kills := cnt_kills stats; first_deaths := cnt_deaths stats;
     net := net |}.

Definition add_player (res : odict duel_stats) (item : key * counters)
  : odict duel_stats :=
  let (player, stats) := item in
  if listed player then od_set player (duel_entry stats) res else res.

Definition analyze_opening_duels (series_data : list series)
  : result (odict duel_stats) :=
  player_stats <- count_kills series_data ;;
  let res := fold_left add_player player_stats [] in
  let sorted_result := sorted_desc (fun x => net (snd x)) res in
  Ok sorted_result.

(** *** analyze_comp_frequency *)

(** [x for x in agents] as strings; [sorted] or [str.join] raise [TypeError]
    on anything else. *)
Fixpoint as_strings (agents : list value) : result (list string) :=
  match agents with
  | [] => Ok []
  | VStr s :: agents' => l <- as_strings agents' ;; Ok (s :: l)
  | _ :: _ => Raise TypeError
  end.

(** ["+".join(sorted(agents))] *)
Definition comp_signature (agents : list value) : result string :=
  names <- as_strings agents ;;
  Ok (join "+" (sorted_str names)).

(** [map_info.get("name") if isinstance(map_info, dict) else map_info] *)
Definition comp_map_name (map_info : value) : value :=
  match map_info with
  | VDict d => get d "name"
  | _ => map_info
  end.

Definition add_team_comp (map_name : value)
    (comps_by_map : odict (list string)) (item : key * list value)
  : result (odict (list string)) :=
  let (team, agents) := item in
  match agents with
  | [] => Ok comps_by_map
  | _ :: _ =>
      comp_sig <- comp_signature agents ;;
      k <- hash_key map_name ;;
      Ok (od_append k comp_sig comps_by_map)
  end.

Definition add_series_comps (comps_by_map : odict (list string)) (s : series)
  : result (odict (list string)) :=
  let series_maps := maps (end_state s) in
  let comps := comps (end_state s) in
  match series_maps, comps with
  | _ :: _, _ :: _ =>
      foldM (fun comps_by_map map_info =>
               foldM (add_team_comp (comp_map_name map_info)) comps
                     comps_by_map)
            series_maps comps_by_map
  | _, _ => Ok comps_by_map
  end.

Definition add_comp_entry (acc : odict comp_stats * bool)
    (item : key * list string) : result (odict comp_stats * bool) :=
  let (res, insufficient_data) := acc in
  let (map_name, comp_list) := item in
  match comp_list with
  | [] => Ok (res, insufficient_data)
  | _ :: _ =>
      comp_counts <- value_counts (map VStr comp_list) ;;
      Ok (od_set map_name
            {| compositions := comp_counts;
               comp_total := List.length comp_list |} res,
          false)
  end.

Definition analyze_comp_frequency (series_data : list series)
  : result comp_frequency :=
  comps_by_map <- foldM add_series_comps series_data [] ;;
  acc <- foldM add_comp_entry comps_by_map ([], true) ;;
  Ok {| by_map := fst acc; insufficient_data := snd acc |}.

End TacticalInsights.

(** ** app/report.py: class ReportGenerator *)

Module ReportGenerator.

Import TacticalInsights.

Definition by_count {K : Type} (x : K * nat) : Z := Z.of_nat (snd x).

Definition _section_summary (maps_played : map_pool)
    (attack_site_preference : odict site_stats)
    (opening_duels : odict duel_stats) : list string :=
  let lines := ["## TL;DR - Key Takeaways"; ""] in
  (* Most played map *)
  let lines :=
    match pool_maps maps_played with
    | [] => lines
    | x :: l =>
        let most_played_map := max_by by_count x l in
        lines ++ [("- **Most played map:** " ++ str_key (fst most_played_map)
                   ++ " (" ++ str_int (Z.of_nat (snd most_played_map))
                   ++ " times)")%string]
    end in
  (* Most common site *)
  let lines :=
    fold_left
      (fun lines item =>
         let '(map_name, data) := item in
         match counts data with
         | [] => lines
         | x :: l =>
             let most_common_site := max_by by_count x l in
             lines ++ [("- **Primary site (" ++ str_key map_name ++ "):** "
                        ++ str_key (fst most_common_site))%string]
         end)
      (firstn 1 attack_site_preference) lines in
  (* Top duel player *)
  let lines :=
    match opening_duels with
    | [] => lines
    | top_player :: _ =>
        lines ++ [("- **Strongest duel player:** " ++ str_key (fst top_player)
                   ++ " (Net: " ++ str_int_signed (net (snd top_player))
                   ++ ")")%string]
    end in
  lines ++ [""].

(** *** The other sections *)

(** [sorted(l, key=count, reverse=True)] on the items of a count dict. *)
Definition by_count_desc {K : Type} (l : list (K * nat)) : list (K * nat) :=
  sorted_desc by_count l.

Definition is_kstr (k : key) : bool :=
  match k with
  | KStr _ => true
  | _ => false
  end.

Definition is_knum (k : key) : bool :=
  match k with
  | KBool _ | KInt _ => true
  | _ => false
  end.

Definition kstr (k : key) : string :=
  match k with
  | KStr s => s
  | _ => ""
  end.

Definition knum (k : key) : Z :=
  match k with
  | KBool b => if b then 1 else 0
  | KInt z => z
  | _ => 0
  end.

(** Ascending stable insertion for a boolean order on the keys. *)
Fixpoint insert_item {V : Type} (le : key -> key -> bool) (x : key * V)
    (l : odict V) : odict V :=
  match l with
  | [] => [x]
  | y :: l' => if le (fst x) (fst y) then x :: l else y :: insert_item le x l'
  end.

Definition sort_items {V : Type} (le : key -> key -> bool) (d : odict V)
  : odict V :=
  fold_right (insert_item le) [] d.

(** [sorted(d.items())].  The items are pairs and the keys of a dict differ,
    so the keys decide.  Strings compare with strings and numbers ([bool]
    included) with numbers; every other comparison ([None], or a string with
    a number) raises [TypeError], and a sort of two or more items cannot
    avoid it unless the keys are all strings or all numbers. *)
Definition sorted_items {V : Type} (d : odict V) : result (odict V) :=
  match d with
  | [] | [_] => Ok d
  | _ :: _ :: _ =>
      if forallb is_kstr (keys d)
      then Ok (sort_items (fun a b => String.leb (kstr a) (kstr b)) d)
      else if forallb is_knum (keys d)
      then Ok (sort_items (fun a b => knum a <=? knum b) d)
      else Raise TypeError
  end.

Definition _section_map_pool (maps_played : map_pool) : list string :=
  let lines := ["## Map Pool"; ""] in
  let maps := pool_maps maps_played in
  match maps with
  | [] => lines ++ ["*No map data available*"]
  | _ :: _ =>
      let lines := lines ++ ["| Map | Appearances |"] in
      let lines := lines ++ ["|-----|-------------|"] in
      let lines :=
        fold_left
          (fun lines item =>
             lines ++ [("| " ++ str_key (fst item) ++ " | "
                        ++ str_int (Z.of_nat (snd item)) ++ " |")%string])
          (by_count_desc maps) lines in
      lines ++ [""]
  end.

Definition plant_rows (lines : list string) (counts : odict nat)
  : list string :=
  fold_left
    (fun lines item =>
       lines ++ [("| " ++ str_key (fst item) ++ " | "
                  ++ str_int (Z.of_nat (snd item)) ++ " |")%string])
    (by_count_desc counts) lines.

Definition _section_plant_sites (plant_sites : odict site_stats)
  : result (list string) :=
  let lines := ["## Spike Plant Sites"; ""] in
  match plant_sites with
  | [] => Ok (lines ++ ["*No spike plant data available*"] ++ [""])
  | _ :: _ =>
      (items <- sorted_items plant_sites ;;
       Ok (fold_left
             (fun lines item =>
                let '(map_name, data) := item in
                let lines := lines ++ [("### " ++ str_key map_name)%string] in
                let lines := lines ++ [""] in
                let lines := lines ++ ["| Site | Plants |"] in
                let lines := lines ++ ["|------|--------|"] in
                let lines := plant_rows lines (counts data) in
                lines ++ [""])
             items lines))%result
  end.

Definition _section_opening_duels (opening_duels : odict duel_stats)
  : list string :=
  let lines := ["## Opening Duel Leaders"; ""] in
  match opening_duels with
  | [] => lines ++ ["*No opening duel data available*"] ++ [""]
  | _ :: _ =>
      let lines := lines ++ ["| Player | Kills | Deaths | Net |"] in
      let lines := lines ++ ["|--------|-------|--------|-----|"] in
      let lines :=
        fold_left
          (fun lines item =>
             let '(player, stats) := item in
             let kills := first_kills stats in
             let deaths := first_deaths stats in
             let net := net stats in
             lines ++ [("| " ++ str_key player ++ " | "
                        ++ str_int (Z.of_nat kills) ++ " | "
                        ++ str_int (Z.of_nat deaths) ++ " | "
                        ++ str_int_signed net ++ " |")%string])
          (firstn 10 opening_duels) lines in
      lines ++ [""]
  end.

Definition comp_rows (lines : list string) (compositions : odict nat)
  : list string :=
  fold_left
    (fun lines item =>
       lines ++ [("- **" ++ str_key (fst item) ++ "** ("
                  ++ str_int (Z.of_nat (snd item)) ++ "x)")%string])
    (firstn 5 (by_count_desc compositions)) lines.

Definition _section_comps (comp_frequency : comp_frequency)
  : result (list string) :=
  let lines := ["## Agent Compositions"; ""] in
  let insufficient := insufficient_data comp_frequency in
  if insufficient
  then Ok (lines ++ ["*Insufficient agent composition data in available files*"]
                 ++ [""])
  else
    let comps_by_map := by_map comp_frequency in
    match comps_by_map with
    | [] => Ok (lines ++ ["*No composition data available*"] ++ [""])
    | _ :: _ =>
        (items <- sorted_items comps_by_map ;;
         Ok (fold_left
               (fun lines item =>
                  let '(map_name, data) := item in
                  let lines := lines ++ [("### " ++ str_key map_name)%string] in
                  let lines := lines ++ [""] in
                  let lines := comp_rows lines (compositions data) in
                  lines ++ [""])
               items lines))%result
    end.

End ReportGenerator.

(** ** backend/app/parsers.py: class EndStateParser *)

Module EndStateParser.

Local Open Scope result_scope.

(** The file [end_state.json] of a series as [parse_end_state] meets it:
    absent, not valid JSON, or a decoded document. *)
Inductive end_state_file : Type :=
| Absent
| Undecodable
| Decoded (data : value).

(** The returned dict.  ["raw_data"] is present only when the document was
    read without an exception.  The empty ["comps"] of the failure shape is
    a list where that of a parsed document is a dict; both are the empty
    [odict] here, as nothing reads them but truth tests and [.items()]. *)
Record end_state : Type := {
  es_maps : value;
  es_comps : odict (list value);
  es_players : list pydict;
  es_raw_data : option value
}.

(** [{"maps": [], "comps": [], "players": []}] *)
Definition empty_end_state : end_state :=
  {| es_maps := VList []; es_comps := []; es_players := [];
     es_raw_data := None |}.

(** ["k" in data] *)
Definition contains_key (k : string) (data : value) : result bool :=
  match data with
  | VDict d => Ok (has_key d k)
  | VList l => Ok (existsb (fun v => eq_str v k) l)
  | VStr s => Ok (contains k s)
  | VNone | VBool _ | VInt _ => Raise TypeError
  end.

(** [data.get(k, default)] on a value that need not be a dict. *)
Definition get_of (data : value) (k : string) (default : value)
  : result value :=
  match data with
  | VDict d => Ok (get_default d k default)
  | _ => Raise AttributeError
  end.

Fixpoint chars (s : string) : list value :=
  match s with
  | EmptyString => []
  | String c s' => VStr (String c EmptyString) :: chars s'
  end.

(** [for x in v]: the elements of a list, the characters of a string, the
    keys of a dict. *)
Definition iterate (v : value) : result (list value) :=
  match v with
  | VList l => Ok l
  | VStr s => Ok (chars s)
  | VDict d => Ok (map (fun kv => VStr (fst kv)) d)
  | VNone | VBool _ | VInt _ => Raise TypeError
  end.

Definition player_info (p : pydict) : pydict :=
  [ ("name", get_default p "name" (VStr "unknown"));
    ("agent", py_or (get p "agent")
                    (get_default p "selected_agent" (VStr "unknown")));
    ("team", get_default p "team" (VStr "unknown")) ].

(** The body of [for player in data.get("players", [])]. *)
Definition add_player (acc : list pydict * odict (list value))
    (player : value) : result (list pydict * odict (list value)) :=
  let (players, comps) := acc in
  match player with
  | VDict p =>
      let players := players ++ [player_info p] in
      let team := get_default p "team" (VStr "unknown") in
      let agent := py_or (get p "agent") (get p "selected_agent") in
      if truthy agent
      then k <- hash_key team ;; Ok (players, od_append k agent comps)
      else Ok (players, comps)
  | _ => Raise AttributeError
  end.

(** The [try] block after [json.load]. *)
Definition read_document (data : value) : result end_state :=
  has_maps <- contains_key "maps" data ;;
  maps <- (if has_maps then get_of data "maps" (VList [])
           else Ok (VList [])) ;;
  has_players <- contains_key "players" data ;;
  acc <- (if has_players
          then all <- get_of data "players" (VList []) ;;
               items <- iterate all ;;
               foldM add_player items ([], [])
          else Ok ([], [])) ;;
  Ok {| es_maps := maps; es_comps := snd acc; es_players := fst acc;
        es_raw_data := Some data |}.

Definition parse_end_state (file : end_state_file) : end_state :=
  match file with
  | Absent => empty_end_state
  | Undecodable => empty_end_state
  | Decoded data =>
      match read_document data with
      | Ok r => r
      | Raise _ => empty_end_state
      end
  end.

(** The part of the result the aggregation reads, when ["maps"] is a list. *)
Definition as_doc (r : end_state) : option end_state_doc :=
  match es_maps r with
  | VList l => Some {| maps := l; comps := es_comps r |}
  | _ => None
  end.

End EndStateParser.

(** ** The request handler of [main.py], up to the aggregation *)

Module Main.

Import EventParser.

(** [c.isspace()] on the UTF-8 bytes of a character.  One byte: tab to
    carriage return, the four separators U+001C to U+001F and the space. *)
Definition space1 (c1 : ascii) : bool :=
  let n := nat_of_ascii c1 in
  ((9 <=? n) && (n <=? 13) || (28 <=? n) && (n <=? 32))%nat.

(** Two bytes: U+0085 (194 133) and U+00A0 (194 160). *)
Definition space2 (c1 c2 : ascii) : bool :=
  is_byte 194 c1 && (is_byte 133 c2 || is_byte 160 c2).

(** Three bytes: U+1680 (225 154 128); U+2000 to U+200A, U+2028, U+2029
    and U+202F (226 128 and 128 to 138, 168, 169, 175); U+205F
    (226 129 159); U+3000 (227 128 128). *)
Definition space3 (c1 c2 c3 : ascii) : bool :=
  let n := nat_of_ascii c3 in
  is_byte 225 c1 && is_byte 154 c2 && is_byte 128 c3
  || is_byte 226 c1 && is_byte 128 c2
     && ((128 <=? n) && (n <=? 138) || (n =? 168) || (n =? 169)
         || (n =? 175))%nat
  || is_byte 226 c1 && is_byte 129 c2 && is_byte 159 c3
  || is_byte 227 c1 && is_byte 128 c2 && is_byte 128 c3.

(** The number of bytes of the white space character a string starts with,
    0 when it starts with none. *)
Definition leading_space (l : list ascii) : nat :=
  match l with
  | [] => 0
  | c1 :: l1 =>
      if space1 c1 then 1
      else match l1 with
           | [] => 0
           | c2 :: l2 =>
               if space2 c1 c2 then 2
               else match l2 with
                    | [] => 0
                    | c3 :: _ => if space3 c1 c2 c3 then 3 else 0
                    end
           end
  end%nat.

(** The same for the character a string ends with, read on the reversed
    string. *)
Definition trailing_space (r : list ascii) : nat :=
  match r with
  | [] => 0
  | c1 :: r1 =>
      if space1 c1 then 1
      else match r1 with
           | [] => 0
           | c2 :: r2 =>
               if space2 c2 c1 then 2
               else match r2 with
                    | [] => 0
                    | c3 :: _ => if space3 c3 c2 c1 then 3 else 0
                    end
           end
  end%nat.

(** Drop white space characters from the front for as long as there is
    one; [fuel] bounds the number of characters. *)
Fixpoint drop_spaces (space : list ascii -> nat) (fuel : nat)
    (l : list ascii) : list ascii :=
  match fuel with
  | O => l
  | S fuel' =>
      match space l with
      | O => l
      | S _ as n => drop_spaces space fuel' (skipn n l)
      end
  end.

Definition lstrip (l : list ascii) : list ascii :=
  drop_spaces leading_space (List.length l) l.

Definition rstrip (l : list ascii) : list ascii :=
  rev (drop_spaces trailing_space (List.length l) (rev l)).

(** [s.strip()] *)
Definition strip (s : string) : string :=
  string_of_list_ascii (rstrip (lstrip (list_ascii_of_string s))).

(** [s.split(sep)] for a separator of one character: one more piece than
    there are separators, empty pieces kept. *)
Fixpoint split (sep : ascii) (s : string) : list string :=
  match s with
  | EmptyString => [EmptyString]
  | String c s' =>
      if Ascii.eqb c sep then EmptyString :: split sep s'
      else match split sep s' with
           | [] => [String c EmptyString]
           | piece :: pieces => String c piece :: pieces
           end
  end.

(** The truth value of an optional string parameter: [None] and [""] are
    false. *)
Definition given (parameter : option string) : bool :=
  match parameter with
  | Some (String _ _) => true
  | Some EmptyString | None => false
  end.

(** One element of [series_data] as the handler builds it. *)
Record series_entry : Type := {
  entry_id : string;
  entry_events : event_facts;
  entry_end_state : EndStateParser.end_state
}.

Section Handler.

(** The world outside the process (the GRID service and the cache
    directory) and the exceptions it can raise. *)
Variable world : Type.
Variable error : Type.

(** A step that acts on the world and returns or raises. *)
Definition io (A : Type) : Type := world -> (error + A) * world.

Definition io_ret {A : Type} (a : A) : io A := fun w => (inr a, w).

Definition io_bind {A B : Type} (m : io A) (k : A -> io B) : io B :=
  fun w =>
    match m w with
    | (inl e, w) => (inl e, w)
    | (inr a, w) => k a w
    end.

(** Every call inside the [try] of the handler that is not itself guarded:
    the three calls of the client; in [parse_events], [get_cache_path] with
    the [glob], which gives the files as they will be read (a line at which
    reading or decoding raises is [Malformed]), and the writing of
    [schema_preview.json]; in [parse_end_state], [get_cache_path] with
    [exists], which gives the file as [json.load] will meet it. *)
Record service : Type := {
  list_files : string -> io unit;
  download_events_zip : string -> io unit;
  download_end_state : string -> io unit;
  glob_jsonl : string -> io (list jsonl_file);
  write_schema_preview : string -> pydict -> io unit;
  find_end_state : string -> io EndStateParser.end_state_file
}.

Variable grid : service.

(** [EventParser.parse_events(series_id)] with its file accesses. *)
Definition parse_events_of (series_id : string) : io event_facts :=
  io_bind (glob_jsonl grid series_id) (fun jsonl_files =>
  match jsonl_files with
  | [] => io_ret no_events
  | _ :: _ =>
      let facts := parse_events jsonl_files in
      io_bind (write_schema_preview grid series_id (schema_preview facts))
              (fun _ => io_ret facts)
  end).

(** [EndStateParser.parse_end_state(series_id)] with its file accesses. *)
Definition parse_end_state_of (series_id : string)
  : io EndStateParser.end_state :=
  io_bind (find_end_state grid series_id) (fun file =>
  io_ret (EndStateParser.parse_end_state file)).

(** The body of the [try] for one series. *)
Definition process_series (series_id : string) : io series_entry :=
  io_bind (list_files grid series_id) (fun _ =>
  io_bind (download_events_zip grid series_id) (fun _ =>
  io_bind (download_end_state grid series_id) (fun _ =>
  io_bind (parse_events_of series_id) (fun events =>
  io_bind (parse_end_state_of series_id) (fun end_state =>
  io_ret {| entry_id := series_id; entry_events := events;
            entry_end_state := end_state |}))))).

(** Where the handler stands when it leaves the part modelled here: one of
    its four [HTTPException]s, or [series_data] complete, from which it goes
    on to the five views and the report. *)
Inductive outcome : Type :=
| NotImplemented
| SeriesIdsRequired
| ProcessingError (series_id : string) (e : error)
| NoSeriesData
| Gathered (parsed_series_ids : list string) (series_data : list series_entry).

(** [for series_id in parsed_series_ids: try: ... except Exception] *)
Fixpoint process_all (parsed_series_ids : list string)
    (series_data : list series_entry) (w : world)
  : (string * error + list series_entry) * world :=
  match parsed_series_ids with
  | [] => (inr series_data, w)
  | series_id :: rest =>
      match process_series series_id w with
      | (inl e, w) => (inl (series_id, e), w)
      | (inr entry, w) => process_all rest (series_data ++ [entry]) w
      end
  end.

Definition scout_valorant (series_ids team_id : option string) (last_n : Z)
    (w : world) : outcome * world :=
  if given team_id && negb (given series_ids) then (NotImplemented, w)
  else if negb (given series_ids) then (SeriesIdsRequired, w)
  else
    let parsed_series_ids :=
      map strip (split "," (match series_ids with
                            | Some s => s
                            | None => EmptyString
                            end)) in
    match process_all parsed_series_ids [] w with
    | (inl (series_id, e), w) => (ProcessingError series_id e, w)
    | (inr [], w) => (NoSeriesData, w)
    | (inr series_data, w) => (Gathered parsed_series_ids series_data, w)
    end.

End Handler.

Arguments io_ret {world error A}.
Arguments io_bind {world error A B}.
Arguments list_files {world error}.
Arguments download_events_zip {world error}.
Arguments download_end_state {world error}.
Arguments glob_jsonl {world error}.
Arguments write_schema_preview {world error}.
Arguments find_end_state {world error}.
Arguments parse_events_of {world error}.
Arguments parse_end_state_of {world error}.
Arguments process_series {world error}.
Arguments NotImplemented {error}.
Arguments SeriesIdsRequired {error}.
Arguments ProcessingError {error}.
Arguments NoSeriesData {error}.
Arguments Gathered {error}.
Arguments process_all {world error}.
Arguments scout_valorant {world error}.

End Main.


(** ** The aggregation engine as [main.py] calls it *)

Module Engine.

Import TacticalInsights.





End Engine.

(** ** Notions of the specification

    Definitions that follow the words of the specification, to be compared
    with what the code computes. *)

Module Spec.

(** "ordered list of candidate field names, first non-null wins, else a
    declared default" *)
Fixpoint first_non_null (d : pydict) (alternatives : list string)
    (default : value) : value :=
  match alternatives with
  | [] => default
  | k :: alternatives' =>
      match lookup k d with
      | Some VNone | None => first_non_null d alternatives' default
      | Some v => v
      end
  end.

(** The same with "truthy" in the place of "non-null": the first candidate
    that is neither null nor empty, zero or false. *)
Fixpoint first_truthy (d : pydict) (alternatives : list string)
    (default : value) : value :=
  match alternatives with
  | [] => default
  | k :: alternatives' =>
      if truthy (get d k) then get d k
      else first_truthy d alternatives' default
  end.

(** The stream with its malformed lines taken out. *)
Definition without_malformed (lines : list EventParser.line)
  : list EventParser.line :=
  filter (fun l => match l with EventParser.Malformed => false | _ => true end)
         lines.

(** Every map descriptor of every match's end-state, duplicates included. *)
Definition descriptors (series_data : list series) : list value :=
  flat_map (fun s => maps (end_state s)) series_data.

Definition sum_counts {K : Type} (counts : list (K * nat)) : nat :=
  fold_right (fun kv n => (snd kv + n)%nat) 0%nat counts.

Definition is_null (v : value) : bool :=
  match v with
  | VNone => true
  | _ => false
  end.

(** The elements that are not null. *)
Definition non_null (l : list value) : list value :=
  filter (fun v => negb (is_null v)) l.

(** A team "has agents" when its agent list is not empty. *)
Definition has_agents (team : key * list value) : bool :=
  match snd team with
  | [] => false
  | _ :: _ => true
  end.

(** A match contributes to the composition view when it has both a non-empty
    map list and a non-empty per-team agent list. *)
Definition contributes (s : series) : bool :=
  match maps (end_state s) with
  | [] => false
  | _ :: _ => existsb has_agents (comps (end_state s))
  end.

Definition sum_pct {K : Type} (percentages : list (K * Q)) : Q :=
  fold_right (fun kv q => (snd kv + q)%Q) 0%Q percentages.

(** Every spike-plant fact of the input, in order. *)
Definition plants (series_data : list series) : list pydict :=
  flat_map (fun s => spike_plants (events s)) series_data.

Definition site_of (plant : pydict) : value :=
  get_default plant "site" (VStr "unknown").

(** The plant is on map [m]. *)
Definition on_map (m : key) (plant : pydict) : bool :=
  match hash_key (get_default plant "map" (VStr "unknown")) with
  | Ok k => key_eqb k m
  | Raise _ => false
  end.

(** The sites of the plants of map [m], one per plant. *)
Definition sites_on (m : key) (plants : list pydict) : list value :=
  map site_of (filter (on_map m) plants).

(** The names a kill fact credits, in the order the loop reads them: the
    killer, then the victim; a null or empty name is not credited. *)
Definition credited (kill : pydict) : list value :=
  filter truthy [get kill "killer"; get kill "victim"].

(** Every credited name of the input, in order of encounter. *)
Definition mentions (series_data : list series) : list value :=
  flat_map credited (flat_map (fun s => kills (events s)) series_data).

(** The name [v] names the player [p]. *)
Definition names_player (p : key) (v : value) : bool :=
  match hash_key v with
  | Ok k => key_eqb k p
  | Raise _ => false
  end.

(** The position at which player [p] is first encountered (the length of
    the list when [p] is never named). *)
Fixpoint first_mention (p : key) (names : list value) : nat :=
  match names with
  | [] => 0
  | v :: names' =>
      if names_player p v then 0 else S (first_mention p names')
  end.

(** The order of a duel table: greater net first, and among equal nets the
    player encountered first. *)
Definition duel_order (names : list value)
    (a b : key * TacticalInsights.duel_stats) : Prop :=
  TacticalInsights.net (snd b) < TacticalInsights.net (snd a) \/
  (TacticalInsights.net (snd a) = TacticalInsights.net (snd b) /\
   (first_mention (fst a) names < first_mention (fst b) names)%nat).

(** The keys of [d] are the players named in [names], each once, in the
    order of their first mention. *)
Definition in_mention_order {V : Type} (names : list value) (d : odict V)
  : Prop :=
  StronglySorted
    (fun a b => (first_mention a names < first_mention b names)%nat) (keys d)
  /\ Forall (fun k => (first_mention k names < List.length names)%nat) (keys d)
  /\ forall k, (first_mention k names < List.length names)%nat ->
               has k d = true.

(** The takeaway line naming the primary site of a map. *)
Definition primary_site_line (map_name site : key) : string :=
  ("- **Primary site (" ++ str_key map_name ++ "):** " ++ str_key site)%string.

(** *** Notions for the event stream *)

(** The decoded records of a stream, in reading order. *)
Definition records_of (lines : list EventParser.line) : list value :=
  flat_map (fun l => match l with EventParser.Json e => [e] | _ => [] end)
           lines.

Definition records (files : list EventParser.jsonl_file) : list value :=
  flat_map (fun f => records_of (snd f)) files.

Definition is_dict (v : value) : bool :=
  match v with
  | VDict _ => true
  | _ => false
  end.

(** A record that passes through the loop body without an exception: a JSON
    object whose "event_type", if present, is a string and whose "round_id",
    if present, can be hashed. *)
Definition regular (event : value) : bool :=
  match event with
  | VDict d =>
      match get_default d "event_type" (VStr "") with
      | VStr _ => hashable (get_default d "round_id" (VStr "unknown"))
      | _ => false
      end
  | _ => false
  end.

(** A stream without malformed lines whose records are all regular. *)
Definition clean (files : list EventParser.jsonl_file) : bool :=
  forallb
    (fun f =>
       forallb (fun l => match l with
                         | EventParser.Blank => true
                         | EventParser.Malformed => false
                         | EventParser.Json e => regular e
                         end) (snd f))
    files.

Definition classified (classify : value -> result bool) (event : value)
  : bool :=
  match classify event with
  | Ok b => b
  | Raise _ => false
  end.

(** The facts of the records a classifier accepts, in order. *)
Definition facts_of (classify : value -> result bool)
    (extract : value -> option pydict) (events : list value) : list pydict :=
  flat_map (fun e => if classified classify e
                     then match extract e with Some f => [f] | None => [] end
                     else [])
           events.

(** The record belongs to the round with key [k]. *)
Definition in_round (k : key) (event : value) : bool :=
  match rbind (EventParser.round_of event) hash_key with
  | Ok k' => key_eqb k' k
  | Raise _ => false
  end.

(** What holds of every plant and kill fact. *)
Definition plant_fact_ok (plant : pydict) : Prop :=
  truthy (get plant "map") = true /\
  EventParser._is_spike_plant (get plant "raw_event") = Ok true.

Definition kill_fact_ok (kill : pydict) : Prop :=
  EventParser._is_kill (get kill "raw_event") = Ok true.

Definition not_blank (l : EventParser.line) : bool :=
  match l with
  | EventParser.Blank => false
  | _ => true
  end.

(** Grouping records by round, as the last statement of the loop does. *)
Definition group_rounds (events : list value) (acc : odict (list value))
  : odict (list value) :=
  fold_left (fun acc e =>
               match rbind (EventParser.round_of e) hash_key with
               | Ok k => od_append k e acc
               | Raise _ => acc
               end)
            events acc.

(** *** Notions for the aggregates *)

(** How often the player, map or site [k] is named in [names]. *)
Definition occurrences (k : key) (names : list value) : nat :=
  List.length (filter (names_player k) names).

(** The count a [value_counts] dict holds for [k]: none for a value that
    does not occur. *)
Definition count_in (k : key) (d : odict nat) : nat :=
  match od_find k d with
  | Some n => n
  | None => 0%nat
  end.

Definition as_count (n : nat) : option nat :=
  match n with
  | O => None
  | S _ => Some n
  end.


(** Every kill fact of the input, in order. *)
Definition all_kills (series_data : list series) : list pydict :=
  flat_map (fun s => kills (events s)) series_data.

(** The number of kill facts that credit player [p] in [field] ("killer" or
    "victim"). *)
Definition credits (field : string) (p : key) (kill_facts : list pydict)
  : nat :=
  List.length
    (filter (fun kill => truthy (get kill field)
                         && names_player p (get kill field))
            kill_facts).

(** The map names of the plants, one per plant. *)
Definition plant_maps (plants : list pydict) : list value :=
  map (fun plant => get_default plant "map" (VStr "unknown")) plants.

Definition sum_totals (view : odict TacticalInsights.site_stats) : nat :=
  fold_right (fun e n => (TacticalInsights.total (snd e) + n)%nat) 0%nat view.

(** The number of elements held by a [defaultdict(list)]. *)
Definition total_length {A : Type} (d : odict (list A)) : nat :=
  fold_right (fun e n => (List.length (snd e) + n)%nat) 0%nat d.

(** The counters [player_stats] holds for [k]: those of the factory when
    the player was never credited. *)
Definition counters_of (k : key) (ps : odict TacticalInsights.counters)
  : TacticalInsights.counters :=
  match od_find k ps with
  | Some c => c
  | None => TacticalInsights.new_counters
  end.

(** The kill fact credits player [p] in [field]. *)
Definition credits_one (field : string) (p : key) (kill : pydict) : bool :=
  truthy (get kill field) && names_player p (get kill field).

Definition is_str (v : value) : bool :=
  match v with
  | VStr _ => true
  | _ => false
  end.

(** The strings among [l]. *)
Definition strings_of (l : list value) : list string :=
  flat_map (fun v => match v with VStr s => [s] | _ => [] end) l.

(** *** Notions for the end-state document *)

(** The player records the parser iterates over. *)
Definition player_records (data : value) : list value :=
  match
    rbind (EndStateParser.contains_key "players" data) (fun has_players =>
      if has_players
      then rbind (EndStateParser.get_of data "players" (VList []))
                 EndStateParser.iterate
      else Ok [])
  with
  | Ok records => records
  | Raise _ => []
  end.

(** The agent the parser credits to a player's team. *)
Definition agent_of (player : value) : value :=
  match player with
  | VDict p => py_or (get p "agent") (get p "selected_agent")
  | _ => VNone
  end.

(** The player has an agent and plays for team [k]. *)
Definition on_team (k : key) (player : value) : bool :=
  match player with
  | VDict p =>
      truthy (agent_of player)
      && match hash_key (get_default p "team" (VStr "unknown")) with
         | Ok k' => key_eqb k' k
         | Raise _ => false
         end
  | _ => false
  end.

Definition infos_of (records : list value) : list pydict :=
  flat_map (fun v => match v with
                     | VDict p => [EndStateParser.player_info p]
                     | _ => []
                     end) records.

Definition as_group {A : Type} (l : list A) : option (list A) :=
  match l with
  | [] => None
  | _ :: _ => Some l
  end.


(** The number of commas of a parameter. *)
Fixpoint commas (s : string) : nat :=
  match s with
  | EmptyString => 0%nat
  | String c s' => ((if Ascii.eqb c "," then 1 else 0) + commas s')%nat
  end.

(** An entry holds what the two parsers make of the files found for its
    id. *)
Definition entry_of {world error : Type} (grid : Main.service world error)
    (entry : Main.series_entry) : Prop :=
  exists w1 w2 jsonl_files file,
    fst (Main.glob_jsonl grid (Main.entry_id entry) w1) = inr jsonl_files /\
    fst (Main.find_end_state grid (Main.entry_id entry) w2) = inr file /\
    Main.entry_events entry = EventParser.parse_events jsonl_files /\
    Main.entry_end_state entry = EndStateParser.parse_end_state file.


(** A value that pandas counts as the object it is: a string, or null,
    which it leaves out. *)
Definition is_label (v : value) : bool :=
  match v with
  | VStr _ | VNone => true
  | _ => false
  end.


(** "each dict-shaped descriptor resolves via a name field, a string
    descriptor resolves to itself, and any other descriptor resolves to the
    literal "unknown""; the name field of a dict is its "name" if that is
    truthy, else its "map_name". *)
Definition resolved_name (descriptor : value) : value :=
  match descriptor with
  | VDict d => if truthy (get d "name") then get d "name" else get d "map_name"
  | VStr _ => descriptor
  | VNone | VBool _ | VInt _ | VList _ => VStr "unknown"
  end.

(** The descriptors the map pool counts: those whose name is truthy. *)
Definition counted_descriptors (series_data : list series) : list value :=
  filter (fun descriptor => truthy (resolved_name descriptor))
         (descriptors series_data).

End Spec.

(** ** Concrete inputs *)

Module Examples.

Import EventParser.

(** A spike plant whose site is null. *)
Definition null_site_fields : pydict :=
  [("type", VStr "plant_spike"); ("map", VStr "Bind"); ("site", VNone)].

Definition plant_null_site : value := VDict null_site_fields.

(** A kill that is also tagged as a plant. *)
Definition kill_and_plant : value :=
  VDict [("event_type", VStr "Kill-After-PLANT"); ("killer", VStr "X");
         ("victim_name", VStr "Y"); ("round_id", VInt 3)].

(** One file: a line that is not JSON, then a spike plant. *)
Definition malformed_then_plant : list jsonl_file :=
  [("events.jsonl", [Malformed; Json plant_null_site])].

(** The same file as the claim expects it to be read. *)
Definition malformed_skipped : list jsonl_file :=
  [("events.jsonl", Spec.without_malformed [Malformed; Json plant_null_site])].

Definition bundle (plants kills : list pydict) (maps : list value)
    (comps : odict (list value)) : series :=
  {| series_id := "series-1";
     events := {| spike_plants := plants; kills := kills;
                  events_by_round := []; schema_preview := [] |};
     end_state := {| maps := maps; comps := comps |} |}.


(** One match whose end-state lists a map descriptor without a name. *)
Definition nameless_map : list series := [bundle [] [] [VDict []] []].

(** Scenario D next to a match that has maps and one team with agents. *)
Definition no_players_then_comp : list series :=
  [ bundle [] [] [VStr "Ascent"] [];
    bundle [] [] [VStr "Ascent"; VDict [("name", VStr "Bind")]]
      [(KStr "team-1", [VStr "Jett"; VStr "Astra"; VStr "Sova"]);
       (KStr "team-2", [])] ].

(** One file with two spike plants on "Bind": site "A", then a null site. *)
Definition two_plants_one_null : list EventParser.jsonl_file :=
  [("events.jsonl",
    [Json (VDict [("type", VStr "plant_spike"); ("map", VStr "Bind");
                  ("site", VStr "A")]);
     Json plant_null_site])].

Definition half_null : list series :=
  [{| series_id := "series-1";
      events := parse_events two_plants_one_null;
      end_state := {| maps := []; comps := [] |} |}].

Definition plant_on (map_name site : string) : pydict :=
  [("map", VStr map_name); ("site", VStr site)].

(** Scenario B: three plants on "Bind", sites A, A, B. *)
Definition bind_aab : list series :=
  [bundle [plant_on "Bind" "A"; plant_on "Bind" "A"; plant_on "Bind" "B"]
          [] [] []].

Definition kill_of (killer victim : string) : pydict :=
  [("killer", VStr killer); ("victim", VStr victim)].

(** Scenario C: X kills Y, then Y kills X. *)
Definition trade : list series :=
  [bundle [] [kill_of "X" "Y"; kill_of "Y" "X"] [] []].

(** A plant on "Bind" (site B) followed by a plant on "Ascent" (site A). *)
Definition bind_then_ascent : list series :=
  [bundle [plant_on "Bind" "B"; plant_on "Ascent" "A"] [] [] []].

Definition no_maps : TacticalInsights.map_pool :=
  {| TacticalInsights.pool_maps := []; TacticalInsights.pool_total := 0 |}.

(** Two files of regular records with blank lines in between. *)
Definition clean_stream : list jsonl_file :=
  [("a.jsonl", [Json kill_and_plant; Blank; Json plant_null_site]);
   ("b.jsonl", [Blank; Json (VDict [("type", VStr "kill"); ("round_id", VInt 3)])])].

(** A file whose second line is a JSON array. *)
Definition array_line : list jsonl_file :=
  [("a.jsonl", [Json plant_null_site; Json (VList [VInt 1]); Json kill_and_plant])].

(** X kills Y twice, an unnamed player kills X, X kills "unknown". *)
Definition four_kills : list series :=
  [bundle [] [kill_of "X" "Y"; kill_of "X" "Y";
              [("victim", VStr "X")]; kill_of "X" "unknown"] [] []].

(** An end-state document with two maps and three players, one of them
    without an agent. *)
Definition end_state_doc1 : value :=
  VDict [("maps", VList [VStr "Ascent"; VDict [("name", VStr "Bind")]]);
         ("players",
          VList [VDict [("name", VStr "a"); ("agent", VStr "Jett");
                        ("team", VStr "red")];
                 VDict [("name", VStr "b"); ("team", VStr "red")];
                 VDict [("name", VStr "c"); ("selected_agent", VStr "Sova");
                        ("team", VStr "red")]])].

(** The same document with a player record that is a string. *)
Definition end_state_bad_player : value :=
  VDict [("maps", VList [VStr "Ascent"]);
         ("players",
          VList [VDict [("name", VStr "a"); ("agent", VStr "Jett")];
                 VStr "b"])].


(** A service that counts the calls made to it.  The series with the empty
    id cannot be listed; every other series has one file, which holds one
    kill, and no end state. *)
Definition counting_service : Main.service nat string :=
  {| Main.list_files := fun series_id calls =>
       (if String.eqb series_id "" then inl "not found"%string else inr tt,
        S calls);
     Main.download_events_zip := fun _ calls => (inr tt, S calls);
     Main.download_end_state := fun _ calls => (inr tt, S calls);
     Main.glob_jsonl := fun _ calls =>
       (inr [("events.jsonl"%string,
              [EventParser.Json (VDict [("type", VStr "kill")])])],
        S calls);
     Main.write_schema_preview := fun _ _ calls => (inr tt, S calls);
     Main.find_end_state := fun _ calls =>
       (inr EndStateParser.Absent, S calls) |}.

(** The same service with a cache directory that cannot be written. *)
Definition read_only_service : Main.service nat string :=
  {| Main.list_files := Main.list_files counting_service;
     Main.download_events_zip := Main.download_events_zip counting_service;
     Main.download_end_state := Main.download_end_state counting_service;
     Main.glob_jsonl := Main.glob_jsonl counting_service;
     Main.write_schema_preview := fun _ _ calls =>
       (inl "read-only file system"%string, S calls);
     Main.find_end_state := Main.find_end_state counting_service |}.


(** [" a , b"]: the second id follows a no-break space. *)
Definition padded_ids : string :=
  (" a ," ++ String (ascii_of_nat 194) (String (ascii_of_nat 160) "b"))%string.


(** A record whose event type is written with the Kelvin sign U+212A for
    its first letter. *)
Definition kelvin_kill : value :=
  VDict [("event_type",
          VStr (String (ascii_of_nat 226)
                  (String (ascii_of_nat 132)
                     (String (ascii_of_nat 170) "ill"))))].


(** One match whose end-state lists descriptors of every shape: a dict with
    a name, a dict with a map name only, a string, a number, a dict without
    a name and an empty string. *)
Definition mixed_descriptors : list series :=
  [bundle [] []
     [ VDict [("name", VStr "Ascent")]; VDict [("map_name", VStr "Bind")];
       VStr "Ascent"; VInt 7; VDict []; VStr "" ] []].

End Examples.

(** * Properties *)

Import EventParser TacticalInsights ReportGenerator Examples.

(** ** The event normalizer *)

Section ParseLoop.

Variable file : string.

Lemma for_lines_app (l1 l2 : list line) (st : event_facts) :
  for_lines file (l1 ++ l2) st =
  match for_lines file l1 st with
  | (st', Ok _) => for_lines file l2 st'
  | (st', Raise e) => (st', Raise e)
  end.
Proof.
  revert st. induction l1 as [|l l1 IH]; intros st; simpl.
  - reflexivity.
  - unfold bind. destruct (process_line file l st) as [st1 [[]|e]].
    + apply IH.
    + reflexivity.
Qed.

(** A malformed line raises out of the loop over the lines: what follows it
    in the file is never read. *)
Lemma for_lines_malformed (pre post : list line) (st : event_facts) :
  fst (for_lines file (pre ++ Malformed :: post) st) =
  fst (for_lines file pre st).
Proof.
  rewrite for_lines_app.
  destruct (for_lines file pre st) as [st' [[]|e]]; reflexivity.
Qed.

End ParseLoop.

Lemma fold_parse_file_app (fs1 fs2 : list jsonl_file) (st : event_facts) :
  fold_left parse_file (fs1 ++ fs2) st =
  fold_left parse_file fs2 (fold_left parse_file fs1 st).
Proof. apply fold_left_app. Qed.

Lemma parse_events_fold (fs1 : list jsonl_file) (f : jsonl_file)
    (fs2 : list jsonl_file) :
  parse_events (fs1 ++ f :: fs2) =
  fold_left parse_file fs2 (parse_file (fold_left parse_file fs1 no_events) f).
Proof.
  unfold parse_events.
  destruct (fs1 ++ f :: fs2) as [|f0 fs] eqn:E.
  - destruct fs1; discriminate.
  - rewrite <- E, fold_parse_file_app. reflexivity.
Qed.

(** C1, as the claim states it, fails: in a file whose first line is
    malformed and whose second line is a spike plant, the plant and its round
    are lost, whereas the same file without the malformed line yields them. *)
Lemma malformed_line_loses_rest_of_file :
  _is_spike_plant plant_null_site = Ok true /\
  spike_plants (parse_events malformed_then_plant) = [] /\
  events_by_round (parse_events malformed_then_plant) = [] /\
  List.length (spike_plants (parse_events malformed_skipped)) = 1%nat /\
  parse_events malformed_then_plant <> parse_events malformed_skipped.
Proof.
  repeat split; try reflexivity.
  intros H. apply (f_equal spike_plants) in H. vm_compute in H. discriminate.
Qed.

(** C1 (amended): [parse_events] is total, and a line that is not valid JSON
    ends the processing of the file it stands in.  The facts of the lines
    before it are kept, that line and the later lines of the same file
    contribute nothing, and every other file of the stream is processed as
    usual: the result is that of the stream with this file cut off before
    the malformed line. *)
Theorem malformed_line_ends_its_file
    (before : list jsonl_file) (file : string) (pre post : list line)
    (after : list jsonl_file) :
  parse_events (before ++ (file, pre ++ Malformed :: post) :: after) =
  parse_events (before ++ (file, pre) :: after).
Proof.
  rewrite !parse_events_fold. f_equal.
  unfold parse_file; simpl. apply for_lines_malformed.
Qed.

(** *** Field extraction *)

(** C7, as the claim states it, fails: a record classified as a spike plant
    whose "site" field is present and null yields the site [None], where the
    first-non-null policy asks for the literal "unknown". *)
Lemma null_site_is_not_unknown :
  _is_spike_plant plant_null_site = Ok true /\
  lookup "site" null_site_fields = Some VNone /\
  Spec.first_non_null null_site_fields ["site"] (VStr "unknown")
    = VStr "unknown" /\
  exists plant,
    _extract_plant_info plant_null_site = Some plant /\
    get plant "site" = VNone /\
    get plant "site"
      <> Spec.first_non_null null_site_fields ["site"] (VStr "unknown").
Proof.
  repeat split; try reflexivity.
  eexists. repeat split; try reflexivity. discriminate.
Qed.

Lemma get_first_non_null (d : pydict) (k : string) :
  get d k = Spec.first_non_null d [k] VNone.
Proof.
  unfold get, get_default; simpl.
  destruct (lookup k d) as [[]|]; reflexivity.
Qed.

(** C7 (amended): for every record (hence for every one classified as a spike
    plant) the extracted site is the value of the "site" field whenever the
    key is present - null when the field is null - and the literal "unknown"
    only when the key is absent, so it follows the first-non-null policy
    except on a null field; the extracted map is the first of "map",
    "map_name" whose value is truthy (neither null nor empty, zero or false),
    else "unknown"; round, timestamp and round time are the fields
    "round_id", "timestamp" and "round_time", or null. *)
Theorem plant_attributes (d : pydict) :
  exists plant,
    _extract_plant_info (VDict d) = Some plant /\
    get plant "site" =
      match lookup "site" d with
      | Some VNone => VNone
      | _ => Spec.first_non_null d ["site"] (VStr "unknown")
      end /\
    get plant "map" = Spec.first_truthy d ["map"; "map_name"] (VStr "unknown") /\
    get plant "round" = Spec.first_non_null d ["round_id"] VNone /\
    get plant "timestamp" = Spec.first_non_null d ["timestamp"] VNone /\
    get plant "round_time" = Spec.first_non_null d ["round_time"] VNone.
Proof.
  eexists. split; [reflexivity|].
  assert (Hget : forall (p : pydict) k v, lookup k p = Some v -> get p k = v).
  { intros p k v H. unfold get, get_default. now rewrite H. }
  split; [|split; [|split; [|split]]].
  - erewrite Hget by reflexivity. unfold get_default; simpl.
    destruct (lookup "site" d) as [[]|]; reflexivity.
  - erewrite Hget by reflexivity. unfold py_or. cbn [Spec.first_truthy].
    destruct (truthy (get d "map")); [reflexivity|].
    destruct (truthy (get d "map_name")); reflexivity.
  - erewrite Hget by reflexivity. apply get_first_non_null.
  - erewrite Hget by reflexivity. apply get_first_non_null.
  - erewrite Hget by reflexivity. apply get_first_non_null.
Qed.

(** *** The extraction helpers never fail on a classified record *)

Lemma classified_is_dict (event : value) (b : bool) :
  _is_spike_plant event = Ok b \/ _is_kill event = Ok b ->
  exists d, event = VDict d.
Proof.
  destruct event; simpl; intros [H|H]; try discriminate; eauto.
Qed.

(** Both classifiers read the same type indicator, so one answers exactly
    when the other does. *)
Lemma classifiers_agree (event : value) (b : bool) :
  _is_spike_plant event = Ok b -> exists b', _is_kill event = Ok b'.
Proof.
  destruct event as [| | | | |d]; simpl; try discriminate.
  destruct (get_default d "event_type" (VStr "")); try discriminate.
  eauto.
Qed.

Lemma classifiers_agree' (event : value) (b : bool) :
  _is_kill event = Ok b -> exists b', _is_spike_plant event = Ok b'.
Proof.
  destruct event as [| | | | |d]; simpl; try discriminate.
  destruct (get_default d "event_type" (VStr "")); try discriminate.
  eauto.
Qed.

(** What one turn of the loop body leaves in the two lists of facts, whether
    or not the round grouping at its end raises. *)
Lemma process_event_facts (file : string) (d : pydict) (p k : bool)
    (st : event_facts) :
  _is_spike_plant (VDict d) = Ok p ->
  _is_kill (VDict d) = Ok k ->
  forall plant kill,
    _extract_plant_info (VDict d) = Some plant ->
    _extract_kill_info (VDict d) = Some kill ->
    let st' := fst (process_event file (VDict d) st) in
    spike_plants st' = (if p then spike_plants st ++ [plant] else spike_plants st)
    /\ kills st' = (if k then kills st ++ [kill] else kills st).
Proof.
  intros Hp Hk plant kill Eplant Ekill.
  unfold process_event, bind, lift, capture_schema, ret, push_plant, push_kill,
    push_round, modify.
  rewrite Hp, Hk, Eplant, Ekill.
  simpl in Eplant, Ekill.
  injection Eplant as <-. injection Ekill as <-.
  destruct (rbind (round_of (VDict d)) hash_key);
    destruct (schema_preview st), p, k; simpl; auto.
Qed.

(** C10: the error branch of the extraction helpers is unreachable.  On every
    decoded record (a JSON object) both helpers return a fact, never [None];
    they are only called on records and, whenever a record is classified as
    a spike plant (as a kill), the loop body appends exactly one plant fact
    (kill fact) for it, the one the helper returns. *)
Theorem extraction_never_fails :
  (forall d : pydict,
     _extract_plant_info (VDict d) <> None /\
     _extract_kill_info (VDict d) <> None) /\
  (forall event : value,
     _is_spike_plant event = Ok true ->
     exists plant,
       _extract_plant_info event = Some plant /\
       forall file st,
         spike_plants (fst (process_event file event st))
         = spike_plants st ++ [plant]) /\
  (forall event : value,
     _is_kill event = Ok true ->
     exists kill,
       _extract_kill_info event = Some kill /\
       forall file st,
         kills (fst (process_event file event st)) = kills st ++ [kill]).
Proof.
  split; [|split].
  - intros d; split; discriminate.
  - intros event Hp.
    destruct (classified_is_dict event true (or_introl Hp)) as [d ->].
    destruct (classifiers_agree _ _ Hp) as [k Hk].
    eexists; split; [reflexivity|]. intros file st.
    apply (process_event_facts file d true k st Hp Hk _ _ eq_refl eq_refl).
  - intros event Hk.
    destruct (classified_is_dict event true (or_intror Hk)) as [d ->].
    destruct (classifiers_agree' _ _ Hk) as [p Hp].
    eexists; split; [reflexivity|]. intros file st.
    apply (process_event_facts file d p true st Hp Hk _ _ eq_refl eq_refl).
Qed.

(** A record that is both a kill and a plant: one fact of each kind. *)
Lemma extraction_never_fails_witness :
  (exists plant,
     _extract_plant_info kill_and_plant = Some plant /\
     forall file st,
       spike_plants (fst (process_event file kill_and_plant st))
       = spike_plants st ++ [plant]) /\
  (exists kill,
     _extract_kill_info kill_and_plant = Some kill /\
     forall file st,
       kills (fst (process_event file kill_and_plant st))
       = kills st ++ [kill]).
Proof.
  destruct extraction_never_fails as [_ [Hplant Hkill]].
  split.
  - apply (Hplant kill_and_plant). reflexivity.
  - apply (Hkill kill_and_plant). reflexivity.
Defined.

(** ** Loops, keys and ordered dicts *)

Lemma foldM_ext {A B : Type} (f g : A -> B -> result A) (l : list B) (a : A) :
  (forall a b, f a b = g a b) -> foldM f l a = foldM g l a.
Proof.
  intros H. revert a. induction l as [|x l IH]; intros a; simpl.
  - reflexivity.
  - rewrite H. destruct (g a x); simpl; auto.
Qed.

Lemma foldM_app {A B : Type} (f : A -> B -> result A) (l1 l2 : list B) (a : A) :
  foldM f (l1 ++ l2) a = rbind (foldM f l1 a) (foldM f l2).
Proof.
  revert a. induction l1 as [|x l1 IH]; intros a; simpl.
  - reflexivity.
  - destruct (f a x); simpl; auto.
Qed.

(** A loop invariant [I], indexed by the part of the list already read. *)
Lemma foldM_invariant {A B : Type} (f : A -> B -> result A)
    (I : list B -> A -> Prop) (l : list B) (a a' : A) :
  I [] a ->
  (forall done x acc acc', I done acc -> f acc x = Ok acc' ->
                           I (done ++ [x]) acc') ->
  foldM f l a = Ok a' -> I l a'.
Proof.
  intros H0 Hstep.
  assert (G : forall rest done acc,
             I done acc -> foldM f rest acc = Ok a' -> I (done ++ rest) a').
  { induction rest as [|x rest IH]; intros done acc Hacc Hrun; simpl in Hrun.
    - injection Hrun as <-. now rewrite app_nil_r.
    - destruct (f acc x) as [acc1|e] eqn:E; simpl in Hrun; [|discriminate].
      replace (done ++ x :: rest) with ((done ++ [x]) ++ rest)
        by (rewrite <- app_assoc; reflexivity).
      eapply IH; eauto. }
  intros Hrun. apply (G l [] a H0 Hrun).
Qed.

Lemma key_eqb_norm (a b : key) :
  key_eqb a b = true <-> key_norm a = key_norm b.
Proof.
  assert (HZ : forall x y : Z, (x =? y) = true <-> KInt x = KInt y).
  { intros x y. rewrite Z.eqb_eq. split; congruence. }
  assert (HS : forall x y : string, (x =? y)%string = true <-> KStr x = KStr y).
  { intros x y. rewrite String.eqb_eq. split; congruence. }
  unfold key_eqb.
  destruct a, b; simpl; try apply HZ; try apply HS;
    split; intros H; try discriminate; reflexivity.
Qed.

Lemma key_eqb_refl (a : key) : key_eqb a a = true.
Proof. now apply key_eqb_norm. Qed.

Lemma key_eqb_sym (a b : key) : key_eqb a b = key_eqb b a.
Proof.
  destruct (key_eqb a b) eqn:E1, (key_eqb b a) eqn:E2; try reflexivity.
  - apply key_eqb_norm in E1. symmetry in E1. apply key_eqb_norm in E1.
    congruence.
  - apply key_eqb_norm in E2. symmetry in E2. apply key_eqb_norm in E2.
    congruence.
Qed.

Lemma key_eqb_trans (a b c : key) :
  key_eqb a b = true -> key_eqb b c = true -> key_eqb a c = true.
Proof. rewrite !key_eqb_norm. congruence. Qed.

Lemma key_eqb_congr (a b c : key) :
  key_eqb a b = true -> key_eqb a c = key_eqb b c.
Proof.
  intros H. destruct (key_eqb b c) eqn:E.
  - eapply key_eqb_trans; eauto.
  - destruct (key_eqb a c) eqn:E'; [|reflexivity].
    rewrite key_eqb_sym in H. rewrite <- E. symmetry.
    eapply key_eqb_trans; eauto.
Qed.

Lemma od_update_keys {V : Type} (dflt : V) (f : V -> V) (k : key) (d : odict V) :
  keys (od_update dflt f k d) = if has k d then keys d else keys d ++ [k].
Proof.
  unfold has, keys. induction d as [|[k' v] d IH]; simpl.
  - reflexivity.
  - destruct (key_eqb k' k); simpl.
    + reflexivity.
    + rewrite IH. now destruct (existsb _ (map fst d)).
Qed.

Lemma od_update_fresh {V : Type} (dflt : V) (f : V -> V) (k : key) (d : odict V) :
  has k d = false -> od_update dflt f k d = d ++ [(k, f dflt)].
Proof.
  unfold has, keys. induction d as [|[k' v] d IH]; simpl; intros H.
  - reflexivity.
  - apply orb_false_iff in H as [H1 H2]. rewrite H1, IH; auto.
Qed.

Lemma od_set_fresh {V : Type} (k : key) (v : V) (d : odict V) :
  has k d = false -> od_set k v d = d ++ [(k, v)].
Proof.
  unfold has, keys. induction d as [|[k' v'] d IH]; simpl; intros H.
  - reflexivity.
  - apply orb_false_iff in H as [H1 H2]. rewrite H1, IH; auto.
Qed.

Lemma od_set_In {V : Type} (k : key) (v : V) (d : odict V) (e : key * V) :
  In e (od_set k v d) -> In e d \/ (snd e = v /\ key_eqb (fst e) k = true).
Proof.
  induction d as [|[k' v'] d IH]; simpl.
  - intros [<-|[]]. right. split; [reflexivity|apply key_eqb_refl].
  - destruct (key_eqb k' k) eqn:E; simpl.
    + intros [<-|H]; auto.
    + intros [<-|H]; auto. destruct (IH H); auto.
Qed.

(** ** The counts of [value_counts] *)

Lemma sum_counts_app {K : Type} (c1 c2 : list (K * nat)) :
  Spec.sum_counts (c1 ++ c2) = (Spec.sum_counts c1 + Spec.sum_counts c2)%nat.
Proof.
  unfold Spec.sum_counts. induction c1 as [|x c1 IH]; simpl; [reflexivity|].
  rewrite IH. lia.
Qed.

Lemma sum_counts_update (k : key) (seen : odict nat) :
  Spec.sum_counts (od_update 0%nat S k seen) = S (Spec.sum_counts seen).
Proof.
  induction seen as [|[k' n] seen IH]; simpl.
  - reflexivity.
  - destruct (key_eqb k' k); simpl.
    + reflexivity.
    + unfold Spec.sum_counts in *. simpl. rewrite IH. lia.
Qed.

Lemma sum_counts_insert {K : Type} (f : K * nat -> Z) (x : K * nat)
    (l : list (K * nat)) :
  Spec.sum_counts (insert_desc f x l) = (snd x + Spec.sum_counts l)%nat.
Proof.
  induction l as [|y l IH]; simpl.
  - reflexivity.
  - destruct (f y <=? f x); simpl; [reflexivity|].
    unfold Spec.sum_counts in *. simpl. rewrite IH. lia.
Qed.

Lemma sum_counts_sorted {K : Type} (f : K * nat -> Z) (l : list (K * nat)) :
  Spec.sum_counts (sorted_desc f l) = Spec.sum_counts l.
Proof.
  induction l as [|x l IH]; simpl; [reflexivity|].
  rewrite sum_counts_insert, IH. reflexivity.
Qed.

Lemma tally_sum (l : list value) (seen seen' : odict nat) :
  tally l seen = Ok seen' ->
  Spec.sum_counts seen' = (Spec.sum_counts seen + List.length (Spec.non_null l))%nat.
Proof.
  revert seen. induction l as [|v l IH]; intros seen H; simpl in H.
  - injection H as <-. simpl. lia.
  - destruct v; simpl in H; try discriminate;
      try (apply IH in H; rewrite H; try rewrite sum_counts_update;
           simpl; lia).
Qed.

Lemma value_counts_sum (l : list value) (c : odict nat) :
  value_counts l = Ok c ->
  Spec.sum_counts c = List.length (Spec.non_null l).
Proof.
  unfold value_counts. destruct (tally l []) as [seen|e] eqn:E; simpl;
    [|discriminate].
  intros H; injection H as <-. rewrite sum_counts_sorted.
  now apply tally_sum in E.
Qed.

Lemma non_null_truthy (l : list value) :
  Forall (fun v => truthy v = true) l -> Spec.non_null l = l.
Proof.
  induction 1 as [|v l Hv _ IH]; simpl; [reflexivity|].
  destruct v; simpl in *; try discriminate; now rewrite IH.
Qed.

(** ** The plant-site and attack-site views *)

Lemma add_attack_entry_eq (res : odict site_stats) (item : key * list value) :
  add_attack_entry res item = add_site_entry res item.
Proof.
  destruct item as [map_name [|site sites]]; simpl; [reflexivity|].
  unfold site_entry. destruct (value_counts (site :: sites)); reflexivity.
Qed.

(** ** The map pool *)

Lemma collect_map_loop (l acc : list value) :
  fold_left collect_map l acc =
  acc ++ filter truthy (map map_name_of l).
Proof.
  revert acc. induction l as [|m l IH]; intros acc; simpl.
  - now rewrite app_nil_r.
  - rewrite IH. unfold collect_map.
    destruct (truthy (map_name_of m)); [|reflexivity].
    now rewrite <- app_assoc.
Qed.

Lemma collect_maps_loop (series_data : list series) (acc : list value) :
  fold_left (fun acc s => fold_left collect_map (maps (end_state s)) acc)
            series_data acc =
  acc ++ filter truthy (map map_name_of (Spec.descriptors series_data)).
Proof.
  revert acc. induction series_data as [|s sd IH]; intros acc; simpl.
  - now rewrite app_nil_r.
  - rewrite IH, collect_map_loop, map_app, filter_app, app_assoc.
    reflexivity.
Qed.

Lemma collect_maps_spec (series_data : list series) :
  collect_maps series_data =
  filter truthy (map map_name_of (Spec.descriptors series_data)).
Proof. unfold collect_maps. now rewrite collect_maps_loop. Qed.

Lemma filter_map_length {A B : Type} (f : A -> B) (p : B -> bool) (l : list A) :
  List.length (filter p (map f l)) = List.length (filter (fun x => p (f x)) l).
Proof.
  induction l as [|x l IH]; simpl; [reflexivity|].
  destruct (p (f x)); simpl; now rewrite IH.
Qed.

(** C3, as the claim states it, fails: a dict-shaped descriptor without a
    name is encountered but not counted. *)
Lemma nameless_map_not_counted :
  List.length (Spec.descriptors nameless_map) = 1%nat /\
  analyze_maps_played nameless_map
  = Ok {| pool_maps := []; pool_total := 0 |}.
Proof. split; reflexivity. Qed.

Lemma map_name_of_resolved (map_info : value) :
  map_name_of map_info = Spec.resolved_name map_info.
Proof. destruct map_info; reflexivity. Qed.

Lemma counted_names_resolved (series_data : list series) :
  collect_maps series_data
  = map Spec.resolved_name (Spec.counted_descriptors series_data).
Proof.
  rewrite collect_maps_spec. unfold Spec.counted_descriptors.
  induction (Spec.descriptors series_data) as [|m l IH]; [reflexivity|].
  cbn [map filter]. rewrite map_name_of_resolved.
  destruct (truthy (Spec.resolved_name m)); cbn [map]; now rewrite IH.
Qed.

Lemma non_null_length (l : list value) :
  (List.length (Spec.non_null l) <= List.length l)%nat.
Proof. apply filter_length_le. Qed.

Lemma sum_counts_le_length (l : list value) (c : odict nat) :
  value_counts l = Ok c -> (Spec.sum_counts c <= List.length l)%nat.
Proof.
  intros H. rewrite (value_counts_sum _ _ H). apply non_null_length.
Qed.

(** C3 (amended): whenever the map pool is returned, its total is the
    number of map descriptors, over every match's end-state and with
    duplicates, whose resolved name is truthy (a dict-shaped descriptor
    resolves to its "name", else its "map_name"; a string to itself;
    anything else to "unknown", which is counted); a descriptor that
    resolves to null or to the empty string is skipped.  The per-map counts
    never add up to more than the total, and they add up to the total when
    the resolved names are strings, which pandas counts as they are. *)
Theorem map_pool_total (series_data : list series) (pool : map_pool) :
  analyze_maps_played series_data = Ok pool ->
  pool_total pool = List.length (Spec.counted_descriptors series_data) /\
  (Spec.sum_counts (pool_maps pool) <= pool_total pool)%nat /\
  (Forall (fun descriptor =>
             Spec.is_label (Spec.resolved_name descriptor) = true)
          (Spec.counted_descriptors series_data) ->
   pool_total pool = Spec.sum_counts (pool_maps pool)).
Proof.
  unfold analyze_maps_played. rewrite counted_names_resolved.
  assert (Htruthy : Forall (fun v => truthy v = true)
                      (map Spec.resolved_name
                           (Spec.counted_descriptors series_data))).
  { apply Forall_forall. intros v Hv. apply in_map_iff in Hv as [m [<- Hm]].
    now apply filter_In in Hm. }
  rewrite <- (length_map Spec.resolved_name
                (Spec.counted_descriptors series_data)).
  set (names := map Spec.resolved_name (Spec.counted_descriptors series_data))
    in *.
  clearbody names. destruct names as [|n names'].
  - intros H; injection H as <-.
    split; [reflexivity|]. split; [apply Nat.le_refl|reflexivity].
  - destruct (value_counts (n :: names')) as [c|e] eqn:Ec; simpl;
      [|discriminate].
    intros H; injection H as <-. simpl pool_total. simpl pool_maps.
    split; [reflexivity|].
    split; [exact (sum_counts_le_length _ _ Ec)|].
    intros _. apply value_counts_sum in Ec.
    rewrite non_null_truthy in Ec by assumption. now rewrite Ec.
Qed.

Lemma map_pool_total_witness :
  exists pool,
    analyze_maps_played mixed_descriptors = Ok pool /\
    List.length (Spec.descriptors mixed_descriptors) = 6%nat /\
    pool_maps pool
    = [(KStr "Ascent", 2%nat); (KStr "Bind", 1%nat); (KStr "unknown", 1%nat)] /\
    pool_total pool = 4%nat /\
    pool_total pool = List.length (Spec.counted_descriptors mixed_descriptors) /\
    pool_total pool = Spec.sum_counts (pool_maps pool).
Proof.
  eexists. split; [reflexivity|]. split; [reflexivity|].
  split; [reflexivity|]. split; [reflexivity|].
  destruct (map_pool_total mixed_descriptors _ eq_refl) as [Ht [_ Hs]].
  split; [exact Ht|]. apply Hs. repeat constructor.
Defined.

(** ** Composition frequency *)

Lemma od_append_filled {A : Type} (k : key) (x : A) (d : odict (list A)) :
  filled d -> filled (od_append k x d).
Proof.
  unfold filled, od_append. induction d as [|[k' xs] d IH]; simpl; intros H.
  - constructor; [|constructor]. simpl. discriminate.
  - inversion H as [|? ? Hx Hd]; subst.
    destruct (key_eqb k' k); constructor; simpl; auto.
    now destruct xs.
Qed.

Lemma od_append_not_nil {A : Type} (k : key) (x : A) (d : odict (list A)) :
  od_append k x d <> [].
Proof.
  unfold od_append. destruct d as [|[k' xs] d]; simpl; [discriminate|].
  destruct (key_eqb k' k); discriminate.
Qed.

Lemma add_team_comp_empty (map_name : value) (cbm cbm' : odict (list string))
    (team : key * list value) :
  add_team_comp map_name cbm team = Ok cbm' ->
  filled cbm ->
  filled cbm' /\ (cbm' = [] <-> cbm = [] /\ Spec.has_agents team = false).
Proof.
  destruct team as [t [|a agents]]; unfold Spec.has_agents; simpl.
  - intros H; injection H as <-. intuition.
  - destruct (comp_signature (a :: agents)) as [sig|e]; simpl; [|discriminate].
    destruct (hash_key map_name) as [k|e]; simpl; [|discriminate].
    intros H Hf; injection H as <-. split.
    + now apply od_append_filled.
    + split; [intros H|intros [_ H]; discriminate].
      now apply od_append_not_nil in H.
Qed.

Lemma teams_loop_empty (map_name : value) (teams : odict (list value))
    (cbm cbm' : odict (list string)) :
  foldM (add_team_comp map_name) teams cbm = Ok cbm' ->
  filled cbm ->
  filled cbm' /\ (cbm' = [] <-> cbm = [] /\ existsb Spec.has_agents teams = false).
Proof.
  revert cbm. induction teams as [|team teams IH]; intros cbm H Hf; simpl in *.
  - injection H as <-. intuition.
  - destruct (add_team_comp map_name cbm team) as [cbm1|e] eqn:E; simpl in H;
      [|discriminate].
    destruct (add_team_comp_empty _ _ _ _ E Hf) as [Hf1 H1].
    destruct (IH _ H Hf1) as [Hf' H'].
    split; [assumption|].
    rewrite H', H1, orb_false_iff. tauto.
Qed.

Lemma maps_loop_empty (series_maps : list value) (teams : odict (list value))
    (cbm cbm' : odict (list string)) :
  foldM (fun comps_by_map map_info =>
           foldM (add_team_comp (comp_map_name map_info)) teams comps_by_map)
        series_maps cbm = Ok cbm' ->
  filled cbm ->
  filled cbm' /\
  (cbm' = [] <->
   cbm = [] /\ (series_maps = [] \/ existsb Spec.has_agents teams = false)).
Proof.
  revert cbm. induction series_maps as [|m ms IH]; intros cbm H Hf;
    simpl in H.
  - injection H as <-. intuition.
  - destruct (foldM (add_team_comp (comp_map_name m)) teams cbm)
      as [cbm1|e] eqn:E; simpl in H; [|discriminate].
    destruct (teams_loop_empty _ _ _ _ E Hf) as [Hf1 H1].
    destruct (IH _ H Hf1) as [Hf' H'].
    split; [assumption|].
    rewrite H', H1. intuition discriminate.
Qed.

Lemma add_series_comps_empty (cbm cbm' : odict (list string)) (s : series) :
  add_series_comps cbm s = Ok cbm' ->
  filled cbm ->
  filled cbm' /\ (cbm' = [] <-> cbm = [] /\ Spec.contributes s = false).
Proof.
  unfold add_series_comps, Spec.contributes.
  destruct (maps (end_state s)) as [|m ms] eqn:Em.
  - intros H; injection H as <-. intuition.
  - destruct (comps (end_state s)) as [|t ts] eqn:Ec.
    + intros H; injection H as <-. intuition.
    + intros H Hf. destruct (maps_loop_empty _ _ _ _ H Hf) as [Hf' H'].
      split; [assumption|]. rewrite H'. intuition discriminate.
Qed.

Lemma series_loop_empty (series_data : list series)
    (cbm cbm' : odict (list string)) :
  foldM add_series_comps series_data cbm = Ok cbm' ->
  filled cbm ->
  filled cbm' /\
  (cbm' = [] <-> cbm = [] /\ existsb Spec.contributes series_data = false).
Proof.
  revert cbm. induction series_data as [|s sd IH]; intros cbm H Hf;
    simpl in H.
  - injection H as <-. simpl. intuition.
  - destruct (add_series_comps cbm s) as [cbm1|e] eqn:E; simpl in H;
      [|discriminate].
    destruct (add_series_comps_empty _ _ _ E Hf) as [Hf1 H1].
    destruct (IH _ H Hf1) as [Hf' H'].
    split; [assumption|].
    simpl. rewrite H', H1, orb_false_iff. tauto.
Qed.

Lemma comp_entries_flag (cbm : odict (list string))
    (acc acc' : odict comp_stats * bool) :
  foldM add_comp_entry cbm acc = Ok acc' ->
  filled cbm ->
  snd acc' = match cbm with [] => snd acc | _ :: _ => false end.
Proof.
  revert acc. induction cbm as [|[m comp_list] cbm IH]; intros acc H Hf;
    simpl in H.
  - now injection H as <-.
  - inversion Hf as [|? ? Hx Hd]; subst. simpl in Hx.
    destruct acc as [res flag]. destruct comp_list as [|c cs]; [easy|].
    simpl in H.
    destruct (value_counts (VStr c :: map VStr cs)) as [cc|e]; simpl in H;
      [|discriminate].
    apply IH in H; [|assumption]. rewrite H. now destruct cbm.
Qed.

(** C5: whenever the composition view is returned, its [insufficient_data]
    flag is true if and only if no match has both a non-empty map list and a
    team with a non-empty agent list. *)
Theorem insufficient_data_iff (series_data : list series)
    (view : comp_frequency) :
  analyze_comp_frequency series_data = Ok view ->
  (insufficient_data view = true <->
   forall s, In s series_data -> Spec.contributes s = false).
Proof.
  unfold analyze_comp_frequency.
  destruct (foldM add_series_comps series_data []) as [cbm|e] eqn:E1; simpl;
    [|discriminate].
  destruct (foldM add_comp_entry cbm ([], true)) as [acc|e] eqn:E2; simpl;
    [|discriminate].
  intros H; injection H as <-. simpl.
  destruct (series_loop_empty _ _ _ E1 (Forall_nil _)) as [Hf Hempty].
  rewrite (comp_entries_flag _ _ _ E2 Hf). simpl.
  assert (Hall : existsb Spec.contributes series_data = false <->
                 forall s, In s series_data -> Spec.contributes s = false).
  { split.
    - intros Hx s Hs. destruct (Spec.contributes s) eqn:Es; [|reflexivity].
      rewrite <- Hx. symmetry. apply existsb_exists. eauto.
    - intros Hx. destruct (existsb Spec.contributes series_data) eqn:Ex;
        [|reflexivity].
      apply existsb_exists in Ex as [s [Hs Es]]. rewrite Hx in Es; auto. }
  rewrite <- Hall. destruct cbm as [|c cbm].
  - split; [intros _; now apply Hempty|reflexivity].
  - split; [discriminate|]. intros Hx.
    assert (Hnil : c :: cbm = []) by (apply Hempty; auto). discriminate.
Qed.

Lemma insufficient_data_iff_witness :
  exists view,
    analyze_comp_frequency no_players_then_comp = Ok view /\
    insufficient_data view = false /\
    (insufficient_data view = true <->
     forall s, In s no_players_then_comp -> Spec.contributes s = false).
Proof.
  eexists. split; [reflexivity|]. split; [reflexivity|].
  apply (insufficient_data_iff no_players_then_comp). reflexivity.
Defined.

(** ** Percentages of a site distribution *)

Lemma round_half_even_error (n d : Z) :
  0 < d -> Z.abs (2 * (round_half_even n d * d - n)) <= d.
Proof.
  intros Hd. unfold round_half_even.
  pose proof (Z.div_mod n d ltac:(lia)) as Hn.
  pose proof (Z.mod_pos_bound n d Hd) as Hr.
  set (q := n / d) in *. set (r := n mod d) in *.
  destruct (2 * r <? d) eqn:E1; [apply Z.ltb_lt in E1; nia|].
  apply Z.ltb_ge in E1.
  destruct (d <? 2 * r) eqn:E2; [apply Z.ltb_lt in E2; nia|].
  apply Z.ltb_ge in E2.
  destruct (Z.even q); nia.
Qed.

Lemma round_half_even_nonneg (n d : Z) :
  0 <= n -> 0 < d -> 0 <= round_half_even n d.
Proof.
  intros Hn Hd. unfold round_half_even.
  pose proof (Z.div_pos n d Hn Hd).
  destruct (2 * (n mod d) <? d); [assumption|].
  destruct (d <? 2 * (n mod d)); [lia|].
  destruct (Z.even (n / d)); lia.
Qed.

Section BinaryFloats.

Local Open Scope Q_scope.

Lemma nearest_even_error (y : Q) :
  Qabs (inject_Z (nearest_even y) - y) <= 1 # 2.
Proof.
  destruct y as [n d]. unfold nearest_even. cbn [Qnum Qden].
  pose proof (round_half_even_error n (Zpos d) ltac:(lia)) as H.
  set (m := round_half_even n (Zpos d)) in *.
  apply Qabs_Qle_condition.
  unfold Qle, Qminus, Qplus, Qopp, inject_Z; cbn [Qnum Qden].
  split; lia.
Qed.

Lemma nearest_even_nonneg (y : Q) : 0 <= y -> (0 <= nearest_even y)%Z.
Proof.
  intros Hy. apply round_half_even_nonneg; [|lia].
  unfold Qle in Hy. simpl in Hy. lia.
Qed.

Lemma pow2_pos (k : Z) : 0 < pow2 k.
Proof. apply Qpower_0_lt. reflexivity. Qed.

Lemma pow2_plus (a b : Z) : pow2 (a + b) == pow2 a * pow2 b.
Proof. apply Qpower_plus. discriminate. Qed.

Lemma pow2_inject (a : Z) : (0 <= a)%Z -> pow2 a == inject_Z (2 ^ a).
Proof. intros Ha. unfold pow2. now rewrite Zpower_Qpower. Qed.

Lemma floor_log2_le (q : Q) : 0 < q -> pow2 (floor_log2 q) <= q.
Proof.
  intros Hq. unfold floor_log2.
  set (a := Z.log2 (Qnum q)). set (b := Z.log2 (Zpos (Qden q))).
  destruct (Qle_bool (pow2 (a - b)) q) eqn:E; [now apply Qle_bool_iff|].
  assert (Hn : (0 < Qnum q)%Z).
  { unfold Qlt in Hq. simpl in Hq. lia. }
  destruct (Z.log2_spec (Qnum q) Hn) as [Ha _]. fold a in Ha.
  destruct (Z.log2_spec (Zpos (Qden q)) ltac:(lia)) as [_ Hb]. fold b in Hb.
  assert (Ha0 : (0 <= a)%Z) by apply Z.log2_nonneg.
  assert (Hb0 : (0 <= b)%Z) by apply Z.log2_nonneg.
  (* pow2 (a-b-1) * pow2 (b+1) == pow2 a *)
  assert (Hsplit : pow2 (a - b - 1) * pow2 (b + 1) == pow2 a).
  { rewrite <- pow2_plus. now replace (a - b - 1 + (b + 1))%Z with a by lia. }
  rewrite (pow2_inject a Ha0), (pow2_inject (b + 1)) in Hsplit by lia.
  replace (Z.succ b) with (b + 1)%Z in Hb by lia.
  pose proof (pow2_pos (a - b - 1)) as Hp.
  set (x := pow2 (a - b - 1)) in *.
  (* x * 2^(b+1) = 2^a <= n  and d < 2^(b+1)  so x * d <= n *)
  assert (H1 : x * inject_Z (Zpos (Qden q)) <= x * inject_Z (2 ^ (b + 1))).
  { apply Qmult_le_l; [assumption|]. rewrite <- Zle_Qle. lia. }
  assert (H2 : inject_Z (2 ^ a) <= inject_Z (Qnum q)) by now rewrite <- Zle_Qle.
  assert (H3 : x * inject_Z (Zpos (Qden q)) <= inject_Z (Qnum q)).
  { rewrite Hsplit in H1. lra. }
  assert (Hq' : q == inject_Z (Qnum q) / inject_Z (Zpos (Qden q))).
  { rewrite <- Qmake_Qdiv. destruct q; reflexivity. }
  rewrite Hq'. apply Qle_shift_div_l; [|assumption].
  unfold Qlt. simpl. lia.
Qed.

Lemma binary64_pos_error (q : Q) :
  0 < q -> Qabs (binary64_pos q - q) <= q * u53 + pow2 (-1075).
Proof.
  intros Hq. unfold binary64_pos.
  set (E := floor_log2 q).
  set (e := Z.max (E - 52) (-1074)).
  set (y := q / pow2 e).
  rewrite Qred_correct.
  pose proof (nearest_even_error y) as Hm.
  set (m := inject_Z (nearest_even y)) in *.
  pose proof (pow2_pos e) as He.
  assert (Hy : y * pow2 e == q).
  { unfold y. field. intros H. rewrite H in He. now apply Qlt_irrefl in He. }
  assert (Hhalf : pow2 e * (1 # 2) <= q * u53 + pow2 (-1075)).
  { pose proof (floor_log2_le q Hq) as HE. fold E in HE.
    pose proof (pow2_pos (-1075)) as Heta.
    destruct (Z.max_spec (E - 52) (-1074)) as [[_ Hmax]|[_ Hmax]];
      fold e in Hmax; rewrite Hmax.
    - assert (H : pow2 (-1074) * (1 # 2) == pow2 (-1075)) by reflexivity.
      rewrite H. assert (0 <= q * u53).
      { apply Qmult_le_0_compat; [lra|discriminate]. }
      lra.
    - replace (E - 52)%Z with (E + -52)%Z by lia. rewrite pow2_plus.
      assert (H : pow2 (-52) * (1 # 2) == u53) by reflexivity.
      rewrite <- Qmult_assoc, H.
      assert (pow2 E * u53 <= q * u53).
      { apply Qmult_le_compat_r; [assumption|discriminate]. }
      lra. }
  assert (Hdiff : m * pow2 e - q == (m - y) * pow2 e).
  { rewrite <- Hy. ring. }
  rewrite Hdiff, Qabs_Qmult, (Qabs_pos (pow2 e)) by lra.
  apply Qle_trans with ((1 # 2) * pow2 e); [|lra].
  apply Qmult_le_compat_r; [assumption|lra].
Qed.

Lemma binary64_error (q : Q) :
  0 <= q -> Qabs (binary64 q - q) <= q * u53 + pow2 (-1075).
Proof.
  intros Hq. unfold binary64. destruct q as [[|n|n] d]; cbn [Qnum].
  - pose proof (pow2_pos (-1075)).
    assert (H0 : 0 # d == 0) by reflexivity.
    rewrite H0. setoid_replace (0 - 0) with 0 by ring. simpl Qabs. lra.
  - apply binary64_pos_error. reflexivity.
  - exfalso. unfold Qle in Hq. simpl in Hq. lia.
Qed.

Lemma binary64_nonneg (q : Q) : 0 <= q -> 0 <= binary64 q.
Proof.
  intros Hq. unfold binary64. destruct q as [[|n|n] d]; cbn [Qnum].
  - apply Qle_refl.
  - unfold binary64_pos. rewrite Qred_correct.
    apply Qmult_le_0_compat; [|apply Qlt_le_weak, pow2_pos].
    change 0 with (inject_Z 0). rewrite <- Zle_Qle.
    apply nearest_even_nonneg. apply Qle_shift_div_l; [apply pow2_pos|].
    rewrite Qmult_0_l. exact Hq.
  - exfalso. unfold Qle in Hq. simpl in Hq. lia.
Qed.

Lemma Qabs_bounds (a b : Q) : Qabs a <= b -> - b <= a /\ a <= b.
Proof. apply Qabs_Qle_condition. Qed.

(** The distance of a percentage from the exact share. *)
Lemma percentage_error (v total : nat) :
  (0 < total)%nat -> (v <= total)%nat ->
  Qabs (percentage v total
        - 100 * (inject_Z (Z.of_nat v) / inject_Z (Z.of_nat total)))
  <= (1 # 20) + pow2 (-44).
Proof.
  intros Ht Hv. unfold percentage, round1.
  set (q := Z.of_nat v # Pos.of_nat total).
  assert (Hden : Zpos (Pos.of_nat total) = Z.of_nat total).
  { destruct total as [|t]; [lia|]. rewrite <- Pos.of_nat_succ. lia. }
  assert (Hq : q == inject_Z (Z.of_nat v) / inject_Z (Z.of_nat total)).
  { unfold q. rewrite Qmake_Qdiv, Hden. reflexivity. }
  rewrite <- Hq.
  assert (Hq0 : 0 <= q) by (unfold q, Qle; simpl; lia).
  assert (Hq1 : q <= 1) by (unfold q, Qle; simpl; lia).
  pose proof (binary64_error q Hq0) as Hp.
  pose proof (binary64_nonneg q Hq0) as Hp0.
  set (p := binary64 q) in *.
  assert (Hp100 : 0 <= p * 100) by lra.
  pose proof (binary64_error (p * 100) Hp100) as Hx.
  pose proof (binary64_nonneg (p * 100) Hp100) as Hx0.
  set (x := binary64 (p * 100)) in *.
  assert (Hx10 : 0 <= 10 * x) by lra.
  pose proof (nearest_even_error (10 * x)) as Hd.
  pose proof (nearest_even_nonneg (10 * x) Hx10) as Hd0.
  set (d := nearest_even (10 * x)) in *.
  assert (Hdq : (d # 10) * 10 == inject_Z d).
  { unfold Qeq, Qmult, inject_Z; simpl. lia. }
  assert (Hdq0 : 0 <= d # 10) by (unfold Qle; simpl; lia).
  pose proof (binary64_error (d # 10) Hdq0) as Hr.
  set (dq := d # 10) in *. set (r := binary64 dq) in *.
  set (D := inject_Z d) in *.
  assert (Heta : 0 < pow2 (-1075)) by apply pow2_pos.
  assert (Heta' : pow2 (-1075) <= u53).
  { apply Qle_bool_imp_le. vm_compute. reflexivity. }
  assert (Heps : pow2 (-44) == 512 * u53) by reflexivity.
  set (eta := pow2 (-1075)) in *. set (eps := pow2 (-44)) in *.
  apply Qabs_bounds in Hp, Hx, Hd, Hr. unfold u53 in *.
  apply Qabs_Qle_condition. split; lra.
Qed.

(** A percentage is the double of a decimal with one digit, whose tenths are
    the nearest integer to a thousand times the share, up to the error of the
    two roundings before. *)
Lemma percentage_tenths (v total : nat) :
  (0 < total)%nat -> (v <= total)%nat ->
  exists d : Z,
    percentage v total = binary64 (d # 10) /\
    Qabs (inject_Z d
          - 1000 * (inject_Z (Z.of_nat v) / inject_Z (Z.of_nat total)))
    <= (1 # 2) + pow2 (-40).
Proof.
  intros Ht Hv. unfold percentage, round1.
  set (q := Z.of_nat v # Pos.of_nat total).
  assert (Hden : Zpos (Pos.of_nat total) = Z.of_nat total).
  { destruct total as [|t]; [lia|]. rewrite <- Pos.of_nat_succ. lia. }
  assert (Hq : q == inject_Z (Z.of_nat v) / inject_Z (Z.of_nat total)).
  { unfold q. rewrite Qmake_Qdiv, Hden. reflexivity. }
  assert (Hq0 : 0 <= q) by (unfold q, Qle; simpl; lia).
  assert (Hq1 : q <= 1) by (unfold q, Qle; simpl; lia).
  pose proof (binary64_error q Hq0) as Hp.
  pose proof (binary64_nonneg q Hq0) as Hp0.
  set (p := binary64 q) in *.
  assert (Hp100 : 0 <= p * 100) by lra.
  pose proof (binary64_error (p * 100) Hp100) as Hx.
  set (x := binary64 (p * 100)) in *.
  pose proof (nearest_even_error (10 * x)) as Hd.
  exists (nearest_even (10 * x)). split; [reflexivity|]. rewrite <- Hq.
  set (D := inject_Z (nearest_even (10 * x))) in *.
  assert (Heta : 0 < pow2 (-1075)) by apply pow2_pos.
  assert (Heta' : pow2 (-1075) <= u53).
  { apply Qle_bool_imp_le. vm_compute. reflexivity. }
  assert (Heps : pow2 (-40) == 8192 * u53) by reflexivity.
  set (eta := pow2 (-1075)) in *. set (eps := pow2 (-40)) in *.
  apply Qabs_bounds in Hp, Hx, Hd. unfold u53 in *.
  apply Qabs_Qle_condition. split; lra.
Qed.

End BinaryFloats.

Lemma count_le_sum {K : Type} (cs : list (K * nat)) (kv : K * nat) :
  In kv cs -> (snd kv <= Spec.sum_counts cs)%nat.
Proof.
  induction cs as [|[k c] cs IH]; simpl; [easy|].
  unfold Spec.sum_counts in *. simpl.
  intros [<-|H]; [simpl; lia|]. specialize (IH H). lia.
Qed.

(** The sum of the percentages is within 0.05 per site, and the error of the
    floating-point operations, of the exact share of the counted plants. *)
Lemma percentages_close (cs : odict nat) (total : nat) :
  (0 < total)%nat ->
  Forall (fun kv => (snd kv <= total)%nat) cs ->
  (Qabs (Spec.sum_pct (map (fun kv => (fst kv, percentage (snd kv) total)) cs)
         - 100 * (inject_Z (Z.of_nat (Spec.sum_counts cs))
                  / inject_Z (Z.of_nat total)))
   <= ((1 # 20) + pow2 (-44)) * inject_Z (Z.of_nat (List.length cs)))%Q.
Proof.
  intros Ht Hle.
  assert (HT : ~ (inject_Z (Z.of_nat total) == 0)%Q).
  { unfold Qeq, inject_Z; simpl. lia. }
  induction Hle as [|[k c] cs Hc _ IH].
  - simpl. apply Qle_bool_imp_le. reflexivity.
  - change (Spec.sum_pct (map (fun kv => (fst kv, percentage (snd kv) total))
                              ((k, c) :: cs)))
      with (percentage c total
            + Spec.sum_pct (map (fun kv => (fst kv, percentage (snd kv) total))
                                cs))%Q.
    change (Spec.sum_counts ((k, c) :: cs)) with (c + Spec.sum_counts cs)%nat.
    change (List.length ((k, c) :: cs)) with (S (List.length cs)).
    rewrite Nat2Z.inj_add, Nat2Z.inj_succ, inject_Z_plus.
    unfold Z.succ. rewrite inject_Z_plus.
    pose proof (percentage_error c total Ht Hc) as H1. simpl snd in Hc.
    set (a := percentage c total) in *.
    set (rest := Spec.sum_pct _) in *.
    set (n := inject_Z (Z.of_nat (List.length cs))) in *.
    assert (Hsplit : (100 * ((inject_Z (Z.of_nat c)
                              + inject_Z (Z.of_nat (Spec.sum_counts cs)))
                             / inject_Z (Z.of_nat total))
                      == 100 * (inject_Z (Z.of_nat c)
                                / inject_Z (Z.of_nat total))
                         + 100 * (inject_Z (Z.of_nat (Spec.sum_counts cs))
                                  / inject_Z (Z.of_nat total)))%Q).
    { field. exact HT. }
    rewrite Hsplit.
    set (x := (100 * (inject_Z (Z.of_nat c) / inject_Z (Z.of_nat total)))%Q)
      in *.
    set (y := (100 * (inject_Z (Z.of_nat (Spec.sum_counts cs))
                      / inject_Z (Z.of_nat total)))%Q) in *.
    apply Qabs_bounds in H1, IH. set (eps := pow2 (-44)) in *.
    apply Qabs_Qle_condition. change (inject_Z 1) with 1%Q. split; lra.
Qed.

Lemma float_error_small (n : nat) :
  (((1 # 20) + pow2 (-44)) * inject_Z (Z.of_nat n)
   <= (1 # 10) * inject_Z (Z.of_nat n))%Q.
Proof.
  apply Qmult_le_compat_r.
  - apply Qle_bool_imp_le. reflexivity.
  - change 0%Q with (inject_Z 0). rewrite <- Zle_Qle. lia.
Qed.

(** ** Grouping with a [defaultdict] *)

Lemma has_norm {V : Type} (k : key) (d : odict V) :
  has k d = true <-> In (key_norm k) (map key_norm (keys d)).
Proof.
  unfold has. rewrite existsb_exists, in_map_iff. split.
  - intros [k' [Hin Heq]]. exists k'. split; [|assumption].
    now apply key_eqb_norm.
  - intros [k' [Heq Hin]]. exists k'. split; [assumption|].
    now apply key_eqb_norm.
Qed.

Lemma od_update_distinct {V : Type} (dflt : V) (f : V -> V) (k : key)
    (d : odict V) :
  distinct d -> distinct (od_update dflt f k d).
Proof.
  unfold distinct. rewrite od_update_keys.
  destruct (has k d) eqn:E; [auto|]. intros Hd.
  rewrite map_app. simpl.
  apply Permutation_NoDup with (l := key_norm k :: map key_norm (keys d)).
  - apply Permutation_cons_append.
  - constructor; [|assumption].
    intros Hin. apply has_norm in Hin. congruence.
Qed.

Lemma od_find_congr {V : Type} (a b : key) (d : odict V) :
  key_eqb a b = true -> od_find a d = od_find b d.
Proof.
  intros H. induction d as [|[k v] d IH]; simpl; [reflexivity|].
  rewrite (key_eqb_sym k a), (key_eqb_sym k b), (key_eqb_congr a b k H), IH.
  reflexivity.
Qed.

Lemma od_find_update {V : Type} (dflt : V) (f : V -> V) (k0 k : key)
    (d : odict V) :
  od_find k (od_update dflt f k0 d) =
  if key_eqb k0 k
  then Some (f match od_find k0 d with Some v => v | None => dflt end)
  else od_find k d.
Proof.
  induction d as [|[k' v] d IH]; simpl.
  - reflexivity.
  - destruct (key_eqb k' k0) eqn:E0; simpl.
    + rewrite (key_eqb_congr k' k0 k E0). now destruct (key_eqb k0 k).
    + rewrite IH. destruct (key_eqb k' k) eqn:E1; [|reflexivity].
      destruct (key_eqb k0 k) eqn:E2; [|reflexivity].
      rewrite key_eqb_sym in E2.
      rewrite (key_eqb_trans _ _ _ E1 E2) in E0. discriminate.
Qed.

Lemma od_find_In {V : Type} (k : key) (v : V) (d : odict V) :
  distinct d -> In (k, v) d -> od_find k d = Some v.
Proof.
  unfold distinct, keys. induction d as [|[k' v'] d IH]; simpl; [easy|].
  intros Hd [H|H].
  - injection H as -> ->. now rewrite key_eqb_refl.
  - inversion Hd as [|? ? Hnot Hd']; subst.
    destruct (key_eqb k' k) eqn:E; [|auto].
    exfalso. apply Hnot. apply key_eqb_norm in E. rewrite E.
    apply in_map, (in_map fst _ _ H).
Qed.

Lemma foldM_flat_map {A B C : Type} (f : A -> C -> result A) (g : B -> list C)
    (l : list B) (a : A) :
  foldM (fun acc x => foldM f (g x) acc) l a = foldM f (flat_map g l) a.
Proof.
  revert a. induction l as [|x l IH]; intros a; simpl; [reflexivity|].
  rewrite foldM_app. destruct (foldM f (g x) a); simpl; auto.
Qed.

Lemma on_map_congr (a b : key) (plant : pydict) :
  key_eqb a b = true -> Spec.on_map a plant = Spec.on_map b plant.
Proof.
  intros H. unfold Spec.on_map.
  destruct (hash_key _) as [k|e]; [|reflexivity].
  rewrite (key_eqb_sym k a), (key_eqb_sym k b). now apply key_eqb_congr.
Qed.

Lemma sites_on_congr (a b : key) (plants : list pydict) :
  key_eqb a b = true -> Spec.sites_on a plants = Spec.sites_on b plants.
Proof.
  intros H. unfold Spec.sites_on. f_equal. apply filter_ext.
  intros plant. now apply on_map_congr.
Qed.

Lemma sites_on_app (m : key) (l1 l2 : list pydict) :
  Spec.sites_on m (l1 ++ l2) = Spec.sites_on m l1 ++ Spec.sites_on m l2.
Proof. unfold Spec.sites_on. now rewrite filter_app, map_app. Qed.

(** After the grouping loop, [plants_by_map] holds for each map the sites of
    its plants, in order, and no key for a map without plants. *)
Lemma group_plant_sites (plants : list pydict)
    (plants_by_map : odict (list value)) :
  foldM group_plant plants [] = Ok plants_by_map ->
  distinct plants_by_map /\
  forall m, od_find m plants_by_map =
            match Spec.sites_on m plants with
            | [] => None
            | sites => Some sites
            end.
Proof.
  apply (foldM_invariant group_plant
           (fun done pbm =>
              distinct pbm /\
              forall m, od_find m pbm =
                        match Spec.sites_on m done with
                        | [] => None
                        | sites => Some sites
                        end)).
  - split; [constructor|reflexivity].
  - intros done plant pbm pbm' [Hd Hfind] Hstep.
    unfold group_plant in Hstep.
    destruct (hash_key (get_default plant "map" (VStr "unknown")))
      as [k0|e] eqn:Ek; simpl in Hstep; [|discriminate].
    injection Hstep as <-. split.
    + now apply od_update_distinct.
    + intros m. unfold od_append. rewrite od_find_update, sites_on_app.
      assert (Hlast : Spec.sites_on m [plant] =
                      if key_eqb k0 m then [Spec.site_of plant] else []).
      { unfold Spec.sites_on, Spec.on_map; simpl. rewrite Ek.
        now destruct (key_eqb k0 m). }
      rewrite Hlast. destruct (key_eqb k0 m) eqn:E.
      * rewrite Hfind, (sites_on_congr _ _ done E).
        destruct (Spec.sites_on m done); reflexivity.
      * rewrite app_nil_r. apply Hfind.
Qed.

Lemma site_entries_origin (plants_by_map : odict (list value))
    (view : odict site_stats) :
  foldM add_site_entry plants_by_map [] = Ok view ->
  forall m e, In (m, e) view ->
  exists m' sites,
    In (m', sites) plants_by_map /\ key_eqb m m' = true /\
    sites <> [] /\ site_entry sites = Ok e.
Proof.
  apply (foldM_invariant add_site_entry
           (fun done res =>
              forall m e, In (m, e) res ->
              exists m' sites,
                In (m', sites) done /\ key_eqb m m' = true /\
                sites <> [] /\ site_entry sites = Ok e)).
  - intros m e [].
  - intros done [k sites] res res' Hres Hstep m e Hin.
    assert (Hold : In (m, e) res ->
                   exists m' sites0,
                     In (m', sites0) (done ++ [(k, sites)]) /\
                     key_eqb m m' = true /\ sites0 <> [] /\
                     site_entry sites0 = Ok e).
    { intros H. destruct (Hres _ _ H) as [m' [s0 [H1 H2]]].
      exists m', s0. split; [apply in_or_app; now left|assumption]. }
    simpl in Hstep. destruct sites as [|s sites].
    + injection Hstep as <-. auto.
    + destruct (site_entry (s :: sites)) as [e0|err] eqn:Ee; simpl in Hstep;
        [|discriminate].
      injection Hstep as <-.
      destruct (od_set_In _ _ _ _ Hin) as [H|[H1 H2]]; [auto|].
      simpl in H1, H2. subst e0.
      exists k, (s :: sites). repeat split; try assumption.
      * apply in_or_app. right. now left.
      * discriminate.
Qed.

Lemma site_entry_fields (sites : list value) (e : site_stats) :
  site_entry sites = Ok e ->
  total e = List.length sites /\
  Spec.sum_counts (counts e) = List.length (Spec.non_null sites) /\
  percentages e =
    map (fun kv => (fst kv, percentage (snd kv) (List.length sites))) (counts e).
Proof.
  unfold site_entry.
  destruct (value_counts sites) as [c|err] eqn:Ec; simpl; [|discriminate].
  intros H; injection H as <-. simpl.
  repeat split. now apply value_counts_sum.
Qed.

(** No count of an entry exceeds its total. *)
Lemma site_entry_counts_le (sites : list value) (e : site_stats) :
  site_entry sites = Ok e ->
  Forall (fun kv => (snd kv <= List.length sites)%nat) (counts e).
Proof.
  intros He. destruct (site_entry_fields _ _ He) as [_ [Hc _]].
  apply Forall_forall. intros kv Hin.
  pose proof (count_le_sum _ _ Hin). pose proof (non_null_length sites). lia.
Qed.

(** C6, as the claim states it, fails: of two plants on "Bind", one at site
    "A" and one whose site is null (both read from an event file), the view
    lists the single site "A" with 50.0 percent. *)
Lemma null_site_breaks_percent_sum :
  exists e,
    analyze_plant_sites half_null = Ok [(KStr "Bind", e)] /\
    counts e = [(KStr "A", 1%nat)] /\
    percentages e = [(KStr "A", 50 # 1)] /\
    total e = 2%nat /\
    ~ (Qabs (Spec.sum_pct (percentages e) - 100)
       <= (1 # 10) * inject_Z (Z.of_nat (List.length (percentages e))))%Q.
Proof.
  eexists. repeat split. vm_compute. intros H. apply H. reflexivity.
Qed.

(** C6 (amended): for every input for which the site view is returned and
    every map of the view whose plants have a string or null for their
    site, [total] is the number of plants of that map, the counts add up to
    the number of those plants whose site is not null, and the per-site
    percentages, each the float [round(count / total * 100, 1)], sum to 100
    times (counted plants / total) up to 0.1 times the number of sites; so
    they sum to 100 up to that epsilon whenever no plant of the map has a
    null site. *)
Theorem site_percentages_sum (series_data : list series)
    (view : odict site_stats) (m : key) (e : site_stats) :
  analyze_plant_sites series_data = Ok view ->
  In (m, e) view ->
  let sites := Spec.sites_on m (Spec.plants series_data) in
  Forall (fun site => Spec.is_label site = true) sites ->
  let epsilon :=
    ((1 # 10) * inject_Z (Z.of_nat (List.length (percentages e))))%Q in
  total e = List.length sites /\
  Spec.sum_counts (counts e) = List.length (Spec.non_null sites) /\
  (Qabs (Spec.sum_pct (percentages e)
         - 100 * (inject_Z (Z.of_nat (Spec.sum_counts (counts e)))
                  / inject_Z (Z.of_nat (total e))))
   <= epsilon)%Q /\
  (Spec.non_null sites = sites ->
   (Qabs (Spec.sum_pct (percentages e) - 100) <= epsilon)%Q).
Proof.
  unfold analyze_plant_sites, group_plants. rewrite foldM_flat_map.
  fold (Spec.plants series_data).
  destruct (foldM group_plant (Spec.plants series_data) []) as [pbm|err] eqn:Eg;
    simpl; [|discriminate].
  intros Hview Hin.
  destruct (group_plant_sites _ _ Eg) as [Hd Hfind].
  destruct (site_entries_origin _ _ Hview _ _ Hin)
    as [m' [sites [Hm' [Heq [Hne Hentry]]]]].
  pose proof (od_find_In _ _ _ Hd Hm') as Hf. rewrite Hfind in Hf.
  rewrite (sites_on_congr m m' _ Heq).
  assert (Hsites : Spec.sites_on m' (Spec.plants series_data) = sites).
  { destruct (Spec.sites_on m' (Spec.plants series_data));
      [discriminate|congruence]. }
  rewrite Hsites. intros _.
  destruct (site_entry_fields _ _ Hentry) as [Ht [Hc Hp]].
  assert (Hpos : (0 < List.length sites)%nat).
  { destruct sites; [congruence|simpl; lia]. }
  assert (Hlen : List.length (percentages e) = List.length (counts e)).
  { rewrite Hp. apply length_map. }
  assert (Hclose := percentages_close (counts e) (List.length sites) Hpos
                      (site_entry_counts_le _ _ Hentry)).
  rewrite <- Hp, <- Hlen, <- Ht in Hclose.
  pose proof (float_error_small (List.length (percentages e))) as Hsmall.
  assert (Hclose' := Qle_trans _ _ _ Hclose Hsmall).
  repeat split; try assumption.
  intros Hnn. rewrite Hnn, <- Ht in Hc. rewrite Hc in Hclose'.
  assert (Hone : (100 * (inject_Z (Z.of_nat (total e))
                         / inject_Z (Z.of_nat (total e))) == 100)%Q).
  { field. rewrite Ht. unfold Qeq, inject_Z; simpl. lia. }
  rewrite Hone in Hclose'. exact Hclose'.
Qed.

(** Scenario B: sites A, A, B on "Bind" give the doubles nearest to 66.7
    and 33.3 percent. *)
Lemma site_percentages_sum_witness :
  exists e,
    analyze_plant_sites bind_aab = Ok [(KStr "Bind", e)] /\
    percentages e = [(KStr "A", binary64 (667 # 10));
                     (KStr "B", binary64 (333 # 10))] /\
    total e = 3%nat /\
    (Qabs (Spec.sum_pct (percentages e) - 100)
     <= (1 # 10) * inject_Z (Z.of_nat (List.length (percentages e))))%Q.
Proof.
  eexists. split; [vm_compute; reflexivity|]. split; [vm_compute; reflexivity|].
  split; [reflexivity|].
  refine (proj2 (proj2 (proj2
            (site_percentages_sum bind_aab _ (KStr "Bind") _ eq_refl
               (or_introl eq_refl) _))) _).
  - repeat constructor.
  - reflexivity.
Defined.

(** ** Stable descending sort *)

Section SortedDesc.

Context {A : Type} (f : A -> Z).

Lemma insert_desc_In (x z : A) (l : list A) :
  In z (insert_desc f x l) <-> z = x \/ In z l.
Proof.
  induction l as [|y l IH]; simpl.
  - intuition.
  - destruct (f y <=? f x); simpl; [intuition|].
    rewrite IH. intuition.
Qed.

Lemma sorted_desc_In (z : A) (l : list A) :
  In z (sorted_desc f l) <-> In z l.
Proof.
  induction l as [|x l IH]; simpl; [reflexivity|].
  rewrite insert_desc_In, IH. intuition.
Qed.

Lemma insert_desc_sorted (R : A -> A -> Prop) (x : A) (l : list A) :
  StronglySorted (desc_then f R) l ->
  Forall (R x) l ->
  StronglySorted (desc_then f R) (insert_desc f x l).
Proof.
  induction l as [|y l IH]; simpl; intros Hs Hx.
  - constructor; constructor.
  - inversion Hs as [|? ? Hs' Hy]; subst.
    inversion Hx as [|? ? Hxy Hx']; subst.
    destruct (f y <=? f x) eqn:E.
    + apply Z.leb_le in E. constructor; [assumption|].
      constructor.
      * unfold desc_then. destruct (Z.eq_dec (f x) (f y)); [right|left];
          auto; lia.
      * rewrite Forall_forall in *. intros z Hz.
        specialize (Hy z Hz). specialize (Hx' z Hz).
        unfold desc_then in *.
        destruct (Z.eq_dec (f x) (f z)); [right|left]; auto; lia.
    + apply Z.leb_gt in E. constructor; [auto|].
      rewrite Forall_forall in *. intros z Hz.
      apply insert_desc_In in Hz as [->|Hz]; [|auto].
      left. assumption.
Qed.

(** [sorted_desc] is descending and stable. *)
Lemma sorted_desc_stable (R : A -> A -> Prop) (l : list A) :
  StronglySorted R l -> StronglySorted (desc_then f R) (sorted_desc f l).
Proof.
  induction 1 as [|x l Hs IH Hx].
  - constructor.
  - change (sorted_desc f (x :: l)) with (insert_desc f x (sorted_desc f l)).
    apply insert_desc_sorted; [assumption|].
    rewrite Forall_forall in *. intros z Hz.
    apply Hx. apply (proj1 (sorted_desc_In z l)). exact Hz.
Qed.

End SortedDesc.

Section StronglySortedFacts.

Context {A : Type} (R : A -> A -> Prop).

Lemma StronglySorted_snoc (l : list A) (x : A) :
  StronglySorted R l -> Forall (fun y => R y x) l ->
  StronglySorted R (l ++ [x]).
Proof.
  induction 1 as [|y l Hs IH Hy]; simpl; intros Hx.
  - constructor; constructor.
  - inversion Hx as [|? ? Hyx Hx']; subst.
    constructor; [auto|].
    apply Forall_app. split; [assumption|]. constructor; [assumption|constructor].
Qed.

Lemma StronglySorted_app_before (l1 l2 : list A) (x : A) :
  StronglySorted R (l1 ++ x :: l2) -> Forall (fun y => R y x) l1.
Proof.
  induction l1 as [|y l1 IH]; simpl; intros Hs; [constructor|].
  inversion Hs as [|? ? Hs' Hy]; subst.
  constructor; [|auto].
  rewrite Forall_forall in Hy. apply Hy, in_or_app. right. now left.
Qed.

Lemma StronglySorted_app_drop (l1 l2 : list A) (x : A) :
  StronglySorted R (l1 ++ x :: l2) -> StronglySorted R (l1 ++ l2).
Proof.
  induction l1 as [|y l1 IH]; simpl; intros Hs.
  - now inversion Hs.
  - inversion Hs as [|? ? Hs' Hy]; subst.
    constructor; [auto|].
    rewrite Forall_forall in *. intros z Hz. apply Hy.
    apply in_app_or in Hz as [Hz|Hz]; apply in_or_app; [now left|].
    right. now right.
Qed.

Lemma StronglySorted_weaken (R' : A -> A -> Prop) (l : list A) :
  (forall a b, R a b -> R' a b) ->
  StronglySorted R l -> StronglySorted R' l.
Proof.
  intros HR. induction 1 as [|x l Hs IH Hx]; constructor; [assumption|].
  eapply Forall_impl; [|exact Hx]. auto.
Qed.

End StronglySortedFacts.

Lemma StronglySorted_map {A B : Type} (g : A -> B) (R : B -> B -> Prop)
    (l : list A) :
  StronglySorted R (map g l) <-> StronglySorted (fun a b => R (g a) (g b)) l.
Proof.
  induction l as [|x l IH]; simpl.
  - split; constructor.
  - split; intros Hs; inversion Hs as [|? ? Hs' Hx]; subst;
      (constructor; [now apply IH|]).
    + rewrite Forall_forall in *. intros z Hz. apply Hx. now apply in_map.
    + rewrite Forall_forall in *. intros z Hz.
      apply in_map_iff in Hz as [a [<- Ha]]. auto.
Qed.

Lemma StronglySorted_filter {A : Type} (R : A -> A -> Prop) (p : A -> bool)
    (l : list A) :
  StronglySorted R l -> StronglySorted R (filter p l).
Proof.
  induction 1 as [|x l Hs IH Hx]; simpl; [constructor|].
  destruct (p x); [|assumption].
  constructor; [assumption|].
  rewrite Forall_forall in *. intros z Hz. apply Hx.
  now apply filter_In in Hz.
Qed.

(** ** Opening duels *)

Lemma first_mention_le (p : key) (names : list value) :
  (Spec.first_mention p names <= List.length names)%nat.
Proof.
  induction names as [|v names IH]; simpl; [lia|].
  destruct (Spec.names_player p v); lia.
Qed.

Lemma first_mention_app (p : key) (l1 l2 : list value) :
  Spec.first_mention p (l1 ++ l2) =
  if (Spec.first_mention p l1 <? List.length l1)%nat
  then Spec.first_mention p l1
  else (List.length l1 + Spec.first_mention p l2)%nat.
Proof.
  induction l1 as [|v l1 IH]; simpl; [reflexivity|].
  destruct (Spec.names_player p v); [reflexivity|].
  rewrite IH.
  change (S (Spec.first_mention p l1) <? S (List.length l1))%nat
    with (Spec.first_mention p l1 <? List.length l1)%nat.
  now destruct (Spec.first_mention p l1 <? List.length l1)%nat.
Qed.

Lemma first_mention_congr (a b : key) (names : list value) :
  key_eqb a b = true -> Spec.first_mention a names = Spec.first_mention b names.
Proof.
  intros H. induction names as [|v names IH]; simpl; [reflexivity|].
  assert (E : Spec.names_player a v = Spec.names_player b v).
  { unfold Spec.names_player. destruct (hash_key v) as [k|e]; [|reflexivity].
    rewrite (key_eqb_sym k a), (key_eqb_sym k b). now apply key_eqb_congr. }
  now rewrite E, IH.
Qed.

Lemma has_congr {V : Type} (a b : key) (d : odict V) :
  key_eqb a b = true -> has a d = has b d.
Proof.
  intros H. unfold has. induction (keys d) as [|k ks IH]; simpl; [reflexivity|].
  rewrite (key_eqb_sym k a), (key_eqb_sym k b), (key_eqb_congr a b k H), IH.
  reflexivity.
Qed.

Lemma has_In {V : Type} (k : key) (d : odict V) :
  In k (keys d) -> has k d = true.
Proof.
  intros H. unfold has. apply existsb_exists. exists k.
  split; [assumption|apply key_eqb_refl].
Qed.

(** Later mentions do not move the players already encountered. *)
Lemma first_mention_extend (names extra : list value) (ks : list key) :
  StronglySorted
    (fun a b => (Spec.first_mention a names < Spec.first_mention b names)%nat)
    ks ->
  Forall (fun k => (Spec.first_mention k names < List.length names)%nat) ks ->
  StronglySorted
    (fun a b => (Spec.first_mention a (names ++ extra)
                 < Spec.first_mention b (names ++ extra))%nat) ks.
Proof.
  assert (Hold : forall k, (Spec.first_mention k names < List.length names)%nat ->
                 Spec.first_mention k (names ++ extra)
                 = Spec.first_mention k names).
  { intros k Hk. rewrite first_mention_app.
    apply Nat.ltb_lt in Hk. now rewrite Hk. }
  induction 1 as [|x l Hs IH Hx]; intros Hlt; [constructor|].
  inversion Hlt as [|? ? Hlx Hll]; subst.
  constructor; [auto|].
  rewrite Forall_forall in *. intros z Hz.
  rewrite (Hold x Hlx), (Hold z (Hll z Hz)). now apply Hx.
Qed.

(** One credited name. *)
Lemma credit_order (bump : counters -> counters) (name : value)
    (names : list value) (ps ps' : odict counters) :
  credit bump name ps = Ok ps' ->
  Spec.in_mention_order names ps ->
  Spec.in_mention_order (names ++ filter truthy [name]) ps'.
Proof.
  unfold credit. simpl filter. destruct (truthy name) eqn:Et.
  2:{ intros H; injection H as <-. now rewrite app_nil_r. }
  destruct (hash_key name) as [k0|e] eqn:Ek; simpl; [|discriminate].
  intros H; injection H as <-. intros [Hs [Hlt Hcov]].
  assert (Hk0 : Spec.first_mention k0 [name] = 0%nat).
  { simpl. unfold Spec.names_player. now rewrite Ek, key_eqb_refl. }
  assert (Hold : forall k, (Spec.first_mention k names < List.length names)%nat ->
                 Spec.first_mention k (names ++ [name])
                 = Spec.first_mention k names).
  { intros k Hk. rewrite first_mention_app.
    apply Nat.ltb_lt in Hk. now rewrite Hk. }
  assert (Hnew : forall k, ~ (Spec.first_mention k names < List.length names)%nat ->
                 (Spec.first_mention k (names ++ [name]) < List.length names + 1)%nat ->
                 key_eqb k0 k = true).
  { intros k Hk Hk'. rewrite first_mention_app in Hk'.
    apply Nat.ltb_nlt in Hk. rewrite Hk in Hk'. simpl in Hk'.
    unfold Spec.names_player in Hk'. rewrite Ek in Hk'.
    destruct (key_eqb k0 k); [reflexivity|lia]. }
  assert (Hkeys := od_update_keys new_counters bump k0 ps).
  unfold Spec.in_mention_order. rewrite length_app. simpl List.length.
  destruct (has k0 ps) eqn:Eh; rewrite Hkeys.
  - (* the player is already in the dict *)
    split; [|split].
    + now apply first_mention_extend.
    + eapply Forall_impl; [|exact Hlt]. intros k Hk. simpl in Hk.
      rewrite (Hold k Hk). lia.
    + intros k Hk. unfold has. rewrite Hkeys. fold (has k ps).
      destruct (Nat.lt_ge_cases (Spec.first_mention k names) (List.length names))
        as [Hin|Hout].
      * now apply Hcov.
      * rewrite <- (has_congr k0 k ps); [assumption|].
        apply Hnew; [lia|assumption].
  - (* a new player goes last *)
    assert (Hfresh : Spec.first_mention k0 names = List.length names).
    { pose proof (first_mention_le k0 names).
      destruct (Nat.eq_dec (Spec.first_mention k0 names) (List.length names));
        [assumption|].
      rewrite Hcov in Eh; [discriminate|lia]. }
    assert (Hk0' : Spec.first_mention k0 (names ++ [name]) = List.length names).
    { rewrite first_mention_app, Hfresh, Nat.ltb_irrefl, Hk0. lia. }
    split; [|split].
    + apply StronglySorted_snoc.
      * now apply first_mention_extend.
      * eapply Forall_impl; [|exact Hlt]. intros k Hk. simpl in Hk.
        rewrite (Hold k Hk), Hk0'. assumption.
    + apply Forall_app. split.
      * eapply Forall_impl; [|exact Hlt]. intros k Hk. simpl in Hk.
        rewrite (Hold k Hk). lia.
      * constructor; [|constructor]. rewrite Hk0'. lia.
    + intros k Hk. unfold has. rewrite Hkeys, existsb_app. simpl.
      destruct (Nat.lt_ge_cases (Spec.first_mention k names) (List.length names))
        as [Hin|Hout].
      * apply Hcov in Hin. unfold has in Hin. now rewrite Hin.
      * rewrite (Hnew k); [apply orb_true_r|lia|assumption].
Qed.

Lemma in_mention_order_nil {V : Type} :
  Spec.in_mention_order [] (@nil (key * V)).
Proof.
  split; [constructor|]. split; [constructor|].
  simpl. intros k Hk. lia.
Qed.

Lemma count_kill_order (names : list value) (ps ps' : odict counters)
    (kill : pydict) :
  count_kill ps kill = Ok ps' ->
  Spec.in_mention_order names ps ->
  Spec.in_mention_order (names ++ Spec.credited kill) ps'.
Proof.
  unfold count_kill. intros H Hps.
  destruct (credit add_kill (get kill "killer") ps) as [ps1|e] eqn:E1;
    simpl in H; [|discriminate].
  apply (credit_order _ _ names) in E1; [|assumption].
  apply (credit_order _ _ _ _ _ H) in E1.
  rewrite <- app_assoc in E1.
  replace (Spec.credited kill)
    with (filter truthy [get kill "killer"] ++ filter truthy [get kill "victim"]).
  - exact E1.
  - unfold Spec.credited. simpl.
    destruct (truthy (get kill "killer")); reflexivity.
Qed.

(** After the counting loop the players stand in [player_stats] in the order
    in which they were first encountered. *)
Lemma count_kills_order (series_data : list series) (ps : odict counters) :
  count_kills series_data = Ok ps ->
  Spec.in_mention_order (Spec.mentions series_data) ps.
Proof.
  unfold count_kills, Spec.mentions. rewrite foldM_flat_map.
  apply (foldM_invariant count_kill
           (fun done ps => Spec.in_mention_order (flat_map Spec.credited done) ps)).
  - apply in_mention_order_nil.
  - intros done kill acc acc' Hacc Hstep.
    rewrite flat_map_app. simpl. rewrite app_nil_r.
    now apply (count_kill_order _ acc).
Qed.

Lemma has_false {V : Type} (k : key) (d : odict V) :
  Forall (fun k' => key_eqb k' k = false) (keys d) -> has k d = false.
Proof.
  unfold has. induction 1 as [|k' ks Hk _ IH]; simpl; [reflexivity|].
  now rewrite Hk, IH.
Qed.

(** On a dict without equal keys the loop that builds [result] keeps the
    listed players in their order. *)
Lemma add_player_loop (l : odict counters) (res0 : odict duel_stats) :
  StronglySorted (fun a b => key_eqb a b = false) (keys res0 ++ keys l) ->
  fold_left add_player l res0 =
  res0 ++ map (fun item => (fst item, duel_entry (snd item)))
              (filter (fun item => listed (fst item)) l).
Proof.
  revert res0. induction l as [|[p st] l IH]; intros res0 Hs; simpl.
  - now rewrite app_nil_r.
  - simpl in Hs. destruct (listed p) eqn:El.
    + rewrite od_set_fresh.
      * rewrite IH.
        -- now rewrite <- app_assoc.
        -- unfold keys in *. rewrite map_app, <- app_assoc. exact Hs.
      * apply has_false.
        apply (StronglySorted_app_before _ _ _ _ Hs).
    + apply IH. apply (StronglySorted_app_drop _ _ _ _ Hs).
Qed.

Lemma listed_not_unknown (p : key) : listed p = true -> p <> KStr "unknown".
Proof. intros H ->. discriminate. Qed.

(** C4: whenever the opening-duel table is returned, every entry has
    [net = first_kills - first_deaths], the literal name "unknown" is not a
    key, and the entries are in descending order of net, entries of equal
    net in the order in which their players were first encountered in the
    kill facts (killer before victim, match after match). *)
Theorem opening_duel_table (series_data : list series)
    (table : odict duel_stats) :
  analyze_opening_duels series_data = Ok table ->
  (forall player stats, In (player, stats) table ->
     net stats = Z.of_nat (first_kills stats) - Z.of_nat (first_deaths stats)) /\
  (forall player stats, In (player, stats) table ->
     player <> KStr "unknown") /\
  StronglySorted (Spec.duel_order (Spec.mentions series_data)) table.
Proof.
  unfold analyze_opening_duels.
  destruct (count_kills series_data) as [ps|e] eqn:Ec; simpl; [|discriminate].
  intros H; injection H as <-.
  destruct (count_kills_order _ _ Ec) as [Hs [Hlt Hcov]].
  set (names := Spec.mentions series_data) in *.
  assert (Hne : StronglySorted (fun a b => key_eqb a b = false) (keys ps)).
  { eapply StronglySorted_weaken; [|exact Hs]. simpl. intros a b Hab.
    destruct (key_eqb a b) eqn:E; [|reflexivity].
    rewrite (first_mention_congr a b names E) in Hab. lia. }
  rewrite (add_player_loop ps []) by exact Hne. simpl.
  set (res := map (fun item => (fst item, duel_entry (snd item)))
                  (filter (fun item => listed (fst item)) ps)).
  assert (Hres : forall player stats, In (player, stats) res ->
            listed player = true /\ exists c, stats = duel_entry c).
  { intros player stats Hin. unfold res in Hin.
    apply in_map_iff in Hin as [[p c] [Heq Hin]].
    injection Heq as <- <-. apply filter_In in Hin as [_ Hl]. eauto. }
  split; [|split].
  - intros player stats Hin. apply sorted_desc_In in Hin.
    destruct (Hres _ _ Hin) as [_ [c ->]]. reflexivity.
  - intros player stats Hin. apply sorted_desc_In in Hin.
    destruct (Hres _ _ Hin) as [Hl _]. now apply listed_not_unknown.
  - apply (sorted_desc_stable (fun x : key * duel_stats => net (snd x))
             (fun a b => (Spec.first_mention (fst a) names
                          < Spec.first_mention (fst b) names)%nat)).
    unfold res. apply StronglySorted_map. simpl.
    apply StronglySorted_filter.
    apply (StronglySorted_map fst
             (fun a b => (Spec.first_mention a names
                          < Spec.first_mention b names)%nat)).
    exact Hs.
Qed.

(** Scenario C: X and Y both end with net 0; X, encountered first, stays
    first. *)
Lemma opening_duel_table_witness :
  exists table,
    analyze_opening_duels trade = Ok table /\
    keys table = [KStr "X"; KStr "Y"] /\
    StronglySorted (Spec.duel_order (Spec.mentions trade)) table.
Proof.
  eexists. split; [reflexivity|]. split; [reflexivity|].
  apply (opening_duel_table trade). reflexivity.
Defined.

(** ** The report summary *)

Lemma max_by_spec {A : Type} (f : A -> Z) (l : list A) (x : A) :
  In (max_by f x l) (x :: l) /\
  forall y, In y (x :: l) -> f y <= f (max_by f x l).
Proof.
  unfold max_by. revert x. induction l as [|z l IH]; intros x; simpl.
  - split; [now left|]. intros y [<-|[]]. lia.
  - destruct (f x <? f z) eqn:E.
    + apply Z.ltb_lt in E. destruct (IH z) as [Hin Hmax]. split.
      * right. exact Hin.
      * intros y [<-|Hy]; [|now apply Hmax].
        specialize (Hmax z (or_introl eq_refl)). lia.
    + apply Z.ltb_ge in E. destruct (IH x) as [Hin Hmax]. split.
      * destruct Hin as [Hin|Hin]; [now left|right; now right].
      * intros y [<-|[<-|Hy]].
        -- apply Hmax. now left.
        -- specialize (Hmax x (or_introl eq_refl)). lia.
        -- apply Hmax. now right.
Qed.

(** C8, as the claim states it, fails: with plants on "Bind" and then on
    "Ascent" the view lists "Bind" first, and the takeaways name the primary
    site of "Bind", although "Ascent" is the lexicographically first map. *)
Lemma summary_takes_first_listed_map :
  exists view,
    analyze_attack_site_preference bind_then_ascent = Ok view /\
    keys view = [KStr "Bind"; KStr "Ascent"] /\
    ("Ascent" <? "Bind")%string = true /\
    _section_summary no_maps view []
    = ["## TL;DR - Key Takeaways"; ""; "- **Primary site (Bind):** B"; ""] /\
    ~ In (Spec.primary_site_line (KStr "Ascent") (KStr "A"))
         (_section_summary no_maps view []).
Proof.
  eexists. split; [reflexivity|]. split; [reflexivity|].
  split; [reflexivity|]. split; [reflexivity|].
  vm_compute. intros [H|[H|[H|[H|[]]]]]; discriminate.
Qed.

(** C8 (amended): the Key Takeaways read only the first map of the
    attack-site-preference view in the view's own order (the order in which
    the maps were first encountered), whatever follows it.  When the counts
    of that map are not empty they show its primary site, a site of greatest
    count; when they are empty no primary site is shown. *)
Theorem summary_primary_site (maps_played : map_pool) (map_name : key)
    (data : site_stats) (rest : odict site_stats)
    (opening_duels : odict duel_stats) :
  _section_summary maps_played ((map_name, data) :: rest) opening_duels
  = _section_summary maps_played [(map_name, data)] opening_duels /\
  match counts data with
  | [] =>
      _section_summary maps_played ((map_name, data) :: rest) opening_duels
      = _section_summary maps_played [] opening_duels
  | x :: l =>
      let site := max_by by_count x l in
      In site (counts data) /\
      (forall other, In other (counts data) -> (snd other <= snd site)%nat) /\
      In (Spec.primary_site_line map_name (fst site))
         (_section_summary maps_played ((map_name, data) :: rest)
            opening_duels)
  end.
Proof.
  split; [reflexivity|].
  destruct (counts data) as [|x l] eqn:Ec.
  - unfold _section_summary. simpl firstn. simpl fold_left. now rewrite Ec.
  - cbv zeta. destruct (max_by_spec by_count l x) as [Hin Hmax].
    split; [assumption|]. split.
    + intros other Ho. apply Nat2Z.inj_le. exact (Hmax other Ho).
    + unfold _section_summary. simpl firstn. simpl fold_left. rewrite Ec.
      apply in_or_app. left.
      destruct opening_duels; [|apply in_or_app; left];
        apply in_or_app; right; now left.
Qed.

(** ** Repeated calls *)


(** ** When the views are returned

    The properties above are stated for the calls that return.  The
    aggregation raises only on a name that cannot be hashed (a JSON array or
    object used as a map, site or player name). *)

Lemma foldM_returns {A B : Type} (f : A -> B -> result A) (l : list B) (a : A) :
  (forall acc x, In x l -> exists acc', f acc x = Ok acc') ->
  exists a', foldM f l a = Ok a'.
Proof.
  revert a. induction l as [|x l IH]; intros a H; simpl.
  - eauto.
  - destruct (H a x (or_introl eq_refl)) as [a1 ->]. simpl.
    apply IH. intros acc y Hy. apply H. now right.
Qed.

Lemma hashable_key (v : value) :
  hashable v = true -> exists k, hash_key v = Ok k.
Proof. unfold hashable. destruct (hash_key v); [eauto|discriminate]. Qed.

Lemma tally_returns (l : list value) (seen : odict nat) :
  Forall (fun v => hashable v = true) l -> exists c, tally l seen = Ok c.
Proof.
  intros H. revert seen. induction H as [|v l Hv _ IH]; intros seen; simpl.
  - eauto.
  - destruct v; simpl in *; try discriminate; apply IH.
Qed.

Lemma value_counts_returns (l : list value) :
  Forall (fun v => hashable v = true) l -> exists c, value_counts l = Ok c.
Proof.
  intros H. unfold value_counts.
  destruct (tally_returns l [] H) as [c ->]. simpl. eauto.
Qed.

Lemma analyze_maps_played_returns (series_data : list series) :
  Forall (fun map_info => hashable (map_name_of map_info) = true)
         (Spec.descriptors series_data) ->
  exists pool, analyze_maps_played series_data = Ok pool.
Proof.
  intros H. unfold analyze_maps_played. rewrite collect_maps_spec.
  destruct (filter truthy (map map_name_of (Spec.descriptors series_data)))
    as [|n names] eqn:E; [eauto|].
  destruct (value_counts_returns (n :: names)) as [c ->]; [|simpl; eauto].
  rewrite <- E. apply Forall_forall. intros v Hv.
  apply filter_In in Hv as [Hv _]. apply in_map_iff in Hv as [m [<- Hm]].
  rewrite Forall_forall in H. now apply H.
Qed.

Lemma credit_returns (bump : counters -> counters) (name : value)
    (ps : odict counters) :
  Forall (fun v => hashable v = true) (filter truthy [name]) ->
  exists ps', credit bump name ps = Ok ps'.
Proof.
  unfold credit. simpl. destruct (truthy name); [|eauto].
  intros H. inversion H as [|? ? Hn _]; subst.
  destruct (hashable_key _ Hn) as [k ->]. simpl. eauto.
Qed.

Lemma analyze_opening_duels_returns (series_data : list series) :
  Forall (fun name => hashable name = true) (Spec.mentions series_data) ->
  exists table, analyze_opening_duels series_data = Ok table.
Proof.
  intros H. unfold analyze_opening_duels, count_kills.
  rewrite foldM_flat_map.
  destruct (foldM_returns count_kill
              (flat_map (fun s => kills (events s)) series_data) [])
    as [ps ->]; [|simpl; eauto].
  intros acc kill Hk.
  assert (Hc : Forall (fun v => hashable v = true) (Spec.credited kill)).
  { rewrite Forall_forall in *. intros v Hv. apply H.
    unfold Spec.mentions. apply in_flat_map. eauto. }
  unfold Spec.credited in Hc. simpl in Hc. unfold count_kill.
  destruct (credit_returns add_kill (get kill "killer") acc) as [ps1 ->].
  { simpl. destruct (truthy (get kill "killer")); [|constructor].
    inversion Hc; subst. constructor; [assumption|constructor]. }
  simpl. apply credit_returns.
  simpl. destruct (truthy (get kill "victim")); [|constructor].
  destruct (truthy (get kill "killer")); inversion Hc as [|? ? H1 H2]; subst.
  - inversion H2; subst. constructor; [assumption|constructor].
  - constructor; [assumption|constructor].
Qed.

Lemma analyze_plant_sites_returns (series_data : list series) :
  Forall (fun plant =>
            hashable (get_default plant "map" (VStr "unknown")) = true /\
            hashable (Spec.site_of plant) = true)
         (Spec.plants series_data) ->
  exists view, analyze_plant_sites series_data = Ok view.
Proof.
  intros H. unfold analyze_plant_sites, group_plants.
  rewrite foldM_flat_map. fold (Spec.plants series_data).
  destruct (foldM_returns group_plant (Spec.plants series_data) [])
    as [pbm Eg].
  { intros acc plant Hp. rewrite Forall_forall in H.
    destruct (H plant Hp) as [Hm _]. unfold group_plant.
    destruct (hashable_key _ Hm) as [k ->]. simpl. eauto. }
  rewrite Eg. simpl.
  destruct (group_plant_sites _ _ Eg) as [Hd Hfind].
  apply foldM_returns. intros acc [m sites] Hin. simpl.
  destruct sites as [|s sites]; [eauto|].
  pose proof (od_find_In _ _ _ Hd Hin) as Hf. rewrite Hfind in Hf.
  assert (Hs : Spec.sites_on m (Spec.plants series_data) = s :: sites).
  { destruct (Spec.sites_on m (Spec.plants series_data));
      [discriminate|congruence]. }
  unfold site_entry.
  destruct (value_counts_returns (s :: sites)) as [c ->]; [|simpl; eauto].
  rewrite <- Hs. unfold Spec.sites_on. apply Forall_forall. intros v Hv.
  apply in_map_iff in Hv as [plant [<- Hp]]. apply filter_In in Hp as [Hp _].
  rewrite Forall_forall in H. now apply H.
Qed.

(** * Further properties of the code *)

(** ** The event normalizer on whole streams *)

(** A decoded value that is not a JSON object raises [AttributeError] before
    anything is recorded. *)
Lemma process_event_not_dict (file : string) (event : value)
    (st : event_facts) :
  Spec.is_dict event = false ->
  process_event file event st = (st, Raise AttributeError).
Proof.
  intros H. unfold process_event, bind, lift, capture_schema.
  destruct event; try discriminate;
    destruct (schema_preview st); reflexivity.
Qed.

Ltac facts_appended Hplant Hkill :=
  rewrite ?app_nil_r; repeat split; try reflexivity; repeat constructor;
  try (apply Hplant; reflexivity); try (apply Hkill; reflexivity).

(** One turn of the loop body on any record: facts are only appended, every
    appended fact comes from a record its classifier accepted, and a schema
    preview that is set stays as it is. *)
Lemma process_event_effect (file : string) (event : value) (st : event_facts) :
  let st' := fst (process_event file event st) in
  (exists ps ks,
     spike_plants st' = spike_plants st ++ ps /\
     kills st' = kills st ++ ks /\
     Forall Spec.plant_fact_ok ps /\ Forall Spec.kill_fact_ok ks) /\
  (schema_preview st <> [] -> schema_preview st' = schema_preview st).
Proof.
  assert (Hnil : forall st0 : event_facts,
             exists ps ks : list pydict,
               spike_plants st0 = spike_plants st0 ++ ps /\
               kills st0 = kills st0 ++ ks /\
               Forall Spec.plant_fact_ok ps /\ Forall Spec.kill_fact_ok ks).
  { intros st0. exists [], []. rewrite !app_nil_r. auto. }
  destruct (Spec.is_dict event) eqn:Edict.
  2:{ rewrite (process_event_not_dict _ _ _ Edict). simpl. auto. }
  destruct event as [| | | | |d]; try discriminate. clear Edict.
  assert (Hplant : forall p, _is_spike_plant (VDict d) = Ok true ->
                        _extract_plant_info (VDict d) = Some p ->
                        Spec.plant_fact_ok p).
  { intros p Hp Hx. simpl in Hx. injection Hx as <-. split; [|exact Hp].
    unfold get at 1, get_default at 1. simpl lookup. unfold py_or.
    destruct (truthy (get d "map")) eqn:E1; [assumption|].
    destruct (truthy (get d "map_name")) eqn:E2; [assumption|reflexivity]. }
  assert (Hkill : forall k, _is_kill (VDict d) = Ok true ->
                       _extract_kill_info (VDict d) = Some k ->
                       Spec.kill_fact_ok k).
  { intros k Hk Hx. simpl in Hx. injection Hx as <-. exact Hk. }
  destruct (_extract_plant_info (VDict d)) as [plant|] eqn:Eplant;
    [|discriminate].
  destruct (_extract_kill_info (VDict d)) as [kill|] eqn:Ekill;
    [|discriminate].
  assert (Tp : truthy (VDict plant) = true)
    by (simpl in Eplant; injection Eplant as <-; reflexivity).
  assert (Tk : truthy (VDict kill) = true)
    by (simpl in Ekill; injection Ekill as <-; reflexivity).
  unfold process_event, bind, lift, capture_schema, ret, push_plant, push_kill,
    push_round, modify.
  rewrite Eplant, Ekill, Tp, Tk.
  destruct (_is_spike_plant (VDict d)) as [[|]|ep] eqn:Hp;
    destruct (_is_kill (VDict d)) as [[|]|ek] eqn:Hk;
    destruct (rbind (round_of (VDict d)) hash_key) as [k|er];
    destruct (schema_preview st) as [|s0 sp] eqn:Es; cbn [fst snd];
    cbn [spike_plants kills schema_preview events_by_round];
    (split; [|intros Hne; try reflexivity; try (exfalso; now apply Hne)]);
    try rewrite Es; try reflexivity;
    first
      [ solve [exists [plant], [kill]; facts_appended Hplant Hkill]
      | solve [exists [plant], []; facts_appended Hplant Hkill]
      | solve [exists [], [kill]; facts_appended Hplant Hkill]
      | solve [exists [], []; facts_appended Hplant Hkill] ].
Qed.

Lemma process_line_effect (file : string) (l : line) (st : event_facts) :
  let st' := fst (process_line file l st) in
  (exists ps ks,
     spike_plants st' = spike_plants st ++ ps /\
     kills st' = kills st ++ ks /\
     Forall Spec.plant_fact_ok ps /\ Forall Spec.kill_fact_ok ks) /\
  (schema_preview st <> [] -> schema_preview st' = schema_preview st).
Proof.
  destruct l as [| |event]; [| |apply process_event_effect];
    simpl; (split; [|reflexivity]); exists [], [];
    rewrite !app_nil_r; auto.
Qed.

Lemma for_lines_effect (file : string) (lines : list line) (st : event_facts) :
  let st' := fst (for_lines file lines st) in
  (exists ps ks,
     spike_plants st' = spike_plants st ++ ps /\
     kills st' = kills st ++ ks /\
     Forall Spec.plant_fact_ok ps /\ Forall Spec.kill_fact_ok ks) /\
  (schema_preview st <> [] -> schema_preview st' = schema_preview st).
Proof.
  revert st. induction lines as [|l lines IH]; intros st; simpl.
  - split; [|reflexivity]. exists [], []. rewrite !app_nil_r. auto.
  - unfold bind.
    destruct (process_line_effect file l st) as [[ps [ks [Hp [Hk [Fp Fk]]]]] Hs].
    destruct (process_line file l st) as [st1 [[]|e]]; simpl in *.
    + destruct (IH st1) as [[ps' [ks' [Hp' [Hk' [Fp' Fk']]]]] Hs'].
      split.
      * exists (ps ++ ps'), (ks ++ ks').
        rewrite Hp', Hk', Hp, Hk, <- !app_assoc.
        repeat split; apply Forall_app; auto.
      * intros Hne. rewrite Hs', Hs; auto. now rewrite Hs.
    + split; [|assumption]. exists ps, ks. auto.
Qed.

Lemma parse_files_effect (files : list jsonl_file) (st : event_facts) :
  let st' := fold_left parse_file files st in
  (exists ps ks,
     spike_plants st' = spike_plants st ++ ps /\
     kills st' = kills st ++ ks /\
     Forall Spec.plant_fact_ok ps /\ Forall Spec.kill_fact_ok ks) /\
  (schema_preview st <> [] -> schema_preview st' = schema_preview st).
Proof.
  revert st. induction files as [|f files IH]; intros st; simpl.
  - split; [|reflexivity]. exists [], []. rewrite !app_nil_r. auto.
  - destruct (for_lines_effect (fst f) (snd f) st)
      as [[ps [ks [Hp [Hk [Fp Fk]]]]] Hs].
    fold (parse_file st f) in *.
    destruct (IH (parse_file st f)) as [[ps' [ks' [Hp' [Hk' [Fp' Fk']]]]] Hs'].
    split.
    + exists (ps ++ ps'), (ks ++ ks').
      rewrite Hp', Hk', Hp, Hk, <- !app_assoc.
      repeat split; apply Forall_app; auto.
    + intros Hne. rewrite Hs', Hs; auto. now rewrite Hs.
Qed.

(** The first statement of the loop body records the preview of a JSON
    object when none is set, even if a later statement raises. *)
Lemma first_record_sets_schema (file : string) (d : pydict)
    (st : event_facts) :
  schema_preview st = [] ->
  schema_preview (fst (process_event file (VDict d) st))
  = [ ("sample_keys", VList (map VStr (firstn 10 (map fst d))));
      ("file", VStr file) ].
Proof.
  intros Hs.
  set (st0 := {| spike_plants := spike_plants st; kills := kills st;
                 events_by_round := events_by_round st;
                 schema_preview :=
                   [ ("sample_keys", VList (map VStr (firstn 10 (map fst d))));
                     ("file", VStr file) ] |}).
  assert (E : process_event file (VDict d) st
              = process_event file (VDict d) st0).
  { unfold process_event. unfold bind at 1. unfold bind at 5.
    unfold capture_schema. rewrite Hs. reflexivity. }
  rewrite E. destruct (process_event_effect file (VDict d) st0) as [_ H].
  simpl in H. rewrite H; [reflexivity|discriminate].
Qed.

Lemma parse_events_is_fold (files : list jsonl_file) :
  parse_events files = fold_left parse_file files no_events.
Proof. destruct files; reflexivity. Qed.

(** The classifiers lower-case before they search: a kill whose type is
    spelled with the Kelvin sign is a kill and yields its fact. *)
Lemma kelvin_sign_kill_is_classified :
  _is_kill kelvin_kill = Ok true /\
  List.length (kills (parse_events [("e.jsonl"%string, [Json kelvin_kill])]))
  = 1%nat.
Proof. split; reflexivity. Qed.

(** X1: for every stream, each plant fact of the result has a truthy map
    (never null or empty) and carries a raw event that the plant classifier
    accepts; each kill fact carries a raw event that the kill classifier
    accepts. *)
Theorem parsed_facts_are_classified (files : list jsonl_file) :
  Forall Spec.plant_fact_ok (spike_plants (parse_events files)) /\
  Forall Spec.kill_fact_ok (kills (parse_events files)).
Proof.
  rewrite parse_events_is_fold.
  destruct (parse_files_effect files no_events)
    as [[ps [ks [Hp [Hk [Fp Fk]]]]] _].
  rewrite Hp, Hk. simpl. auto.
Qed.

(** X2: files are read one after the other and facts are only appended: the
    plant and kill facts of a stream's first files are a prefix of the facts
    of the whole stream, whatever the later files contain. *)
Theorem later_files_only_append (first later : list jsonl_file) :
  exists plants kills_,
    spike_plants (parse_events (first ++ later))
    = spike_plants (parse_events first) ++ plants /\
    kills (parse_events (first ++ later))
    = kills (parse_events first) ++ kills_.
Proof.
  rewrite !parse_events_is_fold, fold_left_app.
  destruct (parse_files_effect later (fold_left parse_file first no_events))
    as [[ps [ks [Hp [Hk _]]]] _].
  eauto.
Qed.

(** X3: the schema preview is taken from the first record of the stream and
    never replaced: when the first non-blank line of the first file is a
    JSON object, the preview holds that object's first ten keys and that
    file's name, whatever the record is and whatever follows it. *)
Theorem schema_preview_from_first_record (file : string) (blanks : nat)
    (d : pydict) (rest : list line) (others : list jsonl_file) :
  schema_preview
    (parse_events ((file, repeat Blank blanks ++ Json (VDict d) :: rest)
                   :: others))
  = [ ("sample_keys", VList (map VStr (firstn 10 (map fst d))));
      ("file", VStr file) ].
Proof.
  rewrite parse_events_is_fold. simpl fold_left.
  set (preview := [ ("sample_keys", VList (map VStr (firstn 10 (map fst d))));
                    ("file", VStr file) ]).
  assert (Hfirst : schema_preview
                     (parse_file no_events
                        (file, repeat Blank blanks ++ Json (VDict d) :: rest))
                   = preview).
  { unfold parse_file. simpl fst. simpl snd. rewrite for_lines_app.
    assert (Hb : for_lines file (repeat Blank blanks) no_events
                 = (no_events, Ok tt)).
    { induction blanks as [|n IH]; simpl; [reflexivity|].
      unfold bind. simpl. exact IH. }
    rewrite Hb. simpl for_lines. unfold bind at 1.
    destruct (process_event file (VDict d) no_events) as [st1 r1] eqn:E1.
    assert (H1 : schema_preview st1 = preview).
    { replace st1 with (fst (process_event file (VDict d) no_events))
        by now rewrite E1.
      apply first_record_sets_schema. reflexivity. }
    destruct r1 as [[]|e]; [|exact H1].
    destruct (for_lines_effect file rest st1) as [_ Hs].
    simpl in Hs. rewrite Hs; [exact H1|]. rewrite H1. discriminate. }
  destruct (parse_files_effect others
              (parse_file no_events
                 (file, repeat Blank blanks ++ Json (VDict d) :: rest)))
    as [_ Hs].
  simpl in Hs. rewrite Hs; [exact Hfirst|]. rewrite Hfirst. discriminate.
Qed.

Lemma sample_keys_at_most_ten (d : pydict) :
  (List.length (map VStr (firstn 10 (map fst d))) <= 10)%nat.
Proof. rewrite length_map. apply firstn_le_length. Qed.

(** X4: a line that decodes to something other than a JSON object (an array,
    a string, a number, null) ends the processing of its file exactly like a
    malformed line: nothing of it is recorded and the lines after it are not
    read. *)
Theorem non_object_line_ends_its_file
    (before : list jsonl_file) (file : string) (pre post : list line)
    (event : value) (after : list jsonl_file) :
  Spec.is_dict event = false ->
  parse_events (before ++ (file, pre ++ Json event :: post) :: after) =
  parse_events (before ++ (file, pre ++ Malformed :: post) :: after).
Proof.
  intros H. rewrite !parse_events_fold. f_equal.
  unfold parse_file; simpl. rewrite !for_lines_app.
  destruct (for_lines file pre _) as [st' [[]|e]]; [|reflexivity].
  simpl. unfold bind. rewrite (process_event_not_dict _ _ _ H). reflexivity.
Qed.

Lemma non_object_line_ends_its_file_witness :
  parse_events array_line
  = parse_events [("a.jsonl", [Json plant_null_site; Malformed;
                               Json kill_and_plant])]
  /\ List.length (spike_plants (parse_events array_line)) = 1%nat.
Proof.
  split; [|reflexivity].
  apply (non_object_line_ends_its_file [] "a.jsonl" [Json plant_null_site]
           [Json kill_and_plant] (VList [VInt 1]) []).
  reflexivity.
Defined.

Lemma for_lines_not_blank (file : string) (lines : list line)
    (st : event_facts) :
  for_lines file (filter Spec.not_blank lines) st = for_lines file lines st.
Proof.
  revert st. induction lines as [|l lines IH]; intros st; [reflexivity|].
  destruct l as [| |event]; simpl.
  - unfold bind. simpl. apply IH.
  - reflexivity.
  - unfold bind. destruct (process_event file event st) as [st1 [[]|e]];
      [apply IH|reflexivity].
Qed.

(** X5: blank lines carry nothing: removing them from every file leaves the
    result unchanged. *)
Theorem blank_lines_are_ignored (files : list jsonl_file) :
  parse_events (map (fun f => (fst f, filter Spec.not_blank (snd f))) files)
  = parse_events files.
Proof.
  rewrite !parse_events_is_fold. generalize no_events.
  induction files as [|f files IH]; intros st; simpl; [reflexivity|].
  rewrite IH. f_equal. unfold parse_file. simpl.
  now rewrite for_lines_not_blank.
Qed.

Lemma process_event_regular (file : string) (event : value)
    (st : event_facts) :
  Spec.regular event = true ->
  exists st',
    process_event file event st = (st', Ok tt) /\
    spike_plants st'
    = spike_plants st
      ++ Spec.facts_of _is_spike_plant _extract_plant_info [event] /\
    kills st'
    = kills st ++ Spec.facts_of _is_kill _extract_kill_info [event] /\
    events_by_round st' = Spec.group_rounds [event] (events_by_round st).
Proof.
  destruct event as [| | | | |d]; try discriminate. intros Hr.
  assert (Hp : exists p, _is_spike_plant (VDict d) = Ok p).
  { simpl in *. destruct (get_default d "event_type" (VStr ""));
      try discriminate. eauto. }
  assert (Hk : exists k, _is_kill (VDict d) = Ok k).
  { simpl in *. destruct (get_default d "event_type" (VStr ""));
      try discriminate. eauto. }
  assert (Hround : exists k, rbind (round_of (VDict d)) hash_key = Ok k).
  { simpl in *. destruct (get_default d "event_type" (VStr ""));
      try discriminate. now apply hashable_key. }
  destruct Hp as [p Hp], Hk as [k Hk], Hround as [r Hround].
  unfold Spec.facts_of, Spec.classified, Spec.group_rounds.
  cbn [flat_map fold_left]. rewrite Hp, Hk, Hround, !app_nil_r.
  unfold process_event, bind, lift, capture_schema, ret, push_plant, push_kill,
    push_round, modify.
  rewrite Hp, Hk, Hround.
  destruct (schema_preview st), p, k; eexists;
    (split; [reflexivity|]);
    cbn [spike_plants kills events_by_round]; rewrite ?app_nil_r;
    repeat split; reflexivity.
Qed.

Lemma facts_of_app (classify : value -> result bool)
    (extract : value -> option pydict) (l1 l2 : list value) :
  Spec.facts_of classify extract (l1 ++ l2)
  = Spec.facts_of classify extract l1 ++ Spec.facts_of classify extract l2.
Proof. unfold Spec.facts_of. apply flat_map_app. Qed.

Lemma group_rounds_app (l1 l2 : list value) (acc : odict (list value)) :
  Spec.group_rounds (l1 ++ l2) acc
  = Spec.group_rounds l2 (Spec.group_rounds l1 acc).
Proof. unfold Spec.group_rounds. apply fold_left_app. Qed.

Lemma for_lines_clean (file : string) (lines : list line) (st : event_facts) :
  forallb (fun l => match l with
                    | Blank => true
                    | Malformed => false
                    | Json e => Spec.regular e
                    end) lines = true ->
  exists st',
    for_lines file lines st = (st', Ok tt) /\
    spike_plants st'
    = spike_plants st
      ++ Spec.facts_of _is_spike_plant _extract_plant_info
           (Spec.records_of lines) /\
    kills st'
    = kills st
      ++ Spec.facts_of _is_kill _extract_kill_info (Spec.records_of lines) /\
    events_by_round st'
    = Spec.group_rounds (Spec.records_of lines) (events_by_round st).
Proof.
  revert st. induction lines as [|l lines IH]; intros st Hc.
  - exists st. simpl. rewrite !app_nil_r. auto.
  - simpl in Hc. apply andb_true_iff in Hc as [Hl Hc].
    destruct l as [| |event]; [|discriminate|].
    + simpl. unfold bind. simpl. apply IH, Hc.
    + destruct (process_event_regular file event st Hl)
        as [st1 [E1 [Hp1 [Hk1 Hr1]]]].
      destruct (IH st1 Hc) as [st' [E [Hp [Hk Hr]]]].
      exists st'. simpl for_lines. unfold bind. rewrite E1.
      split; [exact E|].
      change (Spec.records_of (Json event :: lines))
        with ([event] ++ Spec.records_of lines).
      rewrite !facts_of_app, group_rounds_app, !app_assoc,
        <- Hp1, <- Hk1, <- Hr1.
      auto.
Qed.

Lemma parse_files_clean (files : list jsonl_file) (st : event_facts) :
  Spec.clean files = true ->
  let st' := fold_left parse_file files st in
  spike_plants st'
  = spike_plants st
    ++ Spec.facts_of _is_spike_plant _extract_plant_info (Spec.records files) /\
  kills st'
  = kills st ++ Spec.facts_of _is_kill _extract_kill_info (Spec.records files) /\
  events_by_round st'
  = Spec.group_rounds (Spec.records files) (events_by_round st).
Proof.
  revert st. induction files as [|f files IH]; intros st Hc.
  - simpl. rewrite !app_nil_r. auto.
  - simpl in Hc. apply andb_true_iff in Hc as [Hf Hc].
    destruct (for_lines_clean (fst f) (snd f) st Hf)
      as [st1 [E1 [Hp1 [Hk1 Hr1]]]].
    cbv zeta. simpl fold_left.
    replace (parse_file st f) with st1 by (unfold parse_file; now rewrite E1).
    destruct (IH st1 Hc) as [Hp [Hk Hr]].
    change (Spec.records (f :: files))
      with (Spec.records_of (snd f) ++ Spec.records files).
    rewrite !facts_of_app, group_rounds_app, !app_assoc,
      <- Hp1, <- Hk1, <- Hr1.
    auto.
Qed.

(** X6: on a stream without malformed lines whose records are all regular
    (JSON objects with a string or absent "event_type" and a hashable
    "round_id"), nothing is dropped and nothing is reordered: the plant facts
    are the extractions of exactly the records the plant classifier accepts,
    in reading order across lines and files, and likewise the kill facts. *)
Theorem clean_stream_facts (files : list jsonl_file) :
  Spec.clean files = true ->
  spike_plants (parse_events files)
  = Spec.facts_of _is_spike_plant _extract_plant_info (Spec.records files) /\
  kills (parse_events files)
  = Spec.facts_of _is_kill _extract_kill_info (Spec.records files).
Proof.
  intros Hc. rewrite parse_events_is_fold.
  destruct (parse_files_clean files no_events Hc) as [Hp [Hk _]].
  auto.
Qed.

Lemma clean_stream_facts_witness :
  List.length (spike_plants (parse_events clean_stream)) = 2%nat /\
  spike_plants (parse_events clean_stream)
  = Spec.facts_of _is_spike_plant _extract_plant_info
      (Spec.records clean_stream) /\
  kills (parse_events clean_stream)
  = Spec.facts_of _is_kill _extract_kill_info (Spec.records clean_stream).
Proof.
  split; [reflexivity|].
  apply (clean_stream_facts clean_stream). reflexivity.
Defined.

Lemma in_round_congr (a b : key) (event : value) :
  key_eqb a b = true -> Spec.in_round a event = Spec.in_round b event.
Proof.
  intros H. unfold Spec.in_round.
  destruct (rbind (round_of event) hash_key) as [k|e]; [|reflexivity].
  rewrite (key_eqb_sym k a), (key_eqb_sym k b). now apply key_eqb_congr.
Qed.

Lemma group_rounds_find (events : list value) :
  distinct (Spec.group_rounds events []) /\
  forall k, od_find k (Spec.group_rounds events [])
            = match filter (Spec.in_round k) events with
              | [] => None
              | group => Some group
              end.
Proof.
  induction events as [|e events IH] using rev_ind.
  - split; [constructor|reflexivity].
  - destruct IH as [Hd Hfind]. rewrite group_rounds_app.
    unfold Spec.group_rounds at 1 3. simpl fold_left.
    destruct (rbind (round_of e) hash_key) as [k0|err] eqn:Er.
    + split; [now apply od_update_distinct|].
      intros k. unfold od_append. rewrite od_find_update, filter_app.
      simpl filter. unfold Spec.in_round at 2. rewrite Er.
      destruct (key_eqb k0 k) eqn:E.
      * rewrite Hfind.
        assert (Hsame : filter (Spec.in_round k0) events
                        = filter (Spec.in_round k) events).
        { apply filter_ext. intros x. now apply in_round_congr. }
        rewrite Hsame.
        destruct (filter (Spec.in_round k) events); reflexivity.
      * rewrite app_nil_r. apply Hfind.
    + split; [assumption|]. intros k. rewrite filter_app. simpl filter.
      unfold Spec.in_round at 2. rewrite Er, app_nil_r. apply Hfind.
Qed.

(** X7: on such a stream the round grouping is a partition of the records:
    no two groups have the same round key, and under each round key stand
    exactly the records of that round ("round_id", or "unknown" when the key
    is absent), in reading order; a round without records has no group. *)
Theorem clean_stream_rounds (files : list jsonl_file) :
  Spec.clean files = true ->
  distinct (events_by_round (parse_events files)) /\
  forall k,
    od_find k (events_by_round (parse_events files))
    = match filter (Spec.in_round k) (Spec.records files) with
      | [] => None
      | group => Some group
      end.
Proof.
  intros Hc. rewrite parse_events_is_fold.
  destruct (parse_files_clean files no_events Hc) as [_ [_ Hr]].
  rewrite Hr. apply group_rounds_find.
Qed.

Lemma clean_stream_rounds_witness :
  od_find (KInt 3) (events_by_round (parse_events clean_stream))
  = Some [ kill_and_plant;
           VDict [("type", VStr "kill"); ("round_id", VInt 3)] ] /\
  forall k,
    od_find k (events_by_round (parse_events clean_stream))
    = match filter (Spec.in_round k) (Spec.records clean_stream) with
      | [] => None
      | group => Some group
      end.
Proof.
  split; [reflexivity|].
  apply (clean_stream_rounds clean_stream). reflexivity.
Defined.

(** ** Counting with [value_counts] *)

Lemma insert_desc_perm {A : Type} (f : A -> Z) (x : A) (l : list A) :
  Permutation (x :: l) (insert_desc f x l).
Proof.
  induction l as [|y l IH]; simpl; [reflexivity|].
  destruct (f y <=? f x); [reflexivity|].
  rewrite perm_swap. now constructor.
Qed.

Lemma sorted_desc_perm {A : Type} (f : A -> Z) (l : list A) :
  Permutation l (sorted_desc f l).
Proof.
  induction l as [|x l IH]; simpl; [reflexivity|].
  rewrite <- insert_desc_perm. now constructor.
Qed.

Lemma distinct_perm {V : Type} (d1 d2 : odict V) :
  Permutation d1 d2 -> distinct d1 -> distinct d2.
Proof.
  unfold distinct, keys. intros Hp. apply Permutation_NoDup.
  now do 2 apply Permutation_map.
Qed.

(** Looking a key up does not depend on the order of a dict. *)
Lemma od_find_perm {V : Type} (k : key) (d1 d2 : odict V) :
  Permutation d1 d2 -> distinct d1 -> od_find k d1 = od_find k d2.
Proof.
  induction 1 as [|[kx vx] l l' Hp IH|[kx vx] [ky vy] l|l l' l'' H1 IH1 H2 IH2];
    intros Hd.
  - reflexivity.
  - simpl. destruct (key_eqb kx k); [reflexivity|].
    apply IH. unfold distinct, keys in *. simpl in Hd. now inversion Hd.
  - simpl. destruct (key_eqb ky k) eqn:Ey, (key_eqb kx k) eqn:Ex;
      try reflexivity.
    exfalso. unfold distinct, keys in Hd. simpl in Hd.
    inversion Hd as [|? ? Hnot _]; subst. apply Hnot. left.
    apply key_eqb_norm in Ex, Ey. congruence.
  - rewrite IH1 by assumption. apply IH2. eapply distinct_perm; eauto.
Qed.

Lemma count_in_update (k0 k : key) (seen : odict nat) :
  Spec.count_in k (od_update 0%nat S k0 seen)
  = if key_eqb k0 k then S (Spec.count_in k seen) else Spec.count_in k seen.
Proof.
  unfold Spec.count_in. rewrite od_find_update.
  destruct (key_eqb k0 k) eqn:E; [|reflexivity].
  now rewrite (od_find_congr k0 k seen E).
Qed.

(** No count of a dict is zero. *)
Lemma od_update_positive (k0 : key) (seen : odict nat) :
  Forall (fun e => (0 < snd e)%nat) seen ->
  Forall (fun e => (0 < snd e)%nat) (od_update 0%nat S k0 seen).
Proof.
  induction 1 as [|[k n] seen Hn Hseen IH]; simpl.
  - repeat constructor.
  - destruct (key_eqb k k0); constructor; try assumption.
    simpl. lia.
Qed.

Lemma occurrences_cons (k : key) (v : value) (l : list value) :
  Spec.occurrences k (v :: l)
  = ((if Spec.names_player k v then 1 else 0) + Spec.occurrences k l)%nat.
Proof.
  unfold Spec.occurrences. simpl. now destruct (Spec.names_player k v).
Qed.

Lemma tally_counts (l : list value) (seen c : odict nat) :
  tally l seen = Ok c ->
  distinct seen -> Forall (fun e => (0 < snd e)%nat) seen ->
  distinct c /\ Forall (fun e => (0 < snd e)%nat) c /\
  forall k, Spec.count_in k c
            = (Spec.count_in k seen
               + Spec.occurrences k (Spec.non_null l))%nat.
Proof.
  revert seen. induction l as [|v l IH]; intros seen H Hd Hpos.
  - simpl in H. injection H as <-. repeat split; auto.
  - assert (Hstep : forall k0, hash_key v = Ok k0 ->
              Spec.non_null (v :: l) = v :: Spec.non_null l ->
              tally l (od_update 0%nat S k0 seen) = Ok c ->
              distinct c /\ Forall (fun e => (0 < snd e)%nat) c /\
              forall k, Spec.count_in k c
                        = (Spec.count_in k seen
                           + Spec.occurrences k (Spec.non_null (v :: l)))%nat).
    { intros k0 Hk0 Hnn H'.
      destruct (IH _ H' (od_update_distinct _ _ _ _ Hd)
                  (od_update_positive _ _ Hpos)) as [Hd' [Hp' Hc']].
      repeat split; auto. intros k.
      rewrite Hc', count_in_update, Hnn, occurrences_cons.
      unfold Spec.names_player. rewrite Hk0, (key_eqb_sym k0 k).
      destruct (key_eqb k k0); lia. }
    destruct v; simpl in H; try discriminate;
      try (eapply Hstep; [reflexivity|reflexivity|exact H]).
    apply (IH _ H Hd Hpos).
Qed.

Lemma count_in_positive (k : key) (d : odict nat) :
  Forall (fun e => (0 < snd e)%nat) d ->
  od_find k d = Spec.as_count (Spec.count_in k d).
Proof.
  unfold Spec.count_in. induction 1 as [|[k' n] d Hn _ IH]; simpl.
  - reflexivity.
  - destruct (key_eqb k' k); [|exact IH].
    simpl in Hn. destruct n; [lia|reflexivity].
Qed.

(** [value_counts] holds, for every value, the number of its occurrences
    among the non-null elements, and no entry for a value that does not
    occur. *)
Lemma value_counts_find (l : list value) (c : odict nat) :
  value_counts l = Ok c ->
  distinct c /\
  forall k, od_find k c
            = Spec.as_count (Spec.occurrences k (Spec.non_null l)).
Proof.
  unfold value_counts.
  destruct (tally l []) as [seen|e] eqn:E; simpl; [|discriminate].
  intros H; injection H as <-.
  destruct (tally_counts _ _ _ E) as [Hd [Hpos Hc]];
    [constructor|constructor|].
  split.
  - eapply distinct_perm; [apply sorted_desc_perm|assumption].
  - intros k. rewrite <- (od_find_perm k _ _ (sorted_desc_perm _ seen) Hd).
    rewrite (count_in_positive k seen Hpos), Hc. reflexivity.
Qed.



(** ** The grouping of the plants

    The key order of a [defaultdict]: a key that is updated keeps its place,
    a new key goes last. *)
Lemma od_update_order {V : Type} (dflt : V) (f : V -> V) (name : value)
    (k0 : key) (names : list value) (d : odict V) :
  hash_key name = Ok k0 ->
  Spec.in_mention_order names d ->
  Spec.in_mention_order (names ++ [name]) (od_update dflt f k0 d).
Proof.
  intros Ek [Hs [Hlt Hcov]].
  assert (Hk0 : Spec.first_mention k0 [name] = 0%nat).
  { simpl. unfold Spec.names_player. now rewrite Ek, key_eqb_refl. }
  assert (Hold : forall k, (Spec.first_mention k names < List.length names)%nat ->
                 Spec.first_mention k (names ++ [name])
                 = Spec.first_mention k names).
  { intros k Hk. rewrite first_mention_app.
    apply Nat.ltb_lt in Hk. now rewrite Hk. }
  assert (Hnew : forall k, ~ (Spec.first_mention k names < List.length names)%nat ->
                 (Spec.first_mention k (names ++ [name]) < List.length names + 1)%nat ->
                 key_eqb k0 k = true).
  { intros k Hk Hk'. rewrite first_mention_app in Hk'.
    apply Nat.ltb_nlt in Hk. rewrite Hk in Hk'. simpl in Hk'.
    unfold Spec.names_player in Hk'. rewrite Ek in Hk'.
    destruct (key_eqb k0 k); [reflexivity|lia]. }
  assert (Hkeys := od_update_keys dflt f k0 d).
  unfold Spec.in_mention_order. rewrite length_app. simpl List.length.
  destruct (has k0 d) eqn:Eh; rewrite Hkeys.
  - (* the key is already in the dict *)
    split; [|split].
    + now apply first_mention_extend.
    + eapply Forall_impl; [|exact Hlt]. intros k Hk. simpl in Hk.
      rewrite (Hold k Hk). lia.
    + intros k Hk. unfold has. rewrite Hkeys. fold (has k d).
      destruct (Nat.lt_ge_cases (Spec.first_mention k names) (List.length names))
        as [Hin|Hout].
      * now apply Hcov.
      * rewrite <- (has_congr k0 k d); [assumption|].
        apply Hnew; [lia|assumption].
  - (* a new key goes last *)
    assert (Hfresh : Spec.first_mention k0 names = List.length names).
    { pose proof (first_mention_le k0 names).
      destruct (Nat.eq_dec (Spec.first_mention k0 names) (List.length names));
        [assumption|].
      rewrite Hcov in Eh; [discriminate|lia]. }
    assert (Hk0' : Spec.first_mention k0 (names ++ [name]) = List.length names).
    { rewrite first_mention_app, Hfresh, Nat.ltb_irrefl, Hk0. lia. }
    split; [|split].
    + apply StronglySorted_snoc.
      * now apply first_mention_extend.
      * eapply Forall_impl; [|exact Hlt]. intros k Hk. simpl in Hk.
        rewrite (Hold k Hk), Hk0'. assumption.
    + apply Forall_app. split.
      * eapply Forall_impl; [|exact Hlt]. intros k Hk. simpl in Hk.
        rewrite (Hold k Hk). lia.
      * constructor; [|constructor]. rewrite Hk0'. lia.
    + intros k Hk. unfold has. rewrite Hkeys, existsb_app. simpl.
      destruct (Nat.lt_ge_cases (Spec.first_mention k names) (List.length names))
        as [Hin|Hout].
      * apply Hcov in Hin. unfold has in Hin. now rewrite Hin.
      * rewrite (Hnew k); [apply orb_true_r|lia|assumption].
Qed.
Lemma distinct_nonequiv {V : Type} (d : odict V) :
  distinct d -> StronglySorted (fun a b => key_eqb a b = false) (keys d).
Proof.
  unfold distinct. induction (keys d) as [|k ks IH]; simpl; intros Hd.
  - constructor.
  - inversion Hd as [|? ? Hnot Hd']; subst. constructor; [auto|].
    apply Forall_forall. intros k' Hk'.
    destruct (key_eqb k k') eqn:E; [|reflexivity].
    exfalso. apply Hnot. apply key_eqb_norm in E. rewrite E.
    now apply in_map.
Qed.

Lemma total_length_append {A : Type} (k : key) (x : A) (d : odict (list A)) :
  Spec.total_length (od_append k x d) = S (Spec.total_length d).
Proof.
  unfold od_append. induction d as [|[k' xs] d IH]; simpl; [reflexivity|].
  destruct (key_eqb k' k); simpl.
  - rewrite length_app. simpl. lia.
  - rewrite IH. lia.
Qed.

(** The grouping loop: every plant lands in one list, no list is empty, and
    the maps stand in the order of their first plant. *)
Lemma group_plant_shape (plants : list pydict)
    (plants_by_map : odict (list value)) :
  foldM group_plant plants [] = Ok plants_by_map ->
  filled plants_by_map /\
  Spec.total_length plants_by_map = List.length plants /\
  Spec.in_mention_order (Spec.plant_maps plants) plants_by_map.
Proof.
  apply (foldM_invariant group_plant
           (fun done pbm =>
              filled pbm /\
              Spec.total_length pbm = List.length done /\
              Spec.in_mention_order (Spec.plant_maps done) pbm)).
  - split; [constructor|]. split; [reflexivity|].
    apply in_mention_order_nil.
  - intros done plant pbm pbm' [Hf [Hl Ho]] Hstep.
    unfold group_plant in Hstep.
    destruct (hash_key (get_default plant "map" (VStr "unknown")))
      as [k0|e] eqn:Ek; simpl in Hstep; [|discriminate].
    injection Hstep as <-. split; [|split].
    + now apply od_append_filled.
    + rewrite total_length_append, length_app, Hl. simpl. lia.
    + unfold Spec.plant_maps. rewrite map_app. simpl map.
      now apply od_update_order.
Qed.

(** On groups with different keys and no empty list the second loop turns
    every group into one entry, in order. *)
Lemma site_entries_shape (groups : odict (list value))
    (res0 view : odict site_stats) :
  foldM add_site_entry groups res0 = Ok view ->
  filled groups ->
  StronglySorted (fun a b => key_eqb a b = false) (keys res0 ++ keys groups) ->
  exists entries,
    view = res0 ++ entries /\
    Forall2 (fun g e => fst e = fst g /\ site_entry (snd g) = Ok (snd e))
            groups entries.
Proof.
  revert res0. induction groups as [|[m sites] groups IH]; intros res0 H Hf Hs.
  - simpl in H. injection H as <-. exists []. rewrite app_nil_r.
    split; [reflexivity|constructor].
  - inversion Hf as [|? ? Hne Hf']; subst. simpl in Hne.
    simpl in H. destruct sites as [|s sites]; [easy|].
    destruct (site_entry (s :: sites)) as [e|err] eqn:Ee; simpl in H;
      [|discriminate].
    simpl in Hs.
    rewrite od_set_fresh in H
      by (apply has_false, (StronglySorted_app_before _ _ _ _ Hs)).
    destruct (IH (res0 ++ [(m, e)]) H Hf') as [entries [Hv Hall]].
    { unfold keys in *. rewrite map_app, <- app_assoc. exact Hs. }
    exists ((m, e) :: entries). split.
    + now rewrite Hv, <- app_assoc.
    + constructor; [split; [reflexivity|exact Ee]|exact Hall].
Qed.

Lemma plant_view_shape (series_data : list series) (view : odict site_stats) :
  analyze_plant_sites series_data = Ok view ->
  exists groups,
    foldM group_plant (Spec.plants series_data) [] = Ok groups /\
    Forall2 (fun g e => fst e = fst g /\ site_entry (snd g) = Ok (snd e))
            groups view.
Proof.
  unfold analyze_plant_sites, group_plants. rewrite foldM_flat_map.
  fold (Spec.plants series_data).
  destruct (foldM group_plant (Spec.plants series_data) []) as [pbm|err] eqn:Eg;
    simpl; [|discriminate].
  intros Hview. exists pbm. split; [reflexivity|].
  destruct (group_plant_shape _ _ Eg) as [Hf _].
  destruct (group_plant_sites _ _ Eg) as [Hd _].
  destruct (site_entries_shape pbm [] view Hview Hf) as [entries [-> Hall]].
  - simpl. now apply distinct_nonequiv.
  - exact Hall.
Qed.

Lemma Forall2_keys {V W : Type} (P : key * V -> key * W -> Prop)
    (d : odict V) (d' : odict W) :
  Forall2 (fun g e => fst e = fst g /\ P g e) d d' -> keys d' = keys d.
Proof.
  induction 1 as [|g e d d' [Hk _] _ IH]; simpl; [reflexivity|].
  now rewrite Hk, IH.
Qed.

(** X9: whenever the plant-site view is returned, no map is listed twice,
    the maps stand in the order in which their first plant is encountered,
    and every plant is counted in exactly one map: the totals add up to the
    number of plant facts of the input. *)
Theorem plant_view_partition (series_data : list series)
    (view : odict site_stats) :
  analyze_plant_sites series_data = Ok view ->
  distinct view /\
  Spec.in_mention_order (Spec.plant_maps (Spec.plants series_data)) view /\
  Spec.sum_totals view = List.length (Spec.plants series_data).
Proof.
  intros H. destruct (plant_view_shape _ _ H) as [groups [Eg Hall]].
  destruct (group_plant_shape _ _ Eg) as [Hf [Hl Ho]].
  destruct (group_plant_sites _ _ Eg) as [Hd _].
  pose proof (Forall2_keys _ _ _ Hall) as Hk.
  split; [|split].
  - unfold distinct. now rewrite Hk.
  - destruct Ho as [Hs [Hlt Hcov]]. unfold Spec.in_mention_order, has.
    rewrite Hk. repeat split; assumption.
  - rewrite <- Hl. clear -Hall.
    induction Hall as [|g e d d' [_ He] _ IH]; simpl; [reflexivity|].
    destruct (site_entry_fields _ _ He) as [Ht _]. now rewrite Ht, IH.
Qed.

Lemma plant_view_partition_witness :
  exists view,
    analyze_plant_sites bind_then_ascent = Ok view /\
    keys view = [KStr "Bind"; KStr "Ascent"] /\
    Spec.sum_totals view = 2%nat /\
    Spec.in_mention_order
      (Spec.plant_maps (Spec.plants bind_then_ascent)) view.
Proof.
  eexists. split; [reflexivity|]. split; [reflexivity|].
  split; [reflexivity|].
  apply (plant_view_partition bind_then_ascent). reflexivity.
Defined.

Lemma od_find_Forall2 {V W : Type} (P : V -> W -> Prop)
    (d : odict V) (d' : odict W) :
  Forall2 (fun g e => fst e = fst g /\ P (snd g) (snd e)) d d' ->
  forall m,
    match od_find m d, od_find m d' with
    | Some v, Some w => P v w
    | None, None => True
    | _, _ => False
    end.
Proof.
  induction 1 as [|[k v] [k' w] d d' [Hk HP] _ IH]; intros m; simpl;
    [exact I|].
  simpl in Hk, HP. subst k'. destruct (key_eqb k m); [exact HP|apply IH].
Qed.

(** The view holds an entry for exactly the maps that have a plant, built
    from the sites of the plants of that map, in order. *)
Lemma view_entry_of_map (series_data : list series)
    (view : odict site_stats) :
  analyze_plant_sites series_data = Ok view ->
  distinct view /\
  forall m,
    match od_find m view with
    | None => Spec.sites_on m (Spec.plants series_data) = []
    | Some e =>
        Spec.sites_on m (Spec.plants series_data) <> [] /\
        site_entry (Spec.sites_on m (Spec.plants series_data)) = Ok e
    end.
Proof.
  intros H. destruct (plant_view_shape _ _ H) as [groups [Eg Hall]].
  destruct (group_plant_sites _ _ Eg) as [Hd Hfind].
  split.
  - unfold distinct. now rewrite (Forall2_keys _ _ _ Hall).
  - intros m.
    pose proof (od_find_Forall2 (fun sites e => site_entry sites = Ok e)
                  groups view Hall m) as Hm.
    rewrite Hfind in Hm.
    destruct (Spec.sites_on m (Spec.plants series_data)) as [|s sites],
             (od_find m view) as [e|]; try contradiction.
    + reflexivity.
    + split; [discriminate|assumption].
Qed.

(** The counts of an entry are the occurrences of the sites. *)
Lemma site_entry_counts (sites : list value) (e : site_stats) :
  site_entry sites = Ok e ->
  forall site,
    od_find site (counts e)
    = Spec.as_count (Spec.occurrences site (Spec.non_null sites)).
Proof.
  unfold site_entry.
  destruct (value_counts sites) as [c|err] eqn:Ec; simpl; [|discriminate].
  intros H; injection H as <-. simpl counts.
  now destruct (value_counts_find _ _ Ec) as [_ Hc].
Qed.

(** Every count has its percentage: the double of a decimal with one digit
    that is a thousand times the share of the count in the total, rounded to
    the nearest integer, up to the error of the float operations. *)
Lemma site_entry_percentages (sites : list value) (e : site_stats) :
  sites <> [] ->
  site_entry sites = Ok e ->
  keys (percentages e) = keys (counts e) /\
  forall site count,
    In (site, count) (counts e) ->
    exists tenths : Z,
      In (site, binary64 (tenths # 10)) (percentages e) /\
      (Qabs (inject_Z tenths
             - 1000 * (inject_Z (Z.of_nat count)
                       / inject_Z (Z.of_nat (total e))))
       <= (1 # 2) + pow2 (-40))%Q.
Proof.
  intros Hne He. destruct (site_entry_fields _ _ He) as [Ht [_ Hp]].
  pose proof (site_entry_counts_le _ _ He) as Hle.
  assert (Hpos : (0 < List.length sites)%nat).
  { destruct sites; [congruence|simpl; lia]. }
  split.
  - rewrite Hp. unfold keys. rewrite map_map. reflexivity.
  - intros site count Hin. rewrite Forall_forall in Hle.
    destruct (percentage_tenths count (List.length sites) Hpos (Hle _ Hin))
      as [tenths [Heq Hb]].
    exists tenths. rewrite Ht. split; [|exact Hb].
    rewrite Hp, <- Heq.
    apply (in_map (fun kv => (fst kv, percentage (snd kv) (List.length sites)))
             _ _ Hin).
Qed.

(** C2: on every list of match bundles the attack-site-preference view and
    the plant-site view are the same structured value (the same exception,
    when a map or site name cannot be hashed).  When it is returned, the
    view groups the plants by map: no map is listed twice, a map is listed
    exactly when it has a plant, and its [total] is the number of its
    plants.  It computes a percentage per counted site: the float of a
    decimal with one digit whose tenths are 1000 * count / total rounded to
    the nearest integer (up to the error of the two float operations
    before, less than 2^-40).  And it counts by site: when the sites of the
    map are strings or null, which pandas counts as they are, the count of a
    site is the number of plants of the map at that site, and a site without
    a plant has no count. *)
Theorem attack_site_preference_is_plant_sites (series_data : list series) :
  analyze_attack_site_preference series_data = analyze_plant_sites series_data
  /\
  forall view,
    analyze_plant_sites series_data = Ok view ->
    distinct view /\
    forall m,
      let sites := Spec.sites_on m (Spec.plants series_data) in
      match od_find m view with
      | None => sites = []
      | Some e =>
          sites <> [] /\
          total e = List.length sites /\
          keys (percentages e) = keys (counts e) /\
          (forall site count,
             In (site, count) (counts e) ->
             exists tenths : Z,
               In (site, binary64 (tenths # 10)) (percentages e) /\
               (Qabs (inject_Z tenths
                      - 1000 * (inject_Z (Z.of_nat count)
                                / inject_Z (Z.of_nat (total e))))
                <= (1 # 2) + pow2 (-40))%Q) /\
          (Forall (fun site => Spec.is_label site = true) sites ->
           forall site,
             od_find site (counts e)
             = Spec.as_count (Spec.occurrences site (Spec.non_null sites)))
      end.
Proof.
  split.
  - unfold analyze_attack_site_preference, analyze_plant_sites, group_plants.
    change group_attack with group_plant.
    match goal with |- rbind ?m _ = _ => destruct m as [plants_by_map|e] end;
      simpl; [|reflexivity].
    apply foldM_ext, add_attack_entry_eq.
  - intros view Hview.
    destruct (view_entry_of_map _ _ Hview) as [Hd Hm].
    split; [exact Hd|]. intros m. cbv zeta. specialize (Hm m).
    destruct (od_find m view) as [e|]; [|exact Hm].
    destruct Hm as [Hne He].
    destruct (site_entry_fields _ _ He) as [Ht _].
    destruct (site_entry_percentages _ _ Hne He) as [Hk Hp].
    repeat split; try assumption.
    intros _. now apply site_entry_counts.
Qed.

(** Scenario B for both views: sites A, A, B on "Bind". *)
Lemma attack_site_preference_is_plant_sites_witness :
  exists e,
    analyze_attack_site_preference bind_aab = Ok [(KStr "Bind", e)] /\
    counts e = [(KStr "A", 2%nat); (KStr "B", 1%nat)] /\
    percentages e = [(KStr "A", binary64 (667 # 10));
                     (KStr "B", binary64 (333 # 10))] /\
    total e = 3%nat /\
    analyze_attack_site_preference bind_aab = analyze_plant_sites bind_aab /\
    forall site,
      od_find site (counts e)
      = Spec.as_count
          (Spec.occurrences site
             (Spec.non_null (Spec.sites_on (KStr "Bind")
                               (Spec.plants bind_aab)))).
Proof.
  eexists. split; [vm_compute; reflexivity|].
  split; [reflexivity|]. split; [vm_compute; reflexivity|].
  split; [reflexivity|].
  destruct (attack_site_preference_is_plant_sites bind_aab) as [Heq Hview].
  split; [exact Heq|].
  destruct (Hview _ eq_refl) as [_ Hm]. specialize (Hm (KStr "Bind")).
  destruct Hm as [_ [_ [_ [_ Hc]]]]. apply Hc. repeat constructor.
Defined.

(** X10: whenever the plant-site view is returned, for a map whose plants
    have a string or null for their site (the values pandas counts as they
    are), the count the map's entry holds for a site is the number of plants
    of that map at that site, and a site without a plant on that map has no
    count. *)
Theorem plant_site_counts (series_data : list series)
    (view : odict site_stats) (m : key) (e : site_stats) :
  analyze_plant_sites series_data = Ok view ->
  In (m, e) view ->
  Forall (fun site => Spec.is_label site = true)
         (Spec.sites_on m (Spec.plants series_data)) ->
  forall site,
    od_find site (counts e)
    = Spec.as_count
        (Spec.occurrences site
           (Spec.non_null (Spec.sites_on m (Spec.plants series_data)))).
Proof.
  intros H Hin _.
  destruct (view_entry_of_map _ _ H) as [Hd Hm]. specialize (Hm m).
  rewrite (od_find_In _ _ _ Hd Hin) in Hm. destruct Hm as [_ He].
  now apply site_entry_counts.
Qed.

Lemma plant_site_counts_witness :
  exists e,
    analyze_plant_sites bind_aab = Ok [(KStr "Bind", e)] /\
    od_find (KStr "A") (counts e) = Some 2%nat /\
    forall site,
      od_find site (counts e)
      = Spec.as_count
          (Spec.occurrences site
             (Spec.non_null (Spec.sites_on (KStr "Bind")
                               (Spec.plants bind_aab)))).
Proof.
  eexists. split; [vm_compute; reflexivity|]. split; [reflexivity|].
  apply (plant_site_counts bind_aab _ (KStr "Bind") _ eq_refl
           (or_introl eq_refl)).
  repeat constructor.
Defined.

(** ** The counters of the opening duels *)

Lemma credits_app (field : string) (p : key) (l1 l2 : list pydict) :
  Spec.credits field p (l1 ++ l2)
  = (Spec.credits field p l1 + Spec.credits field p l2)%nat.
Proof. unfold Spec.credits. now rewrite filter_app, length_app. Qed.

Lemma credits_one_kill (field : string) (p : key) (kill : pydict) :
  Spec.credits field p [kill]
  = if Spec.credits_one field p kill then 1%nat else 0%nat.
Proof.
  unfold Spec.credits, Spec.credits_one. simpl.
  now destruct (truthy (get kill field) && Spec.names_player p (get kill field)).
Qed.

Lemma counters_of_update (bump : counters -> counters) (k0 k : key)
    (ps : odict counters) :
  Spec.counters_of k (od_update new_counters bump k0 ps)
  = if key_eqb k0 k then bump (Spec.counters_of k ps)
    else Spec.counters_of k ps.
Proof.
  unfold Spec.counters_of. rewrite od_find_update.
  destruct (key_eqb k0 k) eqn:E; [|reflexivity].
  now rewrite (od_find_congr k0 k ps E).
Qed.

Lemma credit_counters (bump : counters -> counters) (name : value)
    (ps ps' : odict counters) :
  credit bump name ps = Ok ps' ->
  distinct ps ->
  distinct ps' /\
  forall k, Spec.counters_of k ps'
            = if truthy name && Spec.names_player k name
              then bump (Spec.counters_of k ps)
              else Spec.counters_of k ps.
Proof.
  unfold credit. destruct (truthy name).
  2:{ intros H; injection H as <-. auto. }
  destruct (hash_key name) as [k0|e] eqn:Ek; simpl; [|discriminate].
  intros H Hd; injection H as <-. split.
  - now apply od_update_distinct.
  - intros k. rewrite counters_of_update. unfold Spec.names_player.
    now rewrite Ek.
Qed.

(** After the counting loop the counters of every player are the numbers of
    kill facts that name the player as killer and as victim. *)
Lemma count_kills_counters (series_data : list series) (ps : odict counters) :
  count_kills series_data = Ok ps ->
  distinct ps /\
  forall k,
    cnt_kills (Spec.counters_of k ps)
    = Spec.credits "killer" k (Spec.all_kills series_data) /\
    cnt_deaths (Spec.counters_of k ps)
    = Spec.credits "victim" k (Spec.all_kills series_data).
Proof.
  unfold count_kills, Spec.all_kills. rewrite foldM_flat_map.
  apply (foldM_invariant count_kill
           (fun done ps =>
              distinct ps /\
              forall k,
                cnt_kills (Spec.counters_of k ps)
                = Spec.credits "killer" k done /\
                cnt_deaths (Spec.counters_of k ps)
                = Spec.credits "victim" k done)).
  - split; [constructor|]. intros k. split; reflexivity.
  - intros done kill acc acc' [Hd Hc] Hstep. unfold count_kill in Hstep.
    destruct (credit add_kill (get kill "killer") acc) as [ps1|e] eqn:E1;
      simpl in Hstep; [|discriminate].
    destruct (credit_counters _ _ _ _ E1 Hd) as [Hd1 Hc1].
    destruct (credit_counters _ _ _ _ Hstep Hd1) as [Hd2 Hc2].
    split; [assumption|]. intros k.
    rewrite !credits_app, !credits_one_kill, Hc2, Hc1.
    destruct (Hc k) as [Hk Hv]. unfold Spec.credits_one.
    destruct (truthy (get kill "victim")
              && Spec.names_player k (get kill "victim"));
      destruct (truthy (get kill "killer")
                && Spec.names_player k (get kill "killer"));
      simpl; rewrite ?Hk, ?Hv; split; lia.
Qed.

Lemma listed_congr (a b : key) :
  key_eqb a b = true -> listed a = listed b.
Proof.
  intros H. unfold listed. f_equal.
  - apply key_eqb_norm in H. destruct a as [|[]|za|sa], b as [|[]|zb|sb];
      simpl in *; try discriminate; try reflexivity;
      injection H as H; subst; reflexivity.
  - f_equal. now apply key_eqb_congr.
Qed.

Lemma first_mention_In (p : key) (name : value) (names : list value) :
  In name names -> hash_key name = Ok p ->
  (Spec.first_mention p names < List.length names)%nat.
Proof.
  intros Hin Hp. induction names as [|v names IH]; [destruct Hin|].
  simpl. destruct (Spec.names_player p v) eqn:E; [lia|].
  destruct Hin as [->|Hin].
  - unfold Spec.names_player in E. rewrite Hp, key_eqb_refl in E.
    discriminate.
  - specialize (IH Hin). lia.
Qed.

Lemma has_exists {V : Type} (k : key) (d : odict V) :
  has k d = true -> exists k' v, In (k', v) d /\ key_eqb k' k = true.
Proof.
  unfold has, keys. rewrite existsb_exists. intros [k' [Hin Heq]].
  apply in_map_iff in Hin as [[k0 v] [<- Hin]]. eauto.
Qed.

(** The table before sorting, entry by entry. *)
Lemma duel_table_entries (series_data : list series)
    (table : odict duel_stats) :
  analyze_opening_duels series_data = Ok table ->
  exists ps,
    count_kills series_data = Ok ps /\
    forall p s, In (p, s) table <->
                listed p = true /\ exists c, In (p, c) ps /\ s = duel_entry c.
Proof.
  unfold analyze_opening_duels.
  destruct (count_kills series_data) as [ps|e] eqn:Ec; simpl; [|discriminate].
  intros H; injection H as <-. exists ps. split; [reflexivity|].
  destruct (count_kills_counters _ _ Ec) as [Hd _].
  rewrite (add_player_loop ps []) by (now apply distinct_nonequiv). simpl.
  intros p s. rewrite sorted_desc_In, in_map_iff. split.
  - intros [[p0 c] [Heq Hin]]. injection Heq as <- <-.
    apply filter_In in Hin as [Hin Hl]. eauto.
  - intros [Hl [c [Hin ->]]]. exists (p, c). split; [reflexivity|].
    apply filter_In. auto.
Qed.

(** X11: whenever the opening-duel table is returned, the kills and deaths
    of every listed player are the numbers of kill facts, over all matches,
    that name the player as killer and as victim; and every named player
    other than "unknown" is listed. *)
Theorem duel_table_counts (series_data : list series)
    (table : odict duel_stats) :
  analyze_opening_duels series_data = Ok table ->
  (forall player stats, In (player, stats) table ->
     first_kills stats
     = Spec.credits "killer" player (Spec.all_kills series_data) /\
     first_deaths stats
     = Spec.credits "victim" player (Spec.all_kills series_data)) /\
  (forall name player,
     In name (Spec.mentions series_data) -> hash_key name = Ok player ->
     listed player = true ->
     exists player' stats,
       In (player', stats) table /\ key_eqb player' player = true).
Proof.
  intros H. destruct (duel_table_entries _ _ H) as [ps [Ec Hin]].
  destruct (count_kills_counters _ _ Ec) as [Hd Hc].
  split.
  - intros p s Hp. apply Hin in Hp as [_ [c [Hpc ->]]].
    pose proof (od_find_In _ _ _ Hd Hpc) as Hf.
    destruct (Hc p) as [Hk Hv]. unfold Spec.counters_of in Hk, Hv.
    rewrite Hf in Hk, Hv. auto.
  - intros name p Hname Hp Hl.
    destruct (count_kills_order _ _ Ec) as [_ [_ Hcov]].
    destruct (has_exists p ps (Hcov p (first_mention_In _ _ _ Hname Hp)))
      as [p' [c [Hpc Heq]]].
    exists p', (duel_entry c). split; [|assumption].
    apply Hin. split; [|eauto].
    now rewrite (listed_congr p' p Heq).
Qed.

Lemma duel_table_counts_witness :
  exists table,
    analyze_opening_duels four_kills = Ok table /\
    keys table = [KStr "X"; KStr "Y"] /\
    forall player stats, In (player, stats) table ->
      first_kills stats
      = Spec.credits "killer" player (Spec.all_kills four_kills) /\
      first_deaths stats
      = Spec.credits "victim" player (Spec.all_kills four_kills).
Proof.
  eexists. split; [reflexivity|]. split; [reflexivity|].
  apply (duel_table_counts four_kills). reflexivity.
Defined.

(** ** Composition signatures *)

Lemma ascii_compare_trans (x y z : ascii) :
  Ascii.compare x y <> Gt -> Ascii.compare y z <> Gt ->
  Ascii.compare x z <> Gt /\
  (Ascii.compare x z = Eq -> Ascii.compare x y = Eq /\ Ascii.compare y z = Eq).
Proof.
  unfold Ascii.compare.
  set (a := N_of_ascii x). set (b := N_of_ascii y). set (c := N_of_ascii z).
  intros H1 H2. rewrite N.compare_gt_iff in *.
  rewrite !N.compare_eq_iff. lia.
Qed.

Lemma string_leb_trans (a b c : string) :
  String.leb a b = true -> String.leb b c = true -> String.leb a c = true.
Proof.
  assert (H : forall a b c, String.compare a b <> Gt ->
                            String.compare b c <> Gt ->
                            String.compare a c <> Gt).
  { clear. induction a as [|x a IH]; intros [|y b] [|z c]; simpl;
      try congruence.
    intros H1 H2.
    assert (Hxy : Ascii.compare x y <> Gt)
      by (destruct (Ascii.compare x y); congruence).
    assert (Hyz : Ascii.compare y z <> Gt)
      by (destruct (Ascii.compare y z); congruence).
    destruct (ascii_compare_trans x y z Hxy Hyz) as [Hxz Heq].
    destruct (Ascii.compare x z) eqn:E; try congruence.
    destruct (Heq eq_refl) as [E1 E2]. rewrite E1 in H1. rewrite E2 in H2.
    now apply (IH b c). }
  unfold String.leb. intros H1 H2.
  specialize (H a b c).
  destruct (String.compare a b); try discriminate;
    destruct (String.compare b c); try discriminate;
    destruct (String.compare a c); try reflexivity;
    exfalso; apply H; congruence.
Qed.

Lemma insert_str_perm (x : string) (l : list string) :
  Permutation (x :: l) (insert_str x l).
Proof.
  induction l as [|y l IH]; simpl; [reflexivity|].
  destruct (String.leb x y); [reflexivity|].
  rewrite perm_swap. now constructor.
Qed.

Lemma sorted_str_perm (l : list string) : Permutation l (sorted_str l).
Proof.
  induction l as [|x l IH]; simpl; [reflexivity|].
  rewrite <- insert_str_perm. now constructor.
Qed.

Lemma insert_str_sorted (x : string) (l : list string) :
  StronglySorted (fun a b => String.leb a b = true) l ->
  StronglySorted (fun a b => String.leb a b = true) (insert_str x l).
Proof.
  induction 1 as [|y l Hs IH Hy]; simpl.
  - repeat constructor.
  - destruct (String.leb x y) eqn:E.
    + constructor; [now constructor|]. constructor; [assumption|].
      eapply Forall_impl; [|exact Hy]. intros z Hz.
      now apply (string_leb_trans x y z).
    + constructor; [assumption|].
      apply Forall_forall. intros z Hz.
      apply (Permutation_in _ (Permutation_sym (insert_str_perm x l))) in Hz.
      destruct Hz as [<-|Hz].
      * destruct (String.leb_total x y) as [H|H]; congruence.
      * rewrite Forall_forall in Hy. now apply Hy.
Qed.

Lemma sorted_str_sorted (l : list string) :
  StronglySorted (fun a b => String.leb a b = true) (sorted_str l).
Proof.
  induction l as [|x l IH]; simpl; [constructor|].
  now apply insert_str_sorted.
Qed.

Lemma sorted_unique (l1 l2 : list string) :
  StronglySorted (fun a b => String.leb a b = true) l1 ->
  StronglySorted (fun a b => String.leb a b = true) l2 ->
  Permutation l1 l2 -> l1 = l2.
Proof.
  intros H1. revert l2. induction H1 as [|x l1 Hs1 IH Hx]; intros l2 H2 Hp.
  - now apply Permutation_nil in Hp.
  - destruct l2 as [|y l2];
      [apply Permutation_sym, Permutation_nil in Hp; discriminate|].
    inversion H2 as [|? ? Hs2 Hy]; subst.
    assert (Hxy : x = y).
    { assert (Hin1 : In y (x :: l1))
        by (apply (Permutation_in _ (Permutation_sym Hp)); now left).
      assert (Hin2 : In x (y :: l2))
        by (apply (Permutation_in _ Hp); now left).
      destruct Hin1 as [|Hin1]; [assumption|].
      destruct Hin2 as [|Hin2]; [congruence|].
      rewrite Forall_forall in Hx, Hy.
      apply String.leb_antisym; auto. }
    subst y. f_equal. apply IH; [assumption|].
    now apply Permutation_cons_inv in Hp.
Qed.

Lemma as_strings_spec (agents : list value) :
  as_strings agents
  = if forallb Spec.is_str agents then Ok (Spec.strings_of agents)
    else Raise TypeError.
Proof.
  induction agents as [|v agents IH]; [reflexivity|].
  destruct v; try reflexivity. simpl. rewrite IH.
  now destruct (forallb Spec.is_str agents).
Qed.

Lemma forallb_perm {A : Type} (p : A -> bool) (l1 l2 : list A) :
  Permutation l1 l2 -> forallb p l1 = forallb p l2.
Proof.
  induction 1 as [|x l l' _ IH|x y l|l l' l'' _ IH1 _ IH2]; simpl.
  - reflexivity.
  - now rewrite IH.
  - destruct (p x), (p y); reflexivity.
  - congruence.
Qed.

Lemma strings_of_perm (l1 l2 : list value) :
  Permutation l1 l2 -> Permutation (Spec.strings_of l1) (Spec.strings_of l2).
Proof.
  unfold Spec.strings_of.
  induction 1 as [|x l l' _ IH|x y l|l l' l'' _ IH1 _ IH2]; simpl.
  - reflexivity.
  - now apply Permutation_app_head.
  - rewrite !app_assoc. apply Permutation_app_tail, Permutation_app_comm.
  - now transitivity (flat_map (fun v => match v with
                                         | VStr s => [s]
                                         | _ => []
                                         end) l').
Qed.

(** X12: the composition signature does not depend on the order in which a
    team's agents are listed: two agent lists that are permutations of each
    other give the same signature (or both raise [TypeError], when an agent
    is not a string). *)
Theorem comp_signature_order_free (agents agents' : list value) :
  Permutation agents agents' ->
  comp_signature agents = comp_signature agents'.
Proof.
  intros Hp. unfold comp_signature. rewrite !as_strings_spec.
  rewrite (forallb_perm _ _ _ Hp).
  destruct (forallb Spec.is_str agents'); [|reflexivity].
  simpl. do 2 f_equal.
  apply sorted_unique; try apply sorted_str_sorted.
  rewrite <- !sorted_str_perm. now apply strings_of_perm.
Qed.

Lemma comp_signature_order_free_witness :
  comp_signature [VStr "Jett"; VStr "Astra"; VStr "Sova"] = Ok "Astra+Jett+Sova"
  /\ comp_signature [VStr "Jett"; VStr "Astra"; VStr "Sova"]
     = comp_signature [VStr "Sova"; VStr "Jett"; VStr "Astra"].
Proof.
  split; [reflexivity|].
  apply comp_signature_order_free.
  apply Permutation_sym.
  apply (Permutation_cons_append [VStr "Jett"; VStr "Astra"] (VStr "Sova")).
Defined.

(** ** The composition view and its section of the report *)

Lemma od_set_not_nil {V : Type} (k : key) (v : V) (d : odict V) :
  od_set k v d <> [].
Proof.
  destruct d as [|[k' v'] d]; simpl; [discriminate|].
  destruct (key_eqb k' k); discriminate.
Qed.

Lemma comp_entries_maps (cbm : odict (list string))
    (acc acc' : odict comp_stats * bool) :
  foldM add_comp_entry cbm acc = Ok acc' ->
  filled cbm ->
  (fst acc' = [] <-> fst acc = [] /\ cbm = []).
Proof.
  revert acc. induction cbm as [|[m comp_list] cbm IH]; intros acc H Hf;
    simpl in H.
  - injection H as <-. intuition.
  - inversion Hf as [|? ? Hx Hd]; subst. simpl in Hx.
    destruct acc as [res flag]. destruct comp_list as [|c cs]; [easy|].
    simpl in H.
    destruct (value_counts (VStr c :: map VStr cs)) as [cc|e]; simpl in H;
      [|discriminate].
    apply IH in H; [|assumption]. rewrite H. simpl. split.
    + intros [Hnil _]. now apply od_set_not_nil in Hnil.
    + intros [_ Hnil]. discriminate.
Qed.

(** X13: whenever the composition view is returned, its flag and its maps
    agree: [insufficient_data] is true exactly when [by_map] is empty. *)
Theorem comp_view_flag_matches_maps (series_data : list series)
    (view : comp_frequency) :
  analyze_comp_frequency series_data = Ok view ->
  (insufficient_data view = true <-> by_map view = []).
Proof.
  unfold analyze_comp_frequency.
  destruct (foldM add_series_comps series_data []) as [cbm|e] eqn:E1; simpl;
    [|discriminate].
  destruct (foldM add_comp_entry cbm ([], true)) as [acc|e] eqn:E2; simpl;
    [|discriminate].
  intros H; injection H as <-. simpl.
  destruct (series_loop_empty _ _ _ E1 (Forall_nil _)) as [Hf _].
  rewrite (comp_entries_flag _ _ _ E2 Hf), (comp_entries_maps _ _ _ E2 Hf).
  simpl. destruct cbm; intuition discriminate.
Qed.

Lemma comp_view_flag_matches_maps_witness :
  exists view,
    analyze_comp_frequency no_players_then_comp = Ok view /\
    keys (by_map view) = [KStr "Ascent"; KStr "Bind"] /\
    (insufficient_data view = true <-> by_map view = []).
Proof.
  eexists. split; [reflexivity|]. split; [reflexivity|].
  apply (comp_view_flag_matches_maps no_players_then_comp). reflexivity.
Defined.

Lemma fold_left_lines {A : Type} (P : string -> Prop)
    (f : list string -> A -> list string) (items : list A)
    (lines : list string) :
  (forall lines x, Forall P lines -> Forall P (f lines x)) ->
  Forall P lines -> Forall P (fold_left f items lines).
Proof.
  intros Hf. revert lines. induction items as [|x items IH]; intros lines H.
  - exact H.
  - simpl. apply IH, Hf, H.
Qed.

Lemma Forall_snoc {A : Type} (P : A -> Prop) (l : list A) (x : A) :
  Forall P l -> P x -> Forall P (l ++ [x]).
Proof. intros Hl Hx. apply Forall_app. split; [assumption|now constructor]. Qed.

(** X14: the placeholder "*No composition data available*" is never shown
    for a view that [analyze_comp_frequency] returned: with such a view the
    section is either the insufficient-data notice or the listing by map. *)
Theorem no_composition_placeholder_is_dead (series_data : list series)
    (view : comp_frequency) (lines : list string) :
  analyze_comp_frequency series_data = Ok view ->
  _section_comps view = Ok lines ->
  ~ In "*No composition data available*" lines.
Proof.
  intros Hview. pose proof (comp_view_flag_matches_maps _ _ Hview) as Hflag.
  unfold _section_comps.
  destruct (insufficient_data view) eqn:Ei.
  - intros H; injection H as <-. simpl.
    intros [H|[H|[H|[H|[]]]]]; discriminate.
  - destruct (by_map view) as [|item items] eqn:Em.
    + destruct Hflag as [_ Hflag]. discriminate (Hflag eq_refl).
    + destruct (sorted_items (item :: items)) as [sorted|e]; simpl;
        [|discriminate].
      intros H; injection H as <-.
      set (P := fun l : string => l <> "*No composition data available*").
      assert (Hall : Forall P
                (fold_left
                   (fun lines item =>
                      let '(map_name, data) := item in
                      let lines :=
                        lines ++ [("### " ++ str_key map_name)%string] in
                      let lines := lines ++ [""] in
                      let lines := comp_rows lines (compositions data) in
                      lines ++ [""])
                   sorted ["## Agent Compositions"; ""])).
      { apply fold_left_lines.
        - intros ls [map_name data] Hls.
          apply Forall_snoc; [|discriminate].
          unfold comp_rows. apply fold_left_lines.
          + intros ls' row Hls'. apply Forall_snoc; [assumption|].
            unfold P. simpl. discriminate.
          + apply Forall_snoc; [|discriminate].
            apply Forall_snoc; [assumption|]. unfold P. simpl. discriminate.
        - repeat constructor; discriminate. }
      rewrite Forall_forall in Hall. intros Hin.
      now apply (Hall _ Hin).
Qed.

Lemma no_composition_placeholder_is_dead_witness :
  exists view lines,
    analyze_comp_frequency no_players_then_comp = Ok view /\
    _section_comps view = Ok lines /\
    List.length lines = 10%nat /\
    ~ In "*No composition data available*" lines.
Proof.
  eexists. eexists. split; [reflexivity|]. split; [reflexivity|].
  split; [reflexivity|].
  eapply (no_composition_placeholder_is_dead no_players_then_comp);
    reflexivity.
Defined.

(** ** The opening-duel section *)

Lemma fold_left_rows_length {A : Type}
    (f : list string -> A -> list string) (items : list A)
    (lines : list string) :
  (forall lines x, List.length (f lines x) = S (List.length lines)) ->
  List.length (fold_left f items lines)
  = (List.length lines + List.length items)%nat.
Proof.
  intros Hf. revert lines. induction items as [|x items IH]; intros lines;
    simpl.
  - lia.
  - rewrite IH, Hf. lia.
Qed.

(** X15: the opening-duel section shows the ten first players of the table
    and no more: the entries after the tenth do not change the section, and
    a non-empty table of [n] players gives [min 10 n] rows between the
    four lines of heading and the closing blank line. *)
Theorem duel_section_top_ten (opening_duels : odict duel_stats) :
  _section_opening_duels opening_duels
  = _section_opening_duels (firstn 10 opening_duels) /\
  List.length (_section_opening_duels opening_duels)
  = match opening_duels with
    | [] => 4%nat
    | _ :: _ => (5 + Nat.min 10 (List.length opening_duels))%nat
    end.
Proof.
  destruct opening_duels as [|[p s] table]; [split; reflexivity|]. split.
  - unfold _section_opening_duels at 2.
    change (firstn 10 ((p, s) :: table)) with ((p, s) :: firstn 9 table).
    change (firstn 10 ((p, s) :: firstn 9 table))
      with ((p, s) :: firstn 9 (firstn 9 table)).
    rewrite firstn_firstn, Nat.min_id. reflexivity.
  - unfold _section_opening_duels.
    rewrite length_app, fold_left_rows_length.
    + rewrite length_firstn. simpl List.length. lia.
    + intros lines [player stats]. rewrite length_app. simpl. lia.
Qed.

(** ** The plant-sites section *)

Section SortItems.

Context {V : Type}.

Let le (a b : key) : bool := String.leb (kstr a) (kstr b).
Let sorted_by_key : odict V -> Prop :=
  StronglySorted (fun x y => le (fst x) (fst y) = true).

Lemma insert_item_perm (x : key * V) (l : odict V) :
  Permutation (x :: l) (insert_item le x l).
Proof.
  induction l as [|y l IH]; simpl; [reflexivity|].
  destruct (le (fst x) (fst y)); [reflexivity|].
  rewrite perm_swap. now constructor.
Qed.

Lemma sort_items_perm (d : odict V) : Permutation d (sort_items le d).
Proof.
  induction d as [|x d IH]; simpl; [reflexivity|].
  rewrite <- insert_item_perm. now constructor.
Qed.

Lemma insert_item_sorted (x : key * V) (l : odict V) :
  sorted_by_key l -> sorted_by_key (insert_item le x l).
Proof.
  unfold sorted_by_key, le.
  induction 1 as [|y l Hs IH Hy]; simpl.
  - repeat constructor.
  - destruct (String.leb (kstr (fst x)) (kstr (fst y))) eqn:E.
    + constructor; [now constructor|]. constructor; [assumption|].
      eapply Forall_impl; [|exact Hy]. intros z Hz. simpl in *.
      eapply string_leb_trans; eauto.
    + constructor; [assumption|].
      apply Forall_forall. intros z Hz.
      apply (Permutation_in _ (Permutation_sym (insert_item_perm x l))) in Hz.
      destruct Hz as [<-|Hz].
      * destruct (String.leb_total (kstr (fst x)) (kstr (fst y))) as [H|H];
          congruence.
      * rewrite Forall_forall in Hy. now apply Hy.
Qed.

Lemma sort_items_sorted (d : odict V) : sorted_by_key (sort_items le d).
Proof.
  induction d as [|x d IH]; simpl; [constructor|].
  now apply insert_item_sorted.
Qed.

Lemma sorted_items_unique (l1 l2 : odict V) :
  sorted_by_key l1 -> sorted_by_key l2 -> Permutation l1 l2 ->
  (forall x y, In x l1 -> In y l1 -> kstr (fst x) = kstr (fst y) -> x = y) ->
  l1 = l2.
Proof.
  unfold sorted_by_key, le. intros H1. revert l2.
  induction H1 as [|x l1 Hs1 IH Hx]; intros l2 H2 Hp Hinj.
  - now apply Permutation_nil in Hp.
  - destruct l2 as [|y l2];
      [apply Permutation_sym, Permutation_nil in Hp; discriminate|].
    inversion H2 as [|? ? Hs2 Hy]; subst.
    assert (Hin1 : In y (x :: l1))
      by (apply (Permutation_in _ (Permutation_sym Hp)); now left).
    assert (Hxy : x = y).
    { assert (Hin2 : In x (y :: l2))
        by (apply (Permutation_in _ Hp); now left).
      destruct Hin1 as [|Hin1']; [assumption|].
      destruct Hin2 as [|Hin2]; [congruence|].
      rewrite Forall_forall in Hx, Hy.
      apply Hinj; [now left|now right|].
      apply String.leb_antisym; auto. }
    subst y. f_equal. apply IH; [assumption| |].
    + now apply Permutation_cons_inv in Hp.
    + intros a b Ha Hb. apply Hinj; now right.
Qed.

Lemma string_keys_injective (d : odict V) :
  forallb is_kstr (keys d) = true -> distinct d ->
  forall x y, In x d -> In y d -> kstr (fst x) = kstr (fst y) -> x = y.
Proof.
  unfold distinct, keys. induction d as [|[k v] d IH]; simpl; [easy|].
  intros Hk Hd. apply andb_true_iff in Hk as [Hk Hks].
  inversion Hd as [|? ? Hnot Hd']; subst.
  assert (Hfresh : forall z, In z d -> kstr k <> kstr (fst z)).
  { intros [kz vz] Hz Heq. apply Hnot.
    assert (Hkz : is_kstr kz = true).
    { rewrite forallb_forall in Hks. apply Hks. now apply (in_map fst _ _ Hz). }
    destruct k; try discriminate. destruct kz; try discriminate.
    simpl in Heq. subst.
    change (In (key_norm (KStr s0)) (map key_norm (map fst d))).
    apply in_map. apply (in_map fst _ _ Hz). }
  intros x y [<-|Hx] [<-|Hy] Heq.
  - reflexivity.
  - now apply Hfresh in Heq.
  - symmetry in Heq. now apply Hfresh in Heq.
  - now apply IH.
Qed.

(** With string keys, [sorted(d.items())] depends on the entries of the
    dict, not on their order. *)
Lemma sorted_items_perm (d d' : odict V) :
  Permutation d d' ->
  forallb is_kstr (keys d) = true -> distinct d ->
  sorted_items d = sorted_items d'.
Proof.
  intros Hp Hk Hd.
  assert (Hk' : forallb is_kstr (keys d') = true).
  { rewrite <- Hk. symmetry. apply forallb_perm.
    unfold keys. now apply Permutation_map. }
  pose proof (Permutation_length Hp) as Hlen.
  destruct d as [|x [|y d]].
  - apply Permutation_nil in Hp. now subst.
  - apply Permutation_length_1_inv in Hp. now subst.
  - destruct d' as [|x' [|y' d']]; try discriminate.
    unfold sorted_items. rewrite Hk, Hk'. f_equal.
    apply sorted_items_unique; try apply sort_items_sorted.
    + transitivity (x :: y :: d); [symmetry; apply sort_items_perm|].
      transitivity (x' :: y' :: d'); [exact Hp|apply sort_items_perm].
    + intros a b Ha Hb.
      apply (string_keys_injective _ Hk Hd);
        eapply Permutation_in; try apply Permutation_sym, sort_items_perm;
        assumption.
Qed.

End SortItems.

(** X16: the plant-sites section lists the maps in lexicographic order
    whatever the order of the view: two views with string map names and the
    same entries in different orders render the same section. *)
Theorem plant_section_order_free (view view' : odict site_stats) :
  Permutation view view' ->
  forallb is_kstr (keys view) = true -> distinct view ->
  _section_plant_sites view = _section_plant_sites view'.
Proof.
  intros Hp Hk Hd. unfold _section_plant_sites.
  rewrite (sorted_items_perm _ _ Hp Hk Hd).
  destruct view as [|x view].
  - apply Permutation_nil in Hp. now subst.
  - destruct view' as [|x' view'];
      [apply Permutation_sym, Permutation_nil in Hp; discriminate|].
    reflexivity.
Qed.

Lemma plant_section_order_free_witness :
  exists view lines,
    analyze_plant_sites bind_then_ascent = Ok view /\
    keys view = [KStr "Bind"; KStr "Ascent"] /\
    _section_plant_sites view = Ok lines /\
    firstn 3 lines = ["## Spike Plant Sites"; ""; "### Ascent"] /\
    _section_plant_sites view = _section_plant_sites (rev view).
Proof.
  eexists. eexists. split; [reflexivity|]. split; [reflexivity|].
  split; [reflexivity|]. split; [reflexivity|].
  apply plant_section_order_free.
  - apply Permutation_rev.
  - reflexivity.
  - unfold distinct. simpl. repeat constructor; simpl; intuition discriminate.
Defined.

(** ** The end-state normalizer *)

Lemma od_append_all {A : Type} (P : A -> Prop) (k : key) (x : A)
    (d : odict (list A)) :
  Forall (fun e => Forall P (snd e)) d -> P x ->
  Forall (fun e => Forall P (snd e)) (od_append k x d).
Proof.
  unfold od_append. induction 1 as [|[k' xs] d Hx Hd IH]; simpl; intros Px.
  - repeat constructor. assumption.
  - destruct (key_eqb k' k); constructor; simpl in *; auto.
    apply Forall_app. split; [assumption|now constructor].
Qed.

Lemma team_filter_last (k : key) (done : list value) (player : value) :
  map Spec.agent_of (filter (Spec.on_team k) (done ++ [player]))
  = map Spec.agent_of (filter (Spec.on_team k) done)
    ++ (if Spec.on_team k player then [Spec.agent_of player] else []).
Proof.
  rewrite filter_app, map_app. simpl.
  now destruct (Spec.on_team k player).
Qed.

(** The loop over the players: what it has built after the records [done]. *)
Lemma add_players_loop (records : list value)
    (acc : list pydict * odict (list value)) :
  foldM EndStateParser.add_player records ([], []) = Ok acc ->
  Forall (fun v => Spec.is_dict v = true) records /\
  fst acc = Spec.infos_of records /\
  filled (snd acc) /\
  Forall (fun e => Forall (fun a => truthy a = true) (snd e)) (snd acc) /\
  distinct (snd acc) /\
  forall k, od_find k (snd acc)
            = Spec.as_group
                (map Spec.agent_of (filter (Spec.on_team k) records)).
Proof.
  apply (foldM_invariant EndStateParser.add_player
           (fun done acc =>
              Forall (fun v => Spec.is_dict v = true) done /\
              fst acc = Spec.infos_of done /\
              filled (snd acc) /\
              Forall (fun e => Forall (fun a => truthy a = true) (snd e))
                     (snd acc) /\
              distinct (snd acc) /\
              forall k, od_find k (snd acc)
                        = Spec.as_group
                            (map Spec.agent_of
                                 (filter (Spec.on_team k) done)))).
  - repeat split; try constructor.
  - intros done player [ps cs] acc' [Hdict [Hps [Hf [Ht [Hd Hfind]]]]] Hstep.
    simpl in Hps, Hf, Ht, Hd, Hfind.
    destruct player as [| | | | |p]; try discriminate.
    assert (Hdict' : Forall (fun v => Spec.is_dict v = true)
                            (done ++ [VDict p])).
    { apply Forall_app. split; [assumption|now constructor]. }
    assert (Hinfo : Spec.infos_of (done ++ [VDict p])
                    = Spec.infos_of done ++ [EndStateParser.player_info p]).
    { unfold Spec.infos_of. now rewrite flat_map_app. }
    simpl in Hstep.
    destruct (truthy (py_or (get p "agent") (get p "selected_agent"))) eqn:Ea.
    + destruct (hash_key (get_default p "team" (VStr "unknown")))
        as [k0|e] eqn:Ek; simpl in Hstep; [|discriminate].
      injection Hstep as <-. simpl.
      split; [assumption|]. split; [now rewrite Hps, Hinfo|].
      split; [now apply od_append_filled|].
      split; [now apply od_append_all|].
      split; [now apply od_update_distinct|].
      intros k. unfold od_append. rewrite od_find_update, team_filter_last.
      assert (Hon : Spec.on_team k (VDict p) = key_eqb k0 k).
      { unfold Spec.on_team. simpl Spec.agent_of. now rewrite Ea, Ek. }
      rewrite Hon.
      destruct (key_eqb k0 k) eqn:E.
      * rewrite Hfind.
        assert (Hsame : filter (Spec.on_team k0) done
                        = filter (Spec.on_team k) done).
        { apply filter_ext. intros [| | | | |q]; try reflexivity.
          unfold Spec.on_team. f_equal.
          destruct (hash_key (get_default q "team" (VStr "unknown")));
            [|reflexivity].
          rewrite (key_eqb_sym a k0), (key_eqb_sym a k).
          now apply key_eqb_congr. }
        rewrite Hsame.
        destruct (map Spec.agent_of (filter (Spec.on_team k) done));
          reflexivity.
      * rewrite app_nil_r. apply Hfind.
    + injection Hstep as <-. simpl.
      split; [assumption|]. split; [now rewrite Hps, Hinfo|].
      repeat (split; [assumption|]).
      intros k. rewrite team_filter_last.
      assert (Hon : Spec.on_team k (VDict p) = false).
      { unfold Spec.on_team. simpl Spec.agent_of. now rewrite Ea. }
      rewrite Hon, app_nil_r. apply Hfind.
Qed.

Lemma read_document_players (data : value) (r : EndStateParser.end_state) :
  EndStateParser.read_document data = Ok r ->
  EndStateParser.es_raw_data r = Some data /\
  foldM EndStateParser.add_player (Spec.player_records data) ([], [])
  = Ok (EndStateParser.es_players r, EndStateParser.es_comps r).
Proof.
  unfold EndStateParser.read_document, Spec.player_records.
  destruct (EndStateParser.contains_key "maps" data) as [hm|e]; simpl;
    [|discriminate].
  destruct (if hm then EndStateParser.get_of data "maps" (VList [])
            else Ok (VList [])) as [m|e]; simpl; [|discriminate].
  destruct (EndStateParser.contains_key "players" data) as [[|]|e]; simpl;
    try discriminate.
  - destruct (EndStateParser.get_of data "players" (VList [])) as [all|e];
      simpl; [|discriminate].
    destruct (EndStateParser.iterate all) as [items|e]; simpl; [|discriminate].
    destruct (foldM EndStateParser.add_player items ([], []))
      as [[ps cs]|e]; simpl; [|discriminate].
    intros H; injection H as <-. simpl. auto.
  - intros H; injection H as <-. simpl. auto.
Qed.

Lemma parse_end_state_cases (file : EndStateParser.end_state_file) :
  EndStateParser.parse_end_state file = EndStateParser.empty_end_state \/
  exists data,
    file = EndStateParser.Decoded data /\
    EndStateParser.read_document data
    = Ok (EndStateParser.parse_end_state file).
Proof.
  destruct file as [| |data]; simpl; auto.
  destruct (EndStateParser.read_document data) as [r|e] eqn:E; eauto.
Qed.

(** X17: whatever the end-state file holds, the compositions of the result
    have no empty team: every team listed has at least one agent, every
    agent is truthy (not null, not empty), no team is listed twice, and
    there are at most as many agents as players. *)
Theorem parsed_comps_are_filled (file : EndStateParser.end_state_file) :
  let r := EndStateParser.parse_end_state file in
  filled (EndStateParser.es_comps r) /\
  Forall (fun team => Forall (fun a => truthy a = true) (snd team))
         (EndStateParser.es_comps r) /\
  distinct (EndStateParser.es_comps r) /\
  (Spec.total_length (EndStateParser.es_comps r)
   <= List.length (EndStateParser.es_players r))%nat.
Proof.
  cbv zeta. destruct (parse_end_state_cases file) as [->|[data [_ Hr]]].
  - repeat split; constructor.
  - destruct (read_document_players _ _ Hr) as [_ Hloop].
    destruct (add_players_loop _ _ Hloop) as [_ [Hps [Hf [Ht [Hd _]]]]].
    simpl in *. repeat split; try assumption.
    clear -Hloop. revert Hloop.
    generalize (EndStateParser.es_players (EndStateParser.parse_end_state file)).
    generalize (EndStateParser.es_comps (EndStateParser.parse_end_state file)).
    intros cs ps Hloop.
    change ((fun acc => Spec.total_length (snd acc) <= List.length (fst acc))%nat
              (ps, cs)).
    revert Hloop.
    apply (foldM_invariant EndStateParser.add_player
             (fun _ acc =>
                (Spec.total_length (snd acc) <= List.length (fst acc))%nat)).
    + simpl. lia.
    + intros done player [ps0 cs0] acc' Hacc Hstep. simpl in Hacc.
      destruct player as [| | | | |p]; try discriminate. simpl in Hstep.
      destruct (truthy (py_or (get p "agent") (get p "selected_agent"))).
      * destruct (hash_key (get_default p "team" (VStr "unknown")));
          simpl in Hstep; [|discriminate].
        injection Hstep as <-. simpl.
        rewrite total_length_append, length_app. simpl. lia.
      * injection Hstep as <-. simpl. rewrite length_app. simpl. lia.
Qed.

(** X18: the end state is read all or nothing: when one of the player
    records of a document is not a JSON object, the whole result is the
    empty end state; the maps of the document and the players before the
    bad record are dropped with it. *)
Theorem bad_player_empties_end_state (data : value) :
  existsb (fun v => negb (Spec.is_dict v)) (Spec.player_records data) = true ->
  EndStateParser.parse_end_state (EndStateParser.Decoded data)
  = EndStateParser.empty_end_state.
Proof.
  intros Hbad.
  destruct (parse_end_state_cases (EndStateParser.Decoded data))
    as [H|[data' [Hd Hr]]]; [exact H|].
  injection Hd as <-.
  destruct (read_document_players _ _ Hr) as [_ Hloop].
  destruct (add_players_loop _ _ Hloop) as [Hdict _].
  apply existsb_exists in Hbad as [v [Hv Hnot]].
  rewrite Forall_forall in Hdict. rewrite (Hdict v Hv) in Hnot. discriminate.
Qed.

Lemma bad_player_empties_end_state_witness :
  EndStateParser.es_maps
    (EndStateParser.parse_end_state (EndStateParser.Decoded end_state_bad_player))
  = VList [] /\
  EndStateParser.parse_end_state (EndStateParser.Decoded end_state_bad_player)
  = EndStateParser.empty_end_state.
Proof.
  split; [reflexivity|].
  apply (bad_player_empties_end_state end_state_bad_player). reflexivity.
Defined.

Lemma read_document_maps (data : value) (r : EndStateParser.end_state) :
  EndStateParser.read_document data = Ok r ->
  EndStateParser.es_maps r
  = match data with
    | VDict d => get_default d "maps" (VList [])
    | _ => VList []
    end.
Proof.
  unfold EndStateParser.read_document.
  destruct (EndStateParser.contains_key "maps" data) as [hm|e] eqn:Ec; simpl;
    [|discriminate].
  destruct (if hm then EndStateParser.get_of data "maps" (VList [])
            else Ok (VList [])) as [m|e] eqn:Em; simpl; [|discriminate].
  destruct (EndStateParser.contains_key "players" data) as [hp|e]; simpl;
    [|discriminate].
  destruct (if hp then _ else _) as [acc|e]; simpl; [|discriminate].
  intros H; injection H as <-. simpl.
  destruct data as [| | | | |d]; simpl in *; try discriminate;
    try (destruct hm; congruence).
  injection Ec as <-. unfold has_key, get_default in *.
  destruct (lookup "maps" d); congruence.
Qed.

(** X19: when a document is read without an exception (the result carries
    its raw data), the result is determined record by record: ["maps"] is
    the document's field as it is (the empty list when absent), there is one
    player entry per player record, in order, and under every team stand the
    agents ("agent", else "selected_agent") of the players of that team that
    have one, in order; a team none of whose players has an agent is not
    listed. *)
Theorem parsed_document_contents (file : EndStateParser.end_state_file)
    (data : value) :
  EndStateParser.es_raw_data (EndStateParser.parse_end_state file) = Some data ->
  let r := EndStateParser.parse_end_state file in
  file = EndStateParser.Decoded data /\
  EndStateParser.es_maps r
  = match data with
    | VDict d => get_default d "maps" (VList [])
    | _ => VList []
    end /\
  EndStateParser.es_players r = Spec.infos_of (Spec.player_records data) /\
  List.length (EndStateParser.es_players r)
  = List.length (Spec.player_records data) /\
  forall k,
    od_find k (EndStateParser.es_comps r)
    = Spec.as_group
        (map Spec.agent_of
             (filter (Spec.on_team k) (Spec.player_records data))).
Proof.
  intros Hraw. cbv zeta.
  destruct (parse_end_state_cases file) as [He|[data' [Hd Hr]]].
  - rewrite He in Hraw. discriminate.
  - destruct (read_document_players _ _ Hr) as [Hraw' Hloop].
    rewrite Hraw in Hraw'. injection Hraw' as <-.
    destruct (add_players_loop _ _ Hloop) as [Hdict [Hps [_ [_ [_ Hfind]]]]].
    simpl in Hps, Hfind.
    split; [assumption|]. split; [now apply read_document_maps|].
    split; [assumption|]. split; [|assumption].
    rewrite Hps. clear -Hdict. unfold Spec.infos_of.
    induction Hdict as [|v l Hv _ IH]; simpl; [reflexivity|].
    destruct v; try discriminate. simpl. now rewrite IH.
Qed.

Lemma parsed_document_contents_witness :
  let r := EndStateParser.parse_end_state
             (EndStateParser.Decoded end_state_doc1) in
  EndStateParser.es_comps r = [(KStr "red", [VStr "Jett"; VStr "Sova"])] /\
  List.length (EndStateParser.es_players r) = 3%nat /\
  forall k,
    od_find k (EndStateParser.es_comps r)
    = Spec.as_group
        (map Spec.agent_of
             (filter (Spec.on_team k) (Spec.player_records end_state_doc1))).
Proof.
  cbv zeta. split; [reflexivity|]. split; [reflexivity|].
  apply (parsed_document_contents (EndStateParser.Decoded end_state_doc1)
           end_state_doc1).
  reflexivity.
Defined.

Lemma filled_has_agents (teams : odict (list value)) :
  filled teams ->
  existsb Spec.has_agents teams = match teams with [] => false | _ => true end.
Proof.
  destruct 1 as [|[t agents] teams Ht _]; [reflexivity|].
  simpl in *. unfold Spec.has_agents at 1. simpl.
  destruct agents; [easy|reflexivity].
Qed.

(** X20: a match whose end state comes from the parser contributes to the
    composition view exactly when the parsed map list and the parsed
    compositions are both non-empty: a parsed team always has agents, so the
    inner test of the aggregation never fails for it. *)
Theorem parsed_match_contributes (file : EndStateParser.end_state_file)
    (s : series) :
  EndStateParser.as_doc (EndStateParser.parse_end_state file)
  = Some (end_state s) ->
  (Spec.contributes s = true <->
   maps (end_state s) <> [] /\ comps (end_state s) <> []).
Proof.
  intros Hdoc. unfold EndStateParser.as_doc in Hdoc.
  destruct (EndStateParser.es_maps (EndStateParser.parse_end_state file));
    try discriminate.
  injection Hdoc as Hdoc.
  destruct (parsed_comps_are_filled file) as [Hf _].
  unfold Spec.contributes. rewrite <- Hdoc. simpl.
  destruct l as [|m l].
  - split; [discriminate|]. intros [H _]. now elim H.
  - rewrite (filled_has_agents _ Hf).
    destruct (EndStateParser.es_comps (EndStateParser.parse_end_state file));
      split; try discriminate; intuition discriminate.
Qed.

Lemma parsed_match_contributes_witness :
  exists doc,
    EndStateParser.as_doc
      (EndStateParser.parse_end_state (EndStateParser.Decoded end_state_doc1))
    = Some doc /\
    let s := {| series_id := "series-1"; events := no_events;
                end_state := doc |} in
    Spec.contributes s = true /\
    (Spec.contributes s = true <->
     maps (end_state s) <> [] /\ comps (end_state s) <> []).
Proof.
  eexists. split; [reflexivity|]. cbv zeta. split; [reflexivity|].
  apply (parsed_match_contributes (EndStateParser.Decoded end_state_doc1)).
  reflexivity.
Defined.

(** ** The request handler *)

Lemma split_not_empty (sep : ascii) (s : string) : Main.split sep s <> [].
Proof.
  destruct s as [|c s]; simpl; [discriminate|].
  destruct (Ascii.eqb c sep); [discriminate|].
  destruct (Main.split sep s); discriminate.
Qed.

Lemma split_length (s : string) :
  List.length (Main.split "," s) = S (Spec.commas s).
Proof.
  induction s as [|c s IH]; simpl; [reflexivity|].
  destruct (Ascii.eqb c ","); simpl; [now rewrite IH|].
  destruct (Main.split "," s); simpl in *; [discriminate|assumption].
Qed.

Lemma join_split (s : string) : join "," (Main.split "," s) = s.
Proof.
  induction s as [|c s IH]; [reflexivity|].
  simpl Main.split. destruct (Ascii.eqb_spec c ",") as [->|_].
  - pose proof (split_not_empty "," s) as Hne.
    destruct (Main.split "," s) as [|p ps] eqn:E; [now elim Hne|].
    change (join "," ("" :: p :: ps))%string
      with ("" ++ "," ++ join "," (p :: ps))%string.
    now rewrite IH.
  - pose proof (split_not_empty "," s) as Hne.
    destruct (Main.split "," s) as [|p ps] eqn:E; [now elim Hne|].
    destruct ps as [|q ps]; simpl in *; now rewrite <- IH.
Qed.

(** *** Stripping *)

Section DropSpaces.

Variable space : list ascii -> nat.
Hypothesis space_nil : space [] = 0%nat.

Lemma drop_spaces_step (fuel : nat) (l : list ascii) :
  Main.drop_spaces space (S fuel) l
  = match space l with
    | O => l
    | S n => Main.drop_spaces space fuel (skipn (S n) l)
    end.
Proof. reflexivity. Qed.

Lemma drop_spaces_fixed (fuel : nat) (l : list ascii) :
  space l = 0%nat -> Main.drop_spaces space fuel l = l.
Proof.
  intros H. destruct fuel; [reflexivity|]. now rewrite drop_spaces_step, H.
Qed.

Lemma drop_spaces_skipn (fuel : nat) (l : list ascii) :
  exists j, Main.drop_spaces space fuel l = skipn j l.
Proof.
  revert l. induction fuel as [|fuel IH]; intros l.
  - now exists 0%nat.
  - rewrite drop_spaces_step.
    destruct (space l) as [|n]; [now exists 0%nat|].
    destruct (IH (skipn (S n) l)) as [j ->].
    exists (j + S n)%nat. now rewrite skipn_skipn.
Qed.

Lemma drop_spaces_done (fuel : nat) (l : list ascii) :
  (List.length l <= fuel)%nat ->
  space (Main.drop_spaces space fuel l) = 0%nat.
Proof.
  revert l. induction fuel as [|fuel IH]; intros l Hl.
  - destruct l; [exact space_nil|simpl in Hl; lia].
  - rewrite drop_spaces_step.
    destruct (space l) as [|n] eqn:E; [exact E|].
    apply IH. rewrite length_skipn. lia.
Qed.

End DropSpaces.

Lemma leading_space_prefix (p q : list ascii) :
  Main.leading_space (p ++ q) = 0%nat -> Main.leading_space p = 0%nat.
Proof.
  destruct p as [|c1 [|c2 [|c3 p]]]; simpl; try reflexivity.
  - destruct (Main.space1 c1); [discriminate|reflexivity].
  - destruct (Main.space1 c1); [discriminate|].
    destruct (Main.space2 c1 c2); [discriminate|reflexivity].
  - destruct (Main.space1 c1); [discriminate|].
    destruct (Main.space2 c1 c2); [discriminate|].
    destruct (Main.space3 c1 c2 c3); [discriminate|reflexivity].
Qed.

(** What [strip] returns neither starts nor ends with white space. *)
Lemma strip_bytes_fixed (l : list ascii) :
  let b := Main.rstrip (Main.lstrip l) in
  Main.lstrip b = b /\ Main.rstrip b = b.
Proof.
  cbv zeta. set (a := Main.lstrip l).
  assert (Ha : Main.leading_space a = 0%nat).
  { apply drop_spaces_done; [reflexivity|lia]. }
  set (d := Main.drop_spaces Main.trailing_space (List.length a) (rev a)).
  assert (Hd : Main.trailing_space d = 0%nat).
  { apply drop_spaces_done; [reflexivity|]. rewrite length_rev. lia. }
  change (Main.rstrip a) with (rev d). split.
  - apply drop_spaces_fixed. apply (leading_space_prefix _ (rev (firstn
      (List.length (rev a) - List.length d) (rev a)))).
    destruct (drop_spaces_skipn Main.trailing_space (List.length a) (rev a))
      as [j Hj]. fold d in Hj.
    rewrite <- rev_app_distr.
    assert (Hsplit : firstn (List.length (rev a) - List.length d) (rev a) ++ d
                     = rev a).
    { rewrite Hj, length_skipn.
      destruct (Nat.le_gt_cases j (List.length (rev a))) as [Hle|Hgt].
      - replace (List.length (rev a) - (List.length (rev a) - j))%nat
          with j by lia.
        apply firstn_skipn.
      - rewrite skipn_all2 by lia.
        replace (List.length (rev a) - j)%nat with 0%nat by lia.
        rewrite Nat.sub_0_r, firstn_all, app_nil_r. reflexivity. }
    rewrite Hsplit, rev_involutive. exact Ha.
  - unfold Main.rstrip. rewrite rev_involutive.
    rewrite drop_spaces_fixed by exact Hd. reflexivity.
Qed.

Lemma strip_idempotent (s : string) : Main.strip (Main.strip s) = Main.strip s.
Proof.
  unfold Main.strip. rewrite list_ascii_of_string_of_list_ascii.
  destruct (strip_bytes_fixed (list_ascii_of_string s)) as [Hl Hr].
  now rewrite Hl, Hr.
Qed.

(** *** The loop over the series *)

Section Handler.

Context {world error : Type}.
Variable grid : Main.service world error.

(** An entry that [process_series] returns carries the id it was asked for
    and what the parsers make of the files found for it. *)
Lemma process_series_entry (series_id : string) (w : world)
    (entry : Main.series_entry) :
  fst (Main.process_series grid series_id w) = inr entry ->
  Main.entry_id entry = series_id /\ Spec.entry_of grid entry.
Proof.
  unfold Main.process_series, Main.parse_events_of, Main.parse_end_state_of,
    Main.io_bind, Main.io_ret.
  destruct (Main.list_files grid series_id w) as [[e|[]] w1];
    [discriminate|].
  destruct (Main.download_events_zip grid series_id w1) as [[e|[]] w2];
    [discriminate|].
  destruct (Main.download_end_state grid series_id w2) as [[e|[]] w3];
    [discriminate|].
  destruct (Main.glob_jsonl grid series_id w3) as [[e|files] w4] eqn:Eg;
    [discriminate|].
  assert (Hfiles : fst (Main.glob_jsonl grid series_id w3) = inr files)
    by now rewrite Eg.
  destruct files as [|f files].
  - destruct (Main.find_end_state grid series_id w4) as [[e|file] w5] eqn:Ef;
      [discriminate|].
    simpl. intros H; injection H as <-. split; [reflexivity|].
    exists w3, w4, [], file. simpl. rewrite Hfiles, Ef. auto.
  - destruct (Main.write_schema_preview grid series_id _ w4) as [[e|[]] w5];
      [discriminate|].
    destruct (Main.find_end_state grid series_id w5) as [[e|file] w6] eqn:Ef;
      [discriminate|].
    simpl. intros H; injection H as <-. split; [reflexivity|].
    exists w3, w5, (f :: files), file. simpl. rewrite Hfiles, Ef. auto.
Qed.

(** The loop, from any list collected so far: it ends at the first id at
    which a step raises, in the world that step leaves, or it adds one entry
    per id, in order. *)
Lemma process_all_cases (ids : list string) (acc : list Main.series_entry)
    (w : world) :
  (exists before series_id after e added w1,
      ids = before ++ series_id :: after /\
      Main.process_all grid before acc w = (inr (acc ++ added), w1) /\
      fst (Main.process_series grid series_id w1) = inl e /\
      Main.process_all grid ids acc w
      = (inl (series_id, e), snd (Main.process_series grid series_id w1))) \/
  (exists added,
      fst (Main.process_all grid ids acc w) = inr (acc ++ added) /\
      map Main.entry_id added = ids /\
      Forall (Spec.entry_of grid) added).
Proof.
  revert acc w. induction ids as [|series_id ids IH]; intros acc w.
  - right. exists []. simpl. rewrite app_nil_r. auto.
  - simpl. destruct (Main.process_series grid series_id w) as [[e|entry] w']
      eqn:Ed.
    + left. exists [], series_id, ids, e, [], w. simpl.
      rewrite app_nil_r, Ed. auto.
    + assert (Hentry : fst (Main.process_series grid series_id w) = inr entry)
        by now rewrite Ed.
      apply process_series_entry in Hentry as [Hid Hof].
      destruct (IH (acc ++ [entry]) w')
        as [(before & bad & after & e & added & w1 & Hids & Hrun & He & Hall)
           |(added & Hrun & Hmap & Hall)].
      * left. exists (series_id :: before), bad, after, e, (entry :: added), w1.
        simpl. rewrite Ed. rewrite <- app_assoc in Hrun.
        subst ids. auto.
      * right. exists (entry :: added). rewrite <- app_assoc in Hrun.
        split; [exact Hrun|]. split; [simpl; now rewrite Hmap, Hid|].
        now constructor.
Qed.

End Handler.

Lemma given_string (parameter : option string) :
  Main.given parameter = true ->
  exists s, parameter = Some s /\ s <> EmptyString.
Proof.
  destruct parameter as [[|c s]|]; try discriminate.
  intros _. now exists (String c s).
Qed.

(** An exception of the parsers' own file accesses is answered like one of
    the client: with a cache directory that cannot be written, the schema
    file of the first series ends the request. *)
Lemma schema_write_failure_ends_request :
  Main.scout_valorant read_only_service (Some "a"%string) None 10 0%nat
  = (Main.ProcessingError "a" "read-only file system"%string, 5%nat).
Proof. reflexivity. Qed.

(** X21: the handler never answers "No valid series data could be
    retrieved": a parameter that passed the first two tests splits into at
    least one id, and the loop either raises at an id or adds an entry for
    it, so [series_data] is not empty after the loop. *)
Theorem no_series_data_is_dead {world error : Type}
    (grid : Main.service world error)
    (series_ids team_id : option string) (last_n : Z) (w : world) :
  fst (Main.scout_valorant grid series_ids team_id last_n w)
  <> Main.NoSeriesData.
Proof.
  unfold Main.scout_valorant.
  destruct (Main.given team_id && negb (Main.given series_ids));
    [discriminate|].
  destruct (Main.given series_ids) eqn:Eg; [|discriminate]. simpl.
  destruct (given_string _ Eg) as [s [-> _]].
  destruct (process_all_cases grid (map Main.strip (Main.split "," s)) [] w)
    as [(before & bad & after & e & added & w1 & _ & _ & _ & Hall)
       |(added & Hrun & Hmap & _)].
  - rewrite Hall. discriminate.
  - destruct (Main.process_all grid _ [] w) as [r w']. simpl in Hrun.
    subst r. destruct added; [|discriminate].
    pose proof (split_not_empty "," s). simpl in Hmap.
    destruct (Main.split "," s); [contradiction|discriminate].
Qed.

(** X22: when the handler reaches the aggregation, the parameter
    [series_ids] was a non-empty string; the ids are its pieces between the
    commas, each stripped of white space at both ends (stripping again
    changes nothing), none dropped (an empty piece is an id as well); and
    [series_data] holds one entry per id, in the order of the parameter,
    made by the two parsers from the files found for that id. *)
Theorem gathered_series {world error : Type}
    (grid : Main.service world error)
    (series_ids team_id : option string) (last_n : Z) (w : world)
    (ids : list string) (series_data : list Main.series_entry) :
  fst (Main.scout_valorant grid series_ids team_id last_n w)
  = Main.Gathered ids series_data ->
  exists s,
    series_ids = Some s /\ s <> EmptyString /\
    ids = map Main.strip (Main.split "," s) /\
    List.length ids = S (Spec.commas s) /\
    Forall (fun series_id => Main.strip series_id = series_id) ids /\
    map Main.entry_id series_data = ids /\
    Forall (Spec.entry_of grid) series_data.
Proof.
  unfold Main.scout_valorant.
  destruct (Main.given team_id && negb (Main.given series_ids));
    [discriminate|].
  destruct (Main.given series_ids) eqn:Eg; [|discriminate]. simpl.
  destruct (given_string _ Eg) as [s [-> Hs]].
  destruct (process_all_cases grid (map Main.strip (Main.split "," s)) [] w)
    as [(before & bad & after & e & added & w1 & _ & _ & _ & Hall)
       |(added & Hrun & Hmap & Hentries)].
  - rewrite Hall. discriminate.
  - destruct (Main.process_all grid _ [] w) as [r w']. simpl in Hrun.
    subst r. simpl. destruct added as [|entry added]; [discriminate|].
    intros H. injection H as <- <-.
    exists s. repeat split; try assumption.
    + now rewrite length_map, split_length.
    + apply Forall_forall. intros series_id Hin.
      apply in_map_iff in Hin as [piece [<- _]]. apply strip_idempotent.
Qed.

Lemma gathered_series_witness :
  exists ids series_data,
    fst (Main.scout_valorant counting_service (Some padded_ids) None 10 0%nat)
    = Main.Gathered ids series_data /\
    ids = ["a"; "b"]%string /\
    exists s,
      Some padded_ids = Some s /\ s <> EmptyString /\
      ids = map Main.strip (Main.split "," s) /\
      List.length ids = S (Spec.commas s) /\
      Forall (fun series_id => Main.strip series_id = series_id) ids /\
      map Main.entry_id series_data = ids /\
      Forall (Spec.entry_of counting_service) series_data.
Proof.
  eexists. eexists. split; [reflexivity|]. split; [reflexivity|].
  apply (gathered_series counting_service (Some padded_ids) None 10 0%nat).
  reflexivity.
Defined.

(** X23: an error answer for a series stops the request at the first id at
    which a step of its processing raises, be it a call of the client or a
    file access of the parsers: every id before it was processed to its
    entry, the exception is the one of that step, and the world is left as
    that step left it, so no later id is touched. *)
Theorem processing_error_at_first_failure {world error : Type}
    (grid : Main.service world error)
    (series_ids team_id : option string) (last_n : Z) (w w' : world)
    (series_id : string) (e : error) :
  Main.scout_valorant grid series_ids team_id last_n w
  = (Main.ProcessingError series_id e, w') ->
  exists s before after series_data w1,
    series_ids = Some s /\
    map Main.strip (Main.split "," s) = before ++ series_id :: after /\
    Main.process_all grid before [] w = (inr series_data, w1) /\
    map Main.entry_id series_data = before /\
    Main.process_series grid series_id w1 = (inl e, w').
Proof.
  unfold Main.scout_valorant.
  destruct (Main.given team_id && negb (Main.given series_ids));
    [discriminate|].
  destruct (Main.given series_ids) eqn:Eg; [|discriminate]. simpl.
  destruct (given_string _ Eg) as [s [-> Hs]].
  destruct (process_all_cases grid (map Main.strip (Main.split "," s)) [] w)
    as [(before & bad & after & e' & added & w1 & Hids & Hrun & He & Hall)
       |(added & Hrun & _ & _)].
  - rewrite Hall. intros H. injection H as <- <- <-.
    exists s, before, after, added, w1.
    split; [reflexivity|]. split; [assumption|]. split; [assumption|].
    split.
    + destruct (process_all_cases grid before [] w)
        as [(b & x & a & e1 & ad & w2 & _ & _ & _ & Hbad)
           |(added' & Hrun' & Hmap & _)].
      * rewrite Hbad in Hrun. discriminate.
      * rewrite Hrun in Hrun'. simpl in Hrun'. now injection Hrun' as <-.
    + rewrite <- He. apply surjective_pairing.
  - destruct (Main.process_all grid _ [] w) as [r w2]. simpl in Hrun.
    subst r. destruct added; discriminate.
Qed.

Lemma processing_error_at_first_failure_witness :
  exists s before after series_data w1,
    Some "a,,b"%string = Some s /\
    map Main.strip (Main.split "," s) = before ++ ""%string :: after /\
    Main.process_all counting_service before [] 0%nat = (inr series_data, w1) /\
    map Main.entry_id series_data = before /\
    Main.process_series counting_service "" w1
    = (inl "not found"%string, 7%nat).
Proof.
  apply (processing_error_at_first_failure counting_service
           (Some "a,,b"%string) None 10 0%nat 7%nat "" "not found"%string).
  reflexivity.
Defined.

(** ** The map pool section *)

Lemma sorted_desc_sorted {A : Type} (f : A -> Z) (l : list A) :
  StronglySorted (fun a b => f b <= f a) (sorted_desc f l).
Proof.
  apply (StronglySorted_weaken (desc_then f (fun _ _ => True))).
  - intros a b [H|[H _]]; lia.
  - apply sorted_desc_stable.
    induction l; constructor; [assumption|]. now apply Forall_forall.
Qed.

(** Sorting a list that is in descending order leaves it as it is. *)
Lemma sorted_desc_fixed {A : Type} (f : A -> Z) (l : list A) :
  StronglySorted (fun a b => f b <= f a) l -> sorted_desc f l = l.
Proof.
  induction 1 as [|x l Hs IH Hx]; [reflexivity|].
  change (sorted_desc f (x :: l)) with (insert_desc f x (sorted_desc f l)).
  rewrite IH. destruct l as [|y l]; [reflexivity|]. simpl.
  apply Forall_inv in Hx. apply Z.leb_le in Hx. now rewrite Hx.
Qed.

Lemma value_counts_sorted (l : list value) (c : odict nat) :
  value_counts l = Ok c -> by_count_desc c = c.
Proof.
  unfold value_counts. destruct (tally l []) as [seen|e]; simpl;
    [|discriminate].
  intros H; injection H as <-. unfold by_count_desc.
  apply sorted_desc_fixed. apply (sorted_desc_sorted by_count).
Qed.

Lemma fold_left_rows {A : Type} (row : A -> string) (items : list A)
    (lines : list string) :
  fold_left (fun lines item => lines ++ [row item]) items lines
  = lines ++ map row items.
Proof.
  revert lines. induction items as [|x items IH]; intros lines; simpl.
  - now rewrite app_nil_r.
  - rewrite IH, <- app_assoc. reflexivity.
Qed.

(** X24: the map pool section of a returned map pool: the sort of the
    section changes nothing, as the counts come in descending order from the
    aggregation, so the table shows the maps in the order of the view, one
    row each; the line "No map data available" stands for the table exactly
    when the view lists no map; and when the resolved map names are strings,
    which pandas counts as they are, that is exactly when the total of the
    view is zero. *)
Theorem map_pool_section_of_view (series_data : list series)
    (pool : map_pool) :
  analyze_maps_played series_data = Ok pool ->
  by_count_desc (pool_maps pool) = pool_maps pool /\
  _section_map_pool pool
  = match pool_maps pool with
    | [] => ["## Map Pool"; ""; "*No map data available*"]%string
    | _ :: _ =>
        ["## Map Pool"; ""; "| Map | Appearances |"; "|-----|-------------|"]%string
        ++ map (fun item =>
                  ("| " ++ str_key (fst item) ++ " | "
                   ++ str_int (Z.of_nat (snd item)) ++ " |")%string)
               (pool_maps pool)
        ++ [""%string]
    end /\
  (Forall (fun descriptor =>
             Spec.is_label (Spec.resolved_name descriptor) = true)
          (Spec.counted_descriptors series_data) ->
   (pool_maps pool = [] <-> pool_total pool = 0%nat)).
Proof.
  unfold analyze_maps_played.
  destruct (collect_maps series_data) as [|n names] eqn:Em.
  - intros H; injection H as <-. repeat split; reflexivity.
  - destruct (value_counts (n :: names)) as [c|e] eqn:Ec; simpl;
      [|discriminate].
    intros H; injection H as <-. simpl pool_maps. simpl pool_total.
    assert (Htruthy : Forall (fun v => truthy v = true) (n :: names)).
    { rewrite <- Em, collect_maps_spec. apply Forall_forall.
      intros v Hv. now apply filter_In in Hv. }
    pose proof (value_counts_sum _ _ Ec) as Hsum.
    rewrite non_null_truthy in Hsum by assumption.
    pose proof (value_counts_sorted _ _ Ec) as Hsorted.
    split; [assumption|]. split.
    + unfold _section_map_pool. simpl pool_maps. rewrite Hsorted.
      destruct c as [|item c]; [reflexivity|].
      rewrite fold_left_rows. cbn [app]. reflexivity.
    + intros _. split; [|discriminate]. intros ->. discriminate.
Qed.

Lemma map_pool_section_of_view_witness :
  exists pool,
    analyze_maps_played mixed_descriptors = Ok pool /\
    _section_map_pool pool
    = ["## Map Pool"; ""; "| Map | Appearances |"; "|-----|-------------|";
       "| Ascent | 2 |"; "| Bind | 1 |"; "| unknown | 1 |"; ""]%string /\
    by_count_desc (pool_maps pool) = pool_maps pool /\
    (pool_maps pool = [] <-> pool_total pool = 0%nat).
Proof.
  eexists. split; [reflexivity|]. split; [reflexivity|].
  destruct (map_pool_section_of_view mixed_descriptors _ eq_refl)
    as [H1 [_ H2]].
  split; [exact H1|]. apply H2. repeat constructor.
Defined.
